(** * A shallow embedding of the byte-oriented Huffman codec (src/huffman.cpp)

    The development follows the source file top to bottom: machine
    integers, the fixed-size arrays of the codec object, the frequency
    counter, the radix sorter, the tree builder, the code generator, the
    bit packer and unpacker and finally the two entry points
    [huffman_encode] and [huffman_decode]. *)

From Stdlib Require Import ZArith List Lia Bool Permutation Arith Sorted.
Import ListNotations.
Local Open Scope Z_scope.

(** ** Machine integers

    [unsigned int] is 32 bits wide, [unsigned long] and [size_t] are 64
    bits wide (LP64), [int] is 32-bit two's complement and [unsigned char]
    is 8 bits wide.  Every C++ operation is modelled on [Z] with its
    wrap-around written out. *)

Definition UINT_MAX : Z := 4294967295.

Definition wrap8 (x : Z) : Z := x mod 256.
Definition wrap32 (x : Z) : Z := x mod 4294967296.
Definition wrap64 (x : Z) : Z := x mod 18446744073709551616.
Definition wrap_int (x : Z) : Z := (x + 2147483648) mod 4294967296 - 2147483648.

(** ** Fixed-size arrays

    A C array is a list; [get] reads a cell and [set] overwrites one.  The
    arrays of the codec are indexed by [unsigned char], so an index is
    never negative. *)

Definition get {A : Type} (d : A) (l : list A) (i : Z) : A :=
  nth (Z.to_nat i) l d.

Fixpoint set_nat {A : Type} (l : list A) (n : nat) (v : A) : list A :=
  match l, n with
  | [], _ => []
  | _ :: t, O => v :: t
  | h :: t, S n' => h :: set_nat t n' v
  end.

Definition set {A : Type} (l : list A) (i : Z) (v : A) : list A :=
  if i <? 0 then l else set_nat l (Z.to_nat i) v.

(** Option monad for the operations that can leave the defined behaviour of
    the source (a read or a write outside a buffer, a null [head]). *)

Notation "'let?' x := a 'in' b" :=
  (match a with Some x => b | None => None end)
  (at level 10, x pattern, a at level 100, b at level 200).

(** ** Data model *)

(** [struct node]: a leaf carries its character, an internal node its two
    children.  The [parent] back pointer is written by [build_node] and
    never read, so it is not represented. *)
Inductive node : Type :=
| Leaf (character : Z) (count : Z)
| Internal (count : Z) (left right : node).

Definition count (n : node) : Z :=
  match n with Leaf _ c => c | Internal c _ _ => c end.

Definition internal_node (n : node) : bool :=
  match n with Leaf _ _ => false | Internal _ _ _ => true end.

(** [struct code] *)
Record code : Type := mkCode { code_length : Z; code_value : Z }.

(** [struct bit_cursor] and [struct bit_cursor_read]: [bytePtr] is the index
    of the current byte in the buffer the cursor walks. *)
Record bit_cursor : Type := mkCursor { bytePtr : Z; curBit : Z }.

(** The member variables of [class huffman_codec].  [sorted_leaf_nodes]
    holds the cells written so far, the rest of the C array being
    indeterminate. *)
Record huffman_codec : Type := mkCodec {
  sorted_leaf_nodes : list node;
  head : option node;
  char_frequency : list Z;
  max_freq : Z;
  codes : list code
}.

Definition LAST_NODE : Z := UINT_MAX.

(** A default-initialised codec: [char_frequency] is all zero, [max_freq] is
    zero, [head] is null; [codes] has no initialiser and starts with
    whatever the memory holds, which is the parameter [codes0]. *)
Definition new_codec (codes0 : list code) : huffman_codec :=
  {| sorted_leaf_nodes := [];
     head := None;
     char_frequency := repeat 0 256;
     max_freq := 0;
     codes := codes0 |}.

(** ** Frequency counter *)

Fixpoint count_loop (bufin : list Z) (cf : list Z) (mf : Z) : list Z * Z :=
  match bufin with
  | [] => (cf, mf)
  | c :: rest =>
      let cf' := set cf c (wrap32 (get 0 cf c + 1)) in
      let mf' := if get 0 cf' c >? mf then get 0 cf' c else mf in
      count_loop rest cf' mf'
  end.

Definition count_chars (bufin : list Z) (st : huffman_codec) : huffman_codec :=
  let '(cf, mf) := count_loop bufin (char_frequency st) 0 in
  {| sorted_leaf_nodes := sorted_leaf_nodes st;
     head := head st;
     char_frequency := cf;
     max_freq := mf;
     codes := codes st |}.

(** Input buffers hold [unsigned char] values. *)
Definition is_byte (x : Z) : Prop := 0 <= x < 256.
Definition bytes (b : list Z) : Prop := Forall is_byte b.

(** Number of occurrences of [c] in [b]. *)
Fixpoint occ (c : Z) (b : list Z) : Z :=
  match b with
  | [] => 0
  | x :: rest => (if x =? c then 1 else 0) + occ c rest
  end.

(** ** Radix sorter *)

(** The decimal digit of the frequency of [c] selected by [div]. *)
Definition digit (cf : list Z) (div : Z) (c : Z) : Z :=
  (get 0 cf c / div) mod 10.

Fixpoint count_symbols (cf : list Z) (div : Z) (in_array : list Z)
    (symbol_count : list Z) : list Z :=
  match in_array with
  | [] => symbol_count
  | c :: rest =>
      let symbol := digit cf div c in
      count_symbols cf div rest
        (set symbol_count symbol (wrap_int (get 0 symbol_count symbol + 1)))
  end.

Definition gen_offsets (symbol_count : list Z) : list Z :=
  fold_left
    (fun offsets i =>
       set offsets i (wrap_int (get 0 offsets (i - 1) + get 0 symbol_count (i - 1))))
    (map Z.of_nat (seq 1 9)) (repeat 0 10).

Fixpoint scatter (cf : list Z) (div : Z) (in_array : list Z)
    (offsets : list Z) (out_array : list Z) : list Z :=
  match in_array with
  | [] => out_array
  | c :: rest =>
      let symbol := digit cf div c in
      let out_array' := set out_array (get 0 offsets symbol) c in
      scatter cf div rest
        (set offsets symbol (wrap_int (get 0 offsets symbol + 1))) out_array'
  end.

(** [sort_radix]: [pow(10, r)] is exact for the exponents 0..9 the sorter
    uses.  The three loops run over the 256 cells of [in_array]. *)
Definition sort_radix (cf : list Z) (r : Z) (in_array out_array : list Z) : list Z :=
  let div := 10 ^ r in
  let symbol_count := count_symbols cf div in_array (repeat 0 10) in
  let offsets := gen_offsets symbol_count in
  scatter cf div in_array offsets out_array.

(** [ceil(log10(max_freq))] converted to [int]: the least [k] with
    [max_freq <= 10^k].  The logarithm is taken exactly, which is what an
    IEEE [log10] returns at the powers of ten, the only arguments where
    rounding could change the ceiling.  [log10(0)] is minus infinity, whose
    conversion yields the most negative [int]. *)
Fixpoint ceil_log10_from (fuel : nat) (k p m : Z) : Z :=
  match fuel with
  | O => k
  | S fuel' => if m <=? p then k else ceil_log10_from fuel' (k + 1) (10 * p) m
  end.

Definition ceil_log10 (m : Z) : Z :=
  if m <=? 0 then -2147483648 else ceil_log10_from 10 0 1 m.

(** The passes of [sort_chars] over the two [sorting_arrays]: [input] is
    [sorting_arrays[input_array]], [other] is the second one. *)
Fixpoint sort_passes (cf : list Z) (n : nat) (i : Z) (input other : list Z)
    : list Z :=
  match n with
  | O => input
  | S n' => sort_passes cf n' (i + 1) (sort_radix cf i input other) input
  end.

Definition make_leaves (cf : list Z) (sorted : list Z) : list node :=
  flat_map
    (fun character =>
       if get 0 cf character >? 0
       then [Leaf character (get 0 cf character)] else [])
    sorted.

(** The second sorting array starts indeterminate; every one of its cells is
    written by the first pass before it is read. *)
Definition sorted_chars (cf : list Z) (mf : Z) : list Z :=
  let max_radix := ceil_log10 mf in
  sort_passes cf (Z.to_nat max_radix) 0 (map Z.of_nat (seq 0 256)) (repeat 0 256).

Definition sort_chars (st : huffman_codec) : huffman_codec :=
  let cf := char_frequency st in
  {| sorted_leaf_nodes :=
       make_leaves cf (sorted_chars cf (max_freq st)) ++ [Leaf 0 LAST_NODE];
     head := head st;
     char_frequency := cf;
     max_freq := max_freq st;
     codes := codes st |}.

(** ** Tree builder *)

(** [std::priority_queue<node*, std::vector<node*>, decltype(cmp)>] with
    [cmp] comparing counts with [>]: [top] is an element of least count, and
    which one among equals is left to the library.  The interface is kept
    abstract: any implementation whose contents [pq_elems] obey the four
    laws may be plugged in. *)
Record priority_queue : Type := {
  pq_t : Type;
  pq_new : pq_t;
  pq_empty : pq_t -> bool;
  pq_top : pq_t -> option node;
  pq_pop : pq_t -> pq_t;
  pq_push : node -> pq_t -> pq_t;
  pq_elems : pq_t -> list node;
  pq_new_spec : pq_elems pq_new = [];
  pq_empty_spec : forall q, pq_empty q = true <-> pq_elems q = [];
  pq_push_spec : forall x q,
    Permutation (pq_elems (pq_push x q)) (x :: pq_elems q);
  pq_top_spec : forall q, pq_elems q <> [] ->
    exists x, pq_top q = Some x /\
      Permutation (pq_elems q) (x :: pq_elems (pq_pop q)) /\
      forall y, In y (pq_elems q) -> count x <= count y
}.

(** A reference implementation: an unordered list from which the first
    element of least count is extracted. *)
Fixpoint extract_min (l : list node) : option (node * list node) :=
  match l with
  | [] => None
  | x :: r =>
      match extract_min r with
      | None => Some (x, [])
      | Some (m, r') =>
          if count m <? count x then Some (m, x :: r') else Some (x, r)
      end
  end.

Definition list_pq : priority_queue.
Proof.
  refine {| pq_t := list node;
            pq_new := [];
            pq_empty := fun q => match q with [] => true | _ => false end;
            pq_top := fun q => option_map fst (extract_min q);
            pq_pop := fun q => match extract_min q with
                               | Some (_, r) => r | None => [] end;
            pq_push := fun x q => q ++ [x];
            pq_elems := fun q => q |}.
  - reflexivity.
  - intros [|x q]; split; intros H; congruence.
  - intros x q. apply Permutation_sym, Permutation_cons_append.
  - induction q as [|x r IH]; intros Hne; [congruence|].
    simpl. destruct r as [|y r'].
    + simpl. exists x. split; [reflexivity|]. split; [apply Permutation_refl|].
      intros z [<-|[]]. lia.
    + destruct IH as (m & Htop & Hperm & Hmin); [congruence|].
      destruct (extract_min (y :: r')) as [[m' rest]|] eqn:E; [|discriminate].
      simpl in Htop. injection Htop as ->.
      destruct (Z.ltb_spec (count m) (count x)).
      * exists m. split; [reflexivity|]. split.
        -- simpl. rewrite Hperm. apply perm_swap.
        -- intros z [<-|Hz]; [lia|]. apply Hmin, Hz.
      * exists x. split; [reflexivity|]. split; [apply Permutation_refl|].
        intros z [<-|Hz]; [lia|]. specialize (Hmin z Hz). lia.
Defined.

Section TreeBuilder.

Variable Q : priority_queue.

(** The lambda [get_min_node].  [leaves] is the part of [sorted_leaf_nodes]
    from [leaf_idx] on; an empty list means that [leaf_idx] has run past the
    cells [sort_chars] wrote. *)
Definition get_min_node (leaves : list node) (node_q : pq_t Q)
    : option (node * list node * pq_t Q) :=
  match leaves with
  | [] => None
  | lf :: rest =>
      if pq_empty Q node_q then Some (lf, rest, node_q)
      else
        let? top := pq_top Q node_q in
        if count lf <? count top then Some (lf, rest, node_q)
        else Some (top, leaves, pq_pop Q node_q)
  end.

(** The lambda [build_node]. *)
Definition build_node (lft rgt : node) : node :=
  Internal (wrap32 (count lft + count rgt)) lft rgt.

(** The loop of [huff_tree]. [pool] counts the cells of [internal_nodes]
    that are still free. *)
Fixpoint huff_loop (pool : nat) (leaves : list node) (node_q : pq_t Q)
    : option node :=
  let? (lft, leaves1, q1) := get_min_node leaves node_q in
  match leaves1 with
  | [] => None
  | nxt :: _ =>
      if (count nxt =? LAST_NODE) && pq_empty Q q1 then Some lft
      else
        let? (rgt, leaves2, q2) := get_min_node leaves1 q1 in
        match pool with
        | O => None
        | S pool' =>
            huff_loop pool' leaves2 (pq_push Q (build_node lft rgt) q2)
        end
  end.

Definition huff_tree (st : huffman_codec) : option huffman_codec :=
  let st1 := sort_chars st in
  let? h := huff_loop 512 (sorted_leaf_nodes st1) (pq_new Q) in
  Some {| sorted_leaf_nodes := sorted_leaf_nodes st1;
          head := Some h;
          char_frequency := char_frequency st1;
          max_freq := max_freq st1;
          codes := codes st1 |}.

End TreeBuilder.

(** ** Code generator *)

Fixpoint gen_codes_from (h : node) (cur_code : code) (cs : list code) : list code :=
  match h with
  | Internal _ l r =>
      let c1 := {| code_length := wrap_int (code_length cur_code + 1);
                   code_value := wrap32 (Z.shiftl (code_value cur_code) 1) |} in
      let cs1 := gen_codes_from l c1 cs in
      let c2 := {| code_length := code_length c1;
                   code_value := Z.lor (code_value c1) 1 |} in
      gen_codes_from r c2 cs1
  | Leaf character _ => set cs character cur_code
  end.

Definition gen_codes (st : huffman_codec) : option huffman_codec :=
  let? h := head st in
  Some {| sorted_leaf_nodes := sorted_leaf_nodes st;
          head := head st;
          char_frequency := char_frequency st;
          max_freq := max_freq st;
          codes := gen_codes_from h (mkCode 0 0) (codes st) |}.

(** ** Bit packer and unpacker *)

(** A buffer is a list of cells; an access outside it has no defined
    behaviour and yields [None]. *)
Definition load {A : Type} (buf : list A) (i : Z) : option A :=
  if (0 <=? i) && (i <? Z.of_nat (length buf))
  then nth_error buf (Z.to_nat i) else None.

Definition store {A : Type} (buf : list A) (i : Z) (v : A) : option (list A) :=
  if (0 <=? i) && (i <? Z.of_nat (length buf))
  then Some (set buf i v) else None.

(** [bitWrite]: [bits] and [value] are [int]; the fuel bounds the number of
    iterations, each of which consumes at least one bit.  Shifting an [int]
    by 32 or more has no defined result. *)
Fixpoint bitWrite_loop (fuel : nat) (bits value : Z) (buf : list Z)
    (cursor : bit_cursor) : option (list Z * bit_cursor) :=
  if bits >? 0 then
    match fuel with
    | O => None
    | S fuel' =>
        let bitsLeftInByte := 8 - curBit cursor in
        let? byte := load buf (bytePtr cursor) in
        if bits <? bitsLeftInByte then
          let? buf' := store buf (bytePtr cursor)
            (wrap8 (Z.lor byte (wrap_int (Z.shiftl value (bitsLeftInByte - bits))))) in
          let cb := wrap8 (curBit cursor + bits) in
          let cursor' :=
            if cb >=? 8 then mkCursor (bytePtr cursor + 1) 0
            else mkCursor (bytePtr cursor) cb in
          bitWrite_loop fuel' 0 value buf' cursor'
        else if 32 <=? bits - bitsLeftInByte then None
        else
          let? buf' := store buf (bytePtr cursor)
            (wrap8 (Z.lor byte (Z.shiftr value (bits - bitsLeftInByte)))) in
          let value' :=
            Z.land value
              (wrap_int (wrap_int (Z.shiftl 1 (bits - bitsLeftInByte)) - 1)) in
          bitWrite_loop fuel' (bits - bitsLeftInByte) value' buf'
            (mkCursor (bytePtr cursor + 1) 0)
    end
  else Some (buf, cursor).

Definition bitWrite (bits value : Z) (buf : list Z) (cursor : bit_cursor)
    : option (list Z * bit_cursor) :=
  bitWrite_loop (Z.to_nat bits) bits value buf cursor.

(** The lambda [get_bits] of [bitRead], applied to the byte under the
    cursor. *)
Definition get_bits (byte : Z) (cursor : bit_cursor) (bits : Z) : Z :=
  let mask := wrap8 (wrap_int (wrap_int (Z.shiftl 1 bits) - 1)) in
  wrap8 (Z.land (Z.shiftr byte (8 - curBit cursor - bits)) mask).

Fixpoint bitRead_loop (fuel : nat) (bits data : Z) (buf : list Z)
    (cursor : bit_cursor) : option (Z * bit_cursor) :=
  if bits >? 0 then
    match fuel with
    | O => None
    | S fuel' =>
        let bitsLeftInByte := 8 - curBit cursor in
        let? byte := load buf (bytePtr cursor) in
        if bitsLeftInByte >? bits then
          let dataRead := get_bits byte cursor bits in
          let cursor' :=
            mkCursor (bytePtr cursor) (wrap8 (curBit cursor + bits)) in
          bitRead_loop fuel' 0 (Z.lor (wrap32 (Z.shiftl data bits)) dataRead)
            buf cursor'
        else
          let dataRead := get_bits byte cursor bitsLeftInByte in
          bitRead_loop fuel' (bits - bitsLeftInByte)
            (Z.lor (wrap32 (Z.shiftl data bitsLeftInByte)) dataRead)
            buf (mkCursor (bytePtr cursor + 1) 0)
    end
  else Some (data, cursor).

Definition bitRead (bits : Z) (buf : list Z) (cursor : bit_cursor)
    : option (Z * bit_cursor) :=
  bitRead_loop (Z.to_nat bits) bits 0 buf cursor.

(** ** Codec orchestration *)

Definition dcode : code := mkCode 0 0.

Definition calc_out_buff_size (st : huffman_codec) : Z :=
  let bit_count :=
    fold_left
      (fun acc i =>
         wrap64 (acc + wrap32 (get 0 (char_frequency st) i
                               * code_length (get dcode (codes st) i))))
      (map Z.of_nat (seq 0 256)) 0 in
  wrap32 (wrap64 (wrap64 (bit_count + 7) / 8 + 1024)).

(** An [unsigned int] is stored in four bytes, least significant first. *)
Definition store32 (buf : list Z) (i : Z) (v : Z) : option (list Z) :=
  let? b0 := store buf i (v mod 256) in
  let? b1 := store b0 (i + 1) ((v / 256) mod 256) in
  let? b2 := store b1 (i + 2) ((v / 65536) mod 256) in
  store b2 (i + 3) ((v / 16777216) mod 256).

Definition load32 (buf : list Z) (i : Z) : option Z :=
  let? b0 := load buf i in
  let? b1 := load buf (i + 1) in
  let? b2 := load buf (i + 2) in
  let? b3 := load buf (i + 3) in
  Some (b0 + 256 * b1 + 65536 * b2 + 16777216 * b3).

Fixpoint write_words (ws : list Z) (buf : list Z) (intPtr : Z)
    : option (list Z * Z) :=
  match ws with
  | [] => Some (buf, intPtr)
  | w :: rest =>
      let? buf' := store32 buf intPtr w in
      write_words rest buf' (intPtr + 4)
  end.

Definition write_char_freq (st : huffman_codec) (buf : list Z) (pbufout : Z)
    : option (list Z * Z) :=
  write_words (char_frequency st) buf pbufout.

Fixpoint encode_loop (cs : list code) (bufin : list Z) (buf : list Z)
    (outCursor : bit_cursor) : option (list Z * bit_cursor) :=
  match bufin with
  | [] => Some (buf, outCursor)
  | c :: rest =>
      let? (buf', cur') :=
        bitWrite (code_length (get dcode cs c))
                 (wrap_int (code_value (get dcode cs c))) buf outCursor in
      encode_loop cs rest buf' cur'
  end.

Definition encode (st : huffman_codec) (bufin : list Z) (buf : list Z)
    (pbufout : Z) : option (list Z) :=
  let? (buf', _) := encode_loop (codes st) bufin buf (mkCursor pbufout 0) in
  Some buf'.

Fixpoint read_loop (n : nat) (i : Z) (buf : list Z) (intPtr : Z)
    (cf : list Z) (totalSize mf uniqueChars : Z)
    : option (list Z * Z * Z * Z * Z) :=
  match n with
  | O => Some (cf, totalSize, mf, uniqueChars, intPtr)
  | S n' =>
      let? w := load32 buf intPtr in
      let cf' := set cf i w in
      let totalSize' := wrap32 (totalSize + w) in
      let mf' := if w >? mf then w else mf in
      let uniqueChars' := if w >? 0 then wrap32 (uniqueChars + 1) else uniqueChars in
      read_loop n' (i + 1) buf (intPtr + 4) cf' totalSize' mf' uniqueChars'
  end.

(** [read_char_freq]: returns the codec, the advanced [bufin], and the new
    values of [totalSize] and [uniqueChars].  [bufinlen] is decremented and
    never read afterwards. *)
Definition read_char_freq (buf : list Z) (bufin : Z) (totalSize : Z)
    (st : huffman_codec) : option (huffman_codec * Z * Z * Z) :=
  let? (cf, totalSize', mf, uniqueChars, intPtr) :=
    read_loop 256 0 buf bufin (char_frequency st) totalSize 0 0 in
  Some ({| sorted_leaf_nodes := sorted_leaf_nodes st;
           head := head st;
           char_frequency := cf;
           max_freq := mf;
           codes := codes st |}, intPtr, totalSize', uniqueChars).

(** The state of the loop of [decode]: [outPos] is the offset of [pbufout]
    in the output buffer [out], whose cells are [None] until written. *)
Record decode_state : Type := mkDecode {
  inCursor : bit_cursor;
  currentNode : node;
  out : list (option Z);
  outPos : Z;
  remaining : list Z;
  uniqueChars : Z
}.

(** One iteration of the body of the [while] loop of [decode]. *)
Definition decode_step (hd : node) (buf : list Z) (s : decode_state)
    : option decode_state :=
  let? (bit, cur') := bitRead 1 buf (inCursor s) in
  let curBit := wrap8 bit in
  let node1 :=
    match currentNode s with
    | Internal _ l r => if curBit =? 0 then l else r
    | Leaf _ _ => currentNode s
    end in
  match node1 with
  | Leaf character _ =>
      let? out' := store (out s) (outPos s) (Some character) in
      let cf' := set (remaining s) character
                     (wrap32 (get 0 (remaining s) character - 1)) in
      let u' := if get 0 cf' character =? 0
                then wrap32 (uniqueChars s - 1) else uniqueChars s in
      Some (mkDecode cur' hd out' (outPos s + 1) cf' u')
  | Internal _ _ _ =>
      Some (mkDecode cur' node1 (out s) (outPos s) (remaining s) (uniqueChars s))
  end.

(** The loop itself.  Every iteration reads one bit, so it cannot run more
    often than the input buffer has bits without reading outside it. *)
Fixpoint decode_loop (fuel : nat) (hd : node) (buf : list Z) (s : decode_state)
    : option decode_state :=
  if uniqueChars s >? 0 then
    match fuel with
    | O => None
    | S fuel' =>
        let? s' := decode_step hd buf s in
        decode_loop fuel' hd buf s'
    end
  else Some s.

Definition decode (st : huffman_codec) (buf : list Z) (bufin : Z)
    (pbufout : list (option Z)) (uniqueChars : Z)
    : option (huffman_codec * list (option Z)) :=
  let? hd := head st in
  let? s := decode_loop (S (8 * length buf)) hd buf
              (mkDecode (mkCursor bufin 0) hd pbufout 0
                        (char_frequency st) uniqueChars) in
  Some ({| sorted_leaf_nodes := sorted_leaf_nodes st;
           head := head st;
           char_frequency := remaining s;
           max_freq := max_freq st;
           codes := codes st |}, out s).

Section EntryPoints.

Variable Q : priority_queue.

(** [huffman_encode]: the result is the buffer [*pbufout] and its length
    [*pbufoutlen]. *)
Definition huffman_encode (codes0 : list code) (bufin : list Z)
    : option (list Z * Z) :=
  let codec := count_chars bufin (new_codec codes0) in
  let? codec := huff_tree Q codec in
  let? codec := gen_codes codec in
  let pbufoutlen := calc_out_buff_size codec in
  let pbufout := repeat 0 (Z.to_nat pbufoutlen) in
  let? (pbufout, curPtr) := write_char_freq codec pbufout 0 in
  let? pbufout := encode codec bufin pbufout curPtr in
  Some (pbufout, pbufoutlen).

(** [huffman_decode]: [len0] is the value [*pbufoutlen] holds on entry. *)
Definition huffman_decode (codes0 : list code) (bufin : list Z) (len0 : Z)
    : option (list (option Z) * Z) :=
  let? (codec, bufin', pbufoutlen, uniqueChars) :=
    read_char_freq bufin 0 len0 (new_codec codes0) in
  let? codec := huff_tree Q codec in
  let pbufout := repeat None (Z.to_nat (wrap32 (pbufoutlen + 1))) in
  let? (_, pbufout) := decode codec bufin bufin' pbufout uniqueChars in
  let? pbufout := store pbufout pbufoutlen (Some 0) in
  Some (pbufout, wrap32 (pbufoutlen + 1)).

End EntryPoints.

(** ** Vocabulary of the specifications *)

(** Position of a cursor counted in bits from the start of the buffer, and
    the cursor that stands at a given bit position. *)
Definition bitpos (c : bit_cursor) : Z := 8 * bytePtr c + curBit c.

Definition cursor_at (p : Z) : bit_cursor := mkCursor (p / 8) (p mod 8).

Definition valid_cursor (c : bit_cursor) : Prop :=
  0 <= bytePtr c /\ 0 <= curBit c <= 7.

(** Bit [p] of a buffer, most significant bit of a byte first. *)
Definition getbit (buf : list Z) (p : Z) : bool :=
  Z.testbit (get 0 buf (p / 8)) (7 - p mod 8).

(** The characters at the leaves of a tree, left to right. *)
Fixpoint leaves_of (t : node) : list Z :=
  match t with
  | Leaf c _ => [c]
  | Internal _ l r => leaves_of l ++ leaves_of r
  end.

(** The sentinel that ends [sorted_leaf_nodes]. *)
Definition sentinel : node := Leaf 0 LAST_NODE.

(** Unread leaves never carry the sentinel count; queued nodes carry an
    [unsigned int]. *)
Definition unread_ok (r : list node) : Prop :=
  Forall (fun x => count x <> LAST_NODE) r.

Definition queued_ok (Q : priority_queue) (q : pq_t Q) : Prop :=
  Forall (fun y => count y <= LAST_NODE) (pq_elems Q q).

(** Number of elements of [l] that [f] sends to [d]. *)
Fixpoint dcount (f : Z -> Z) (d : Z) (l : list Z) : Z :=
  match l with
  | [] => 0
  | x :: rest => (if f x =? d then 1 else 0) + dcount f d rest
  end.

(** Sum of the first [d] cells of a table. *)
Fixpoint psum (sc : list Z) (d : nat) : Z :=
  match d with
  | O => 0
  | S d' => psum sc d' + get 0 sc (Z.of_nat d')
  end.

(** The root-to-leaf paths of a tree, each with the character of its
    leaf; [false] goes left and [true] goes right. *)
Fixpoint paths (t : node) : list (Z * list bool) :=
  match t with
  | Leaf c _ => [(c, [])]
  | Internal _ l r =>
      map (fun cp => (fst cp, false :: snd cp)) (paths l)
      ++ map (fun cp => (fst cp, true :: snd cp)) (paths r)
  end.

(** What [gen_codes] makes of the code [cur] along a path. *)
Fixpoint extend (cur : code) (p : list bool) : code :=
  match p with
  | [] => cur
  | b :: rest =>
      let v := wrap32 (Z.shiftl (code_value cur) 1) in
      extend {| code_length := wrap_int (code_length cur + 1);
                code_value := if b then Z.lor v 1 else v |} rest
  end.

(** A code read as a bit string of its stated length, first bit first. *)
Definition code_bits (c : code) : list bool :=
  map (fun j => Z.testbit (code_value c) (code_length c - 1 - Z.of_nat j))
      (seq 0 (Z.to_nat (code_length c))).

Definition is_prefix (p q : list bool) : Prop := exists r, q = p ++ r.

(** The codec of [huffman_encode] once the tree is built and the codes are
    generated. *)
Definition with_codes (Q : priority_queue) (st0 : huffman_codec)
    : option huffman_codec :=
  let? st := huff_tree Q st0 in
  gen_codes st.

Definition encoder_state (Q : priority_queue) (codes0 : list code)
    (bufin : list Z) : option huffman_codec :=
  with_codes Q (count_chars bufin (new_codec codes0)).

(** Number of byte values whose remaining frequency is not zero. *)
Definition nonzero_count (cf : list Z) : Z :=
  Z.of_nat (length (filter (fun w => w >? 0) cf)).

Definition sum_list (l : list Z) : Z := fold_right Z.add 0 l.

(** The bits [decode] consumes for one symbol: with an internal root, the
    path from the root to the leaf of the symbol; with a root that is itself
    a leaf, one bit of any value. *)
Definition chunk_for (hd : node) (c : Z) (chunk : list bool) : Prop :=
  match hd with
  | Leaf ch _ => c = ch /\ length chunk = 1%nat
  | Internal _ _ _ => In (c, chunk) (paths hd)
  end.

(** [k] iterations of the body of the loop of [decode], without the loop
    test. *)
Fixpoint decode_iter (k : nat) (hd : node) (buf : list Z) (s : decode_state)
    : option decode_state :=
  match k with
  | O => Some s
  | S k' =>
      let? s' := decode_step hd buf s in
      decode_iter k' hd buf s'
  end.

(** The state [decode] is in after it has consumed [n] more bits and emitted
    the character [c]. *)
Definition emit (hd : node) (s : decode_state) (n : Z) (c : Z) : decode_state :=
  let cf' := set (remaining s) c (wrap32 (get 0 (remaining s) c - 1)) in
  mkDecode (cursor_at (bitpos (inCursor s) + n)) hd
           (set (out s) (outPos s) (Some c)) (outPos s + 1) cf'
           (if get 0 cf' c =? 0 then wrap32 (uniqueChars s - 1)
            else uniqueChars s).

(** An array after the cells from offset [pos] on have been overwritten with
    [xs], one after the other. *)
Fixpoint fill {A : Type} (l : list A) (pos : Z) (xs : list A) : list A :=
  match xs with
  | [] => l
  | x :: rest => fill (set l pos x) (pos + 1) rest
  end.

(** The output buffer after the characters [syms] have been written from
    offset [pos] on. *)
Definition write_out (o : list (option Z)) (pos : Z) (syms : list Z)
    : list (option Z) :=
  fill o pos (map Some syms).

(** The little-endian word at offset [i] of a buffer. *)
Definition word_at (buf : list Z) (i : Z) : Z :=
  get 0 buf i + 256 * get 0 buf (i + 1) + 65536 * get 0 buf (i + 2)
  + 16777216 * get 0 buf (i + 3).

(** The maximum as the loops of the codec keep it. *)
Definition run_max (mf : Z) (ws : list Z) : Z :=
  fold_left (fun m w => if w >? m then w else m) ws mf.

(** [m] is the largest entry of the table [cf]. *)
Definition is_max (cf : list Z) (m : Z) : Prop :=
  (forall c, 0 <= c < 256 -> get 0 cf c <= m) /\
  (exists c, 0 <= c < 256 /\ m = get 0 cf c).

(** The 256 words of the header of an encoded buffer. *)
Definition header_words (buf : list Z) : list Z :=
  map (fun c => word_at buf (4 * c)) (map Z.of_nat (seq 0 256)).

(** The buffer [huffman_encode] returns, the empty buffer when it has no
    defined result. *)
Definition encoded (Q : priority_queue) (codes0 : list code) (b : list Z)
    : list Z :=
  match huffman_encode Q codes0 b with
  | Some (enc, _) => enc
  | None => []
  end.

(** Inputs given by runs: [(c, n)] stands for [n] copies of the byte [c]. *)
Definition blocks (spec : list (Z * Z)) : list Z :=
  flat_map (fun cn => repeat (fst cn) (Z.to_nat (snd cn))) spec.

Definition spec_count (spec : list (Z * Z)) (c : Z) : Z :=
  sum_list (map (fun cn => if fst cn =? c then snd cn else 0) spec).

Definition spec_table (spec : list (Z * Z)) : list Z :=
  map (spec_count spec) (map Z.of_nat (seq 0 256)).

(** An input of 2^32 - 2 bytes in which every byte value occurs 2^24 times,
    but for the byte 0, which occurs twice less. *)
Definition uniform_4G : list (Z * Z) :=
  (0, 16777214) :: map (fun n => (Z.of_nat n, 16777216)) (seq 1 255).

(** An input of 9227465 bytes over 34 byte values whose frequencies are the
    Fibonacci numbers. *)
Definition fibonacci_runs : list (Z * Z) :=
  combine (map Z.of_nat (seq 0 34))
    [1; 1; 1; 2; 3; 5; 8; 13; 21; 34; 55; 89; 144; 233; 377; 610; 987; 1597;
     2584; 4181; 6765; 10946; 17711; 28657; 46368; 75025; 121393; 196418;
     317811; 514229; 832040; 1346269; 2178309; 3524578].

(** ** Vocabulary of the sorter and of the tree *)

(** The elements of [l] whose key is [d], in the order they have in [l],
    and the stable distribution of [l] over the ten decimal digits. *)
Definition bucket (f : Z -> Z) (d : Z) (l : list Z) : list Z :=
  filter (fun c => f c =? d) l.

Definition by_digit (f : Z -> Z) (l : list Z) : list Z :=
  flat_map (fun d => bucket f d l) (map Z.of_nat (seq 0 10)).

(** The [character] member of a node, which is meaningful at a leaf. *)
Definition character (n : node) : Z :=
  match n with Leaf c _ => c | Internal _ _ _ => 0 end.

(** The order of the radix sorter after the digits below [m] have been
    sorted: ascending frequency modulo [m], equal keys by ascending byte
    value. *)
Definition key_lt (cf : list Z) (m : Z) (x y : Z) : Prop :=
  get 0 cf x mod m < get 0 cf y mod m \/
  (get 0 cf x mod m = get 0 cf y mod m /\ x < y).

(** The order on nodes: ascending count, equal counts by ascending
    character. *)
Definition leaf_lt (a b : node) : Prop :=
  count a < count b \/ (count a = count b /\ character a < character b).

Definition powers_of_ten : list Z :=
  [10; 100; 1000; 10000; 100000; 1000000; 10000000; 100000000; 1000000000].

(** The leaf nodes of a tree, left to right, and the sum of their counts. *)
Fixpoint leaf_nodes (t : node) : list node :=
  match t with
  | Leaf _ _ => [t]
  | Internal _ l r => leaf_nodes l ++ leaf_nodes r
  end.

Fixpoint weight (t : node) : Z :=
  match t with
  | Leaf _ n => n
  | Internal _ l r => weight l + weight r
  end.

(** Every internal node carries the [unsigned int] sum of the counts of its
    two children, as [build_node] computes it. *)
Fixpoint counted (t : node) : Prop :=
  match t with
  | Leaf _ _ => True
  | Internal n l r => n = wrap32 (count l + count r) /\ counted l /\ counted r
  end.

(** The order on nodes when counts are compared modulo [m]. *)
Definition leaf_lt_mod (m : Z) (a b : node) : Prop :=
  count a mod m < count b mod m \/
  (count a mod m = count b mod m /\ character a < character b).

(** * Array lemmas *)

Lemma length_set_nat {A} (l : list A) n v : length (set_nat l n v) = length l.
Proof.
  revert n; induction l as [|h t IH]; intros [|n]; simpl; auto.
Qed.

Lemma length_set {A} (l : list A) i v : length (set l i v) = length l.
Proof. unfold set. destruct (i <? 0); auto using length_set_nat. Qed.

Lemma nth_set_nat_eq {A} (d : A) l n v :
  (n < length l)%nat -> nth n (set_nat l n v) d = v.
Proof.
  revert n; induction l as [|h t IH]; intros [|n] H; simpl in *; try lia; auto.
  apply IH; lia.
Qed.

Lemma nth_set_nat_ne {A} (d : A) l n m v :
  n <> m -> nth m (set_nat l n v) d = nth m l d.
Proof.
  revert n m; induction l as [|h t IH]; intros [|n] [|m] H; simpl; auto; try lia.
Qed.

Lemma get_set_eq {A} (d : A) l i v :
  0 <= i < Z.of_nat (length l) -> get d (set l i v) i = v.
Proof.
  intros H. unfold get, set.
  destruct (Z.ltb_spec i 0); [lia|].
  apply nth_set_nat_eq. lia.
Qed.

Lemma get_set_ne {A} (d : A) l i j v :
  0 <= i -> 0 <= j -> i <> j -> get d (set l i v) j = get d l j.
Proof.
  intros Hi Hj H. unfold get, set.
  destruct (Z.ltb_spec i 0); [lia|].
  apply nth_set_nat_ne. lia.
Qed.

Lemma get_repeat {A} (d x : A) n i :
  0 <= i < Z.of_nat n -> get d (repeat x n) i = x.
Proof.
  intros H. unfold get. apply nth_repeat_lt. lia.
Qed.

Lemma wrap32_small x : 0 <= x < 4294967296 -> wrap32 x = x.
Proof. intros; unfold wrap32; apply Z.mod_small; lia. Qed.

Lemma wrap32_range x : 0 <= wrap32 x < 4294967296.
Proof. unfold wrap32; apply Z.mod_pos_bound; lia. Qed.

Lemma occ_nonneg c b : 0 <= occ c b.
Proof. induction b as [|x t IH]; simpl; [lia|]. destruct (x =? c); lia. Qed.

Lemma occ_le_length c b : occ c b <= Z.of_nat (length b).
Proof.
  induction b as [|x t IH]; simpl length; simpl occ; [lia|].
  destruct (x =? c); lia.
Qed.

Lemma occ_app c b1 b2 : occ c (b1 ++ b2) = occ c b1 + occ c b2.
Proof. induction b1 as [|x t IH]; simpl; [lia|]. rewrite IH; lia. Qed.

(** * Frequency counter: properties *)

Lemma count_loop_length b : forall cf mf,
  length (fst (count_loop b cf mf)) = length cf.
Proof.
  induction b as [|x t IH]; intros; simpl; auto.
  rewrite IH. apply length_set.
Qed.

(** The counters accumulate on top of whatever the table held. *)
Lemma count_loop_accumulates b : forall cf mf c,
  bytes b -> length cf = 256%nat -> 0 <= c < 256 ->
  wrap32 (get 0 (fst (count_loop b cf mf)) c) = wrap32 (get 0 cf c + occ c b).
Proof.
  induction b as [|x t IH]; intros cf mf c Hb Hl Hc; simpl.
  - f_equal; lia.
  - inversion Hb as [|? ? Hx Ht]; subst. red in Hx.
    rewrite IH by (auto; rewrite length_set; auto).
    destruct (Z.eqb_spec x c) as [->|Hne].
    + rewrite get_set_eq by lia.
      unfold wrap32. rewrite Zplus_mod_idemp_l. f_equal; lia.
    + rewrite get_set_ne by lia. f_equal; lia.
Qed.

Lemma count_loop_range b : forall cf mf c,
  bytes b -> length cf = 256%nat -> 0 <= c < 256 ->
  0 <= get 0 cf c < 4294967296 ->
  0 <= get 0 (fst (count_loop b cf mf)) c < 4294967296.
Proof.
  induction b as [|x t IH]; intros cf mf c Hb Hl Hc Hr; simpl; auto.
  inversion Hb as [|? ? Hx Ht]; subst. red in Hx.
  apply IH; auto; [rewrite length_set; auto|].
  destruct (Z.eq_dec x c) as [->|Hne].
  - rewrite get_set_eq by lia. apply wrap32_range.
  - rewrite get_set_ne by lia. auto.
Qed.

(** Without wrap-around the running maximum is the maximum of the table. *)
Lemma count_loop_exact b : forall cf mf,
  bytes b -> length cf = 256%nat ->
  (forall c, 0 <= c < 256 -> 0 <= get 0 cf c /\ get 0 cf c + occ c b < 4294967296) ->
  (forall c, 0 <= c < 256 -> get 0 cf c <= mf) ->
  (exists c, 0 <= c < 256 /\ get 0 cf c = mf) ->
  let r := count_loop b cf mf in
  (forall c, 0 <= c < 256 -> get 0 (fst r) c = get 0 cf c + occ c b) /\
  (forall c, 0 <= c < 256 -> get 0 (fst r) c <= snd r) /\
  (exists c, 0 <= c < 256 /\ get 0 (fst r) c = snd r).
Proof.
  induction b as [|x t IH]; intros cf mf Hb Hl Hr Hmax Hwit; simpl.
  - split; [|split]; auto. intros; lia.
  - inversion Hb as [|? ? Hx Ht]; subst. red in Hx.
    assert (Hocc : forall c, 0 <= occ c t) by (intros; apply occ_nonneg).
    assert (Hx1 : wrap32 (get 0 cf x + 1) = get 0 cf x + 1).
    { apply wrap32_small. generalize (Hr x Hx), (Hocc x). simpl.
      rewrite Z.eqb_refl. lia. }
    rewrite (get_set_eq 0 cf x) by lia. rewrite Hx1.
    set (cf' := set cf x (get 0 cf x + 1)).
    assert (Hget : forall c, 0 <= c < 256 ->
              get 0 cf' c = get 0 cf c + (if x =? c then 1 else 0)).
    { intros c Hc. unfold cf'. destruct (Z.eqb_spec x c) as [->|Hne].
      - rewrite get_set_eq by lia. lia.
      - rewrite get_set_ne by lia. lia. }
    set (mf' := if get 0 cf x + 1 >? mf then get 0 cf x + 1 else mf).
    destruct (IH cf' mf') as (H1 & H2 & H3); auto.
    + unfold cf'; rewrite length_set; auto.
    + intros c Hc. rewrite (Hget c Hc). generalize (Hr c Hc). simpl.
      destruct (x =? c); lia.
    + intros c Hc. rewrite (Hget c Hc). unfold mf'.
      generalize (Hmax c Hc).
      destruct (Z.gtb_spec (get 0 cf x + 1) mf); destruct (Z.eqb_spec x c); subst; lia.
    + unfold mf'. destruct (Z.gtb_spec (get 0 cf x + 1) mf).
      * exists x. split; auto. rewrite (Hget x Hx), Z.eqb_refl. lia.
      * destruct Hwit as (c & Hc & Hcm). exists c. split; auto.
        rewrite (Hget c Hc). destruct (Z.eqb_spec x c); subst; lia.
    + split; [|split]; auto.
      intros c Hc. rewrite (H1 c Hc), (Hget c Hc). lia.
Qed.

Lemma count_chars_fields b st :
  char_frequency (count_chars b st) = fst (count_loop b (char_frequency st) 0) /\
  max_freq (count_chars b st) = snd (count_loop b (char_frequency st) 0) /\
  codes (count_chars b st) = codes st.
Proof.
  unfold count_chars. destruct (count_loop b (char_frequency st) 0); auto.
Qed.

(** On a table of zeros, as a fresh codec has, the counters end up holding
    the occurrence counts and [max_freq] their maximum. *)
Lemma count_chars_fresh b st :
  bytes b -> length (char_frequency st) = 256%nat ->
  Z.of_nat (length b) < 4294967296 ->
  (forall c, 0 <= c < 256 -> get 0 (char_frequency st) c = 0) ->
  (forall c, 0 <= c < 256 -> get 0 (char_frequency (count_chars b st)) c = occ c b) /\
  (forall c, 0 <= c < 256 -> occ c b <= max_freq (count_chars b st)) /\
  (exists c, 0 <= c < 256 /\ max_freq (count_chars b st) = occ c b).
Proof.
  intros Hb Hl Hlen Hz.
  destruct (count_chars_fields b st) as (-> & -> & _).
  destruct (count_loop_exact b (char_frequency st) 0) as (H1 & H2 & H3); auto.
  - intros c Hc. rewrite (Hz c Hc). generalize (occ_le_length c b). lia.
  - intros c Hc. rewrite (Hz c Hc). lia.
  - exists 0. split; [lia|]. apply Hz; lia.
  - split; [|split].
    + intros c Hc. rewrite (H1 c Hc), (Hz c Hc). lia.
    + intros c Hc. rewrite <- (H2 c Hc), (H1 c Hc), (Hz c Hc). lia.
    + destruct H3 as (c & Hc & E). exists c. split; auto.
      rewrite <- E, (H1 c Hc), (Hz c Hc). lia.
Qed.

(** C8 (amended): [count_chars] resets [max_freq] but not the counters: the
    occurrences of the input are added, modulo 2^32, to whatever the table
    held on entry.  On the all-zero table of a freshly constructed codec the
    table ends up holding exactly the number of occurrences of every byte
    value and [max_freq] the largest of these numbers. *)
Theorem count_chars_counts (b : list Z) (st : huffman_codec) :
  bytes b ->
  length (char_frequency st) = 256%nat ->
  Z.of_nat (length b) < 4294967296 ->
  (forall c, 0 <= c < 256 -> 0 <= get 0 (char_frequency st) c < 4294967296) ->
  (forall c, 0 <= c < 256 ->
     get 0 (char_frequency (count_chars b st)) c
     = wrap32 (get 0 (char_frequency st) c + occ c b)) /\
  ((forall c, 0 <= c < 256 -> get 0 (char_frequency st) c = 0) ->
   (forall c, 0 <= c < 256 ->
      get 0 (char_frequency (count_chars b st)) c = occ c b) /\
   (forall c, 0 <= c < 256 -> occ c b <= max_freq (count_chars b st)) /\
   (exists c, 0 <= c < 256 /\ max_freq (count_chars b st) = occ c b)).
Proof.
  intros Hb Hl Hlen Hr. split.
  - intros c Hc. destruct (count_chars_fields b st) as (-> & _ & _).
    rewrite <- (count_loop_accumulates b _ 0 c Hb Hl Hc).
    symmetry. apply wrap32_small. apply count_loop_range; auto.
  - intros Hz. apply count_chars_fresh; auto.
Qed.

Lemma count_chars_counts_witness :
  get 0 (char_frequency (count_chars [65; 66; 65] (new_codec []))) 65 = 2 /\
  max_freq (count_chars [65; 66; 65] (new_codec [])) = 2.
Proof.
  assert (Hb : bytes [65; 66; 65]) by (repeat constructor; unfold is_byte; lia).
  assert (Hl : length (char_frequency (new_codec [])) = 256%nat) by reflexivity.
  assert (Hn : Z.of_nat (length [65; 66; 65]) < 4294967296) by (simpl; lia).
  assert (Hr : forall c, 0 <= c < 256 ->
            0 <= get 0 (char_frequency (new_codec [])) c < 4294967296).
  { intros c Hc. change (char_frequency (new_codec [])) with (repeat 0 256).
    rewrite get_repeat by lia. lia. }
  destruct (count_chars_counts [65; 66; 65] (new_codec []) Hb Hl Hn Hr) as [_ H].
  split; [|reflexivity].
  destruct H as (H1 & _).
  - intros c Hc. change (char_frequency (new_codec [])) with (repeat 0 256).
    apply get_repeat. lia.
  - rewrite H1 by lia. reflexivity.
Defined.

(** C8 (as stated, refuted): counting a second buffer on the same codec
    keeps the counts of the first one. *)
Lemma count_chars_keeps_prior_counts :
  let st := count_chars [65] (new_codec []) in
  get 0 (char_frequency (count_chars [66] st)) 65 = 1 /\
  occ 65 [66] = 0 /\
  get 0 (char_frequency (count_chars [66] st)) 65 <> occ 65 [66].
Proof. vm_compute. repeat split; congruence. Qed.

(** * Tree builder: the choice between the two sources *)

Lemma pq_nonempty_top (Q : priority_queue) (q : pq_t Q) :
  pq_elems Q q <> [] ->
  pq_empty Q q = false /\
  exists top, pq_top Q q = Some top /\
    Permutation (pq_elems Q q) (top :: pq_elems Q (pq_pop Q q)) /\
    forall y, In y (pq_elems Q q) -> count top <= count y.
Proof.
  intros Hne. split.
  - destruct (pq_empty Q q) eqn:E; auto.
    apply pq_empty_spec in E. contradiction.
  - apply pq_top_spec, Hne.
Qed.

(** C3 (amended): [get_min_node] takes the next unread leaf only when the
    queue is empty or the count of the leaf is strictly smaller than the
    least count in the queue.  Otherwise, on a tie as well as when the leaf
    has the larger count, a queued node [top] of least count is popped and
    returned and the leaf stays unread. *)
Theorem get_min_node_tie (Q : priority_queue) (lf : node) (rest : list node)
    (q : pq_t Q) :
  (pq_elems Q q = [] ->
     get_min_node Q (lf :: rest) q = Some (lf, rest, q)) /\
  (pq_elems Q q <> [] ->
     exists top,
       In top (pq_elems Q q) /\
       (forall y, In y (pq_elems Q q) -> count top <= count y) /\
       (count lf < count top ->
          get_min_node Q (lf :: rest) q = Some (lf, rest, q)) /\
       (count lf = count top ->
          get_min_node Q (lf :: rest) q = Some (top, lf :: rest, pq_pop Q q)) /\
       (count top < count lf ->
          get_min_node Q (lf :: rest) q = Some (top, lf :: rest, pq_pop Q q))) /\
  (forall x q1,
     get_min_node Q (lf :: rest) q = Some (x, rest, q1) ->
     x = lf /\ q1 = q /\
     (pq_elems Q q = [] \/
      forall y, In y (pq_elems Q q) -> count lf < count y)).
Proof.
  assert (Hcase : pq_elems Q q <> [] ->
            exists top,
              In top (pq_elems Q q) /\
              (forall y, In y (pq_elems Q q) -> count top <= count y) /\
              (count lf < count top ->
                 get_min_node Q (lf :: rest) q = Some (lf, rest, q)) /\
              (count top <= count lf ->
                 get_min_node Q (lf :: rest) q
                 = Some (top, lf :: rest, pq_pop Q q))).
  { intros Hne.
    destruct (pq_nonempty_top Q q Hne) as (He & top & Ht & Hp & Hm).
    exists top. split; [|split; [exact Hm|]].
    { apply (Permutation_in top (Permutation_sym Hp)). left; reflexivity. }
    split; intros E; unfold get_min_node; rewrite He, Ht;
      destruct (Z.ltb_spec (count lf) (count top)); (reflexivity || lia). }
  assert (Hempty : pq_elems Q q = [] ->
            get_min_node Q (lf :: rest) q = Some (lf, rest, q)).
  { intros Hnil. unfold get_min_node.
    apply pq_empty_spec in Hnil. rewrite Hnil. reflexivity. }
  split; [exact Hempty|]. split.
  - intros Hne. destruct (Hcase Hne) as (top & Hin & Hm & Hlt & Hge).
    exists top. split; [exact Hin|]. split; [exact Hm|].
    split; [exact Hlt|]. split; intros E; apply Hge; lia.
  - intros x q1 Hg.
    destruct (pq_elems Q q) as [|e es] eqn:Eq.
    + rewrite (Hempty eq_refl) in Hg. injection Hg as <- <-.
      split; [reflexivity|]. split; [reflexivity|]. left; reflexivity.
    + destruct Hcase as (top & Hin & Hm & Hlt & Hge); [discriminate|].
      destruct (Z.lt_ge_cases (count lf) (count top)) as [Hl|Hl].
      * rewrite (Hlt Hl) in Hg. injection Hg as <- <-.
        split; [reflexivity|]. split; [reflexivity|].
        right. intros y Hy. specialize (Hm y Hy). lia.
      * rewrite (Hge Hl) in Hg. injection Hg as _ Hr _.
        exfalso. apply (f_equal (@length node)) in Hr.
        cbn [length] in Hr. lia.
Qed.

Lemma get_min_node_tie_witness :
  exists top,
    In top [Internal 2 (Leaf 97 1) (Leaf 98 1)] /\
    (count (Leaf 99 2) = count top ->
     get_min_node list_pq [Leaf 99 2; Leaf 0 LAST_NODE]
       [Internal 2 (Leaf 97 1) (Leaf 98 1)]
     = Some (top, [Leaf 99 2; Leaf 0 LAST_NODE], [])) /\
    (count top < count (Leaf 99 2) ->
     get_min_node list_pq [Leaf 99 2; Leaf 0 LAST_NODE]
       [Internal 2 (Leaf 97 1) (Leaf 98 1)]
     = Some (top, [Leaf 99 2; Leaf 0 LAST_NODE], [])).
Proof.
  destruct (get_min_node_tie list_pq (Leaf 99 2) [Leaf 0 LAST_NODE]
              [Internal 2 (Leaf 97 1) (Leaf 98 1)]) as (_ & H & _).
  destruct H as (top & Hin & _ & _ & Htie & Hgt).
  - simpl. discriminate.
  - exists top. split; [exact Hin|].
    destruct Hin as [<-|[]].
    split; intros E; [rewrite (Htie E)|rewrite (Hgt E)]; reflexivity.
Defined.

(** C3 (as stated, refuted): for the input "abcc" the first merge queues an
    internal node of count 2 while the next unread leaf, 'c', has count 2 as
    well; [get_min_node] returns the internal node, which becomes the left
    child of the root. *)
Lemma get_min_node_tie_takes_internal :
  get_min_node list_pq [Leaf 99 2; Leaf 0 LAST_NODE]
    [Internal 2 (Leaf 97 1) (Leaf 98 1)]
  = Some (Internal 2 (Leaf 97 1) (Leaf 98 1), [Leaf 99 2; Leaf 0 LAST_NODE], []) /\
  option_map head
    (huff_tree list_pq (count_chars [97; 98; 99; 99] (new_codec [])))
  = Some (Some (Internal 4 (Internal 2 (Leaf 97 1) (Leaf 98 1)) (Leaf 99 2))).
Proof. split; vm_compute; reflexivity. Qed.

(** * Radix sorter at a power of ten *)

(** C4 (code defect): ten 'a' and one 'b' give [max_freq = 10], for which
    [ceil(log10(max_freq))] is 1: only the units digit is sorted, so the
    leaf of count 10 comes before the leaf of count 1. *)
Theorem sort_chars_power_of_ten :
  let st := count_chars [97; 97; 97; 97; 97; 97; 97; 97; 97; 97; 98]
              (new_codec []) in
  max_freq st = 10 /\
  ceil_log10 (max_freq st) = 1 /\
  sorted_leaf_nodes (sort_chars st) = [Leaf 97 10; Leaf 98 1; Leaf 0 LAST_NODE].
Proof. vm_compute. auto. Qed.

(** * Bit-level lemmas *)

Lemma wrap8_bits_low x j : 0 <= j < 8 -> Z.testbit (wrap8 x) j = Z.testbit x j.
Proof.
  intros H. unfold wrap8. change 256 with (2 ^ 8).
  apply Z.mod_pow2_bits_low. lia.
Qed.

Lemma wrap8_bits_high x j : 8 <= j -> Z.testbit (wrap8 x) j = false.
Proof.
  intros H. unfold wrap8. change 256 with (2 ^ 8).
  apply Z.mod_pow2_bits_high. lia.
Qed.

Lemma wrap8_range x : 0 <= wrap8 x < 256.
Proof. unfold wrap8. apply Z.mod_pos_bound. lia. Qed.

Lemma wrap32_bits_low x j : 0 <= j < 32 -> Z.testbit (wrap32 x) j = Z.testbit x j.
Proof.
  intros H. unfold wrap32. change 4294967296 with (2 ^ 32).
  apply Z.mod_pow2_bits_low. lia.
Qed.

Lemma wrap32_bits_high x j : 32 <= j -> Z.testbit (wrap32 x) j = false.
Proof.
  intros H. unfold wrap32. change 4294967296 with (2 ^ 32).
  apply Z.mod_pow2_bits_high. lia.
Qed.

Lemma wrap_int_mod x : wrap_int x mod 4294967296 = x mod 4294967296.
Proof.
  unfold wrap_int. rewrite Zminus_mod_idemp_l. f_equal. lia.
Qed.

Lemma wrap_int_bits_low x j : 0 <= j < 32 -> Z.testbit (wrap_int x) j = Z.testbit x j.
Proof.
  intros H.
  rewrite <- (wrap32_bits_low (wrap_int x)) by lia.
  rewrite <- (wrap32_bits_low x) by lia.
  unfold wrap32. rewrite wrap_int_mod. reflexivity.
Qed.

Lemma wrap_int_small x : -2147483648 <= x < 2147483648 -> wrap_int x = x.
Proof. intros H. unfold wrap_int. rewrite Z.mod_small; lia. Qed.

Lemma wrap_int_range x : -2147483648 <= wrap_int x < 2147483648.
Proof.
  unfold wrap_int.
  generalize (Z.mod_pos_bound (x + 2147483648) 4294967296). lia.
Qed.

(** The mask [(1 << d) - 1] computed on [int], including [d = 31] where the
    shift yields the most negative value and the subtraction wraps. *)
Lemma int_mask d : 0 <= d <= 31 ->
  wrap_int (wrap_int (Z.shiftl 1 d) - 1) = Z.ones d.
Proof.
  intros H. rewrite Z.ones_equiv, Z.shiftl_1_l.
  destruct (Z.eq_dec d 31) as [->|Hd].
  - reflexivity.
  - assert (2 ^ d <= 2 ^ 30) by (apply Z.pow_le_mono_r; lia).
    assert (0 < 2 ^ d) by (apply Z.pow_pos_nonneg; lia).
    change (2 ^ 30) with 1073741824 in *.
    rewrite (wrap_int_small (2 ^ d)) by lia.
    rewrite wrap_int_small by lia. lia.
Qed.

Lemma testbit_above x n j : 0 <= x < 2 ^ n -> 0 <= n <= j -> Z.testbit x j = false.
Proof.
  intros Hx Hj. rewrite <- (Z.mod_small x (2 ^ n)) by lia.
  apply Z.mod_pow2_bits_high. lia.
Qed.

Lemma load_in {A} (d : A) (buf : list A) i :
  0 <= i < Z.of_nat (length buf) -> load buf i = Some (get d buf i).
Proof.
  intros H. unfold load, get.
  destruct (Z.leb_spec 0 i); [|lia].
  destruct (Z.ltb_spec i (Z.of_nat (length buf))); [|lia]. simpl.
  apply nth_error_nth'. lia.
Qed.

Lemma store_in {A} (buf : list A) i v :
  0 <= i < Z.of_nat (length buf) -> store buf i v = Some (set buf i v).
Proof.
  intros H. unfold store.
  destruct (Z.leb_spec 0 i); [|lia].
  destruct (Z.ltb_spec i (Z.of_nat (length buf))); [|lia]. reflexivity.
Qed.

Lemma getbit_set buf i v q :
  0 <= i < Z.of_nat (length buf) -> 0 <= q ->
  getbit (set buf i v) q =
  if q / 8 =? i then Z.testbit v (7 - q mod 8) else getbit buf q.
Proof.
  intros Hi Hq. unfold getbit.
  assert (0 <= q / 8) by (apply Z.div_pos; lia).
  destruct (Z.eqb_spec (q / 8) i) as [->|Hne].
  - rewrite get_set_eq by lia. reflexivity.
  - rewrite get_set_ne by lia. reflexivity.
Qed.

Lemma bytes_set buf i v : bytes buf -> is_byte v -> bytes (set buf i v).
Proof.
  unfold set. destruct (i <? 0); auto.
  generalize (Z.to_nat i) as n. intros n Hb Hv. revert n.
  induction Hb as [|x t Hx Ht IH]; intros [|n]; simpl; constructor; auto.
  apply IH.
Qed.

Lemma cursor_at_bitpos c : valid_cursor c -> cursor_at (bitpos c) = c.
Proof.
  destruct c as [i k]. unfold valid_cursor, cursor_at, bitpos. simpl.
  intros [Hi Hk]. f_equal.
  - symmetry. apply (Z.div_unique (8 * i + k) 8 i k); lia.
  - symmetry. apply (Z.mod_unique (8 * i + k) 8 i k); lia.
Qed.

Lemma cursor_at_split i k : 0 <= k < 8 -> cursor_at (8 * i + k) = mkCursor i k.
Proof.
  intros Hk. unfold cursor_at. f_equal.
  - symmetry. apply (Z.div_unique (8 * i + k) 8 i k); lia.
  - symmetry. apply (Z.mod_unique (8 * i + k) 8 i k); lia.
Qed.

Lemma divmod8 q i r : 0 <= r < 8 -> q = 8 * i + r -> q / 8 = i /\ q mod 8 = r.
Proof.
  intros Hr ->. split.
  - symmetry. apply (Z.div_unique (8 * i + r) 8 i r); lia.
  - symmetry. apply (Z.mod_unique (8 * i + r) 8 i r); lia.
Qed.

Lemma bitWrite_loop_zero fuel value buf cursor :
  bitWrite_loop fuel 0 value buf cursor = Some (buf, cursor).
Proof. destruct fuel; reflexivity. Qed.

Lemma bitWrite_loop_spec : forall fuel bits value buf cursor,
  (Z.to_nat bits <= fuel)%nat ->
  0 <= bits <= 32 -> valid_cursor cursor -> bytes buf ->
  bitpos cursor + bits <= 8 * Z.of_nat (length buf) ->
  exists buf',
    bitWrite_loop fuel bits value buf cursor
      = Some (buf', cursor_at (bitpos cursor + bits)) /\
    length buf' = length buf /\ bytes buf' /\
    (forall q, bitpos cursor <= q ->
       getbit buf' q =
       getbit buf q ||
       ((q <? bitpos cursor + bits)
        && Z.testbit value (bitpos cursor + bits - 1 - q))) /\
    (0 <= value < 2 ^ bits ->
     forall q, 0 <= q < bitpos cursor -> getbit buf' q = getbit buf q).
Proof.
  induction fuel as [|fuel IH]; intros bits value buf [i k] Hfuel Hbits Hc Hb Hfit;
    unfold valid_cursor, bitpos in *; cbn [bytePtr curBit] in *;
    destruct Hc as [Hi Hk].
  - assert (bits = 0) by lia. subst bits. rewrite bitWrite_loop_zero.
    exists buf. rewrite Z.add_0_r, cursor_at_split by lia.
    repeat split; auto.
    intros q Hq. destruct (Z.ltb_spec q (8 * i + k)); [lia|].
    cbn [andb]. rewrite orb_false_r. reflexivity.
  - destruct (Z.eq_dec bits 0) as [->|Hnz].
    { rewrite bitWrite_loop_zero.
      exists buf. rewrite Z.add_0_r, cursor_at_split by lia.
      repeat split; auto.
      intros q Hq. destruct (Z.ltb_spec q (8 * i + k)); [lia|].
      cbn [andb]. rewrite orb_false_r. reflexivity. }
    cbn [bitWrite_loop]. destruct (Z.gtb_spec bits 0) as [Hpos|Hz]; [|lia].
    cbn [bytePtr curBit].
    assert (Hin : 0 <= i < Z.of_nat (length buf)) by lia.
    rewrite (load_in 0) by exact Hin.
    destruct (Z.ltb_spec bits (8 - k)) as [Hlt|Hge].
    + (* the bits fit in the current byte *)
      rewrite store_in by exact Hin.
      assert (Hcb : wrap8 (k + bits) = k + bits)
        by (unfold wrap8; apply Z.mod_small; lia).
      rewrite Hcb. destruct (Z.geb_spec (k + bits) 8); [lia|].
      rewrite bitWrite_loop_zero.
      eexists; split;
         [ replace (8 * i + k + bits) with (8 * i + (k + bits)) by lia;
           rewrite cursor_at_split by lia; reflexivity |].
      split; [apply length_set|].
      split; [apply bytes_set; [auto|apply wrap8_range]|].
      split.
      * intros q Hq. rewrite getbit_set by lia.
        destruct (Z.eqb_spec (q / 8) i) as [E|E].
        -- pose proof (Z.div_mod q 8 ltac:(lia)) as Hdm.
           pose proof (Z.mod_pos_bound q 8 ltac:(lia)) as Hr.
           rewrite E in Hdm.
           rewrite wrap8_bits_low by lia.
           rewrite Z.lor_spec. unfold getbit. rewrite E. f_equal.
           rewrite wrap_int_bits_low by lia.
           destruct (Z.ltb_spec q (8 * i + k + bits)).
           ++ rewrite Z.shiftl_spec by lia. cbn [andb]. f_equal. lia.
           ++ cbn [andb]. apply Z.shiftl_spec_low. lia.
        -- assert (8 * i + 8 <= q).
           { assert (i < q / 8).
             { assert (i <= q / 8) by (apply Z.div_le_lower_bound; lia). lia. }
             pose proof (Z.div_mod q 8 ltac:(lia)).
             pose proof (Z.mod_pos_bound q 8 ltac:(lia)). lia. }
           destruct (Z.ltb_spec q (8 * i + k + bits)); [lia|].
           cbn [andb]. rewrite orb_false_r. reflexivity.
      * intros Hv q Hq. rewrite getbit_set by lia.
        destruct (Z.eqb_spec (q / 8) i) as [E|E]; [|reflexivity].
        pose proof (Z.div_mod q 8 ltac:(lia)) as Hdm.
        pose proof (Z.mod_pos_bound q 8 ltac:(lia)) as Hr.
        rewrite E in Hdm.
        rewrite wrap8_bits_low by lia.
        rewrite Z.lor_spec. unfold getbit. rewrite E.
        rewrite wrap_int_bits_low by lia.
        rewrite Z.shiftl_spec by lia.
        rewrite (testbit_above value bits) by lia.
        apply orb_false_r.
    + (* the current byte is filled and the loop goes on *)
      destruct (Z.leb_spec 32 (bits - (8 - k))); [lia|].
      rewrite store_in by exact Hin.
      set (d := bits - (8 - k)).
      assert (Hd : 0 <= d <= 31) by (unfold d; lia).
      rewrite int_mask by exact Hd.
      rewrite Z.land_ones by lia.
      assert (Hm : 0 <= value mod 2 ^ d < 2 ^ d)
        by (apply Z.mod_pos_bound, Z.pow_pos_nonneg; lia).
      set (buf1 := set buf i (wrap8 (Z.lor (get 0 buf i) (Z.shiftr value d)))).
      assert (Hl1 : length buf1 = length buf) by apply length_set.
      destruct (IH d (value mod 2 ^ d) buf1 (mkCursor (i + 1) 0))
        as (buf' & Hrun & Hlen & Hby & Hhi & Hlo); cbn [bytePtr curBit].
      { unfold d; lia. }
      { lia. }
      { lia. }
      { apply bytes_set; [auto|apply wrap8_range]. }
      { rewrite Hl1. unfold d. lia. }
      cbn [bytePtr curBit] in *.
      exists buf'. split.
      { rewrite Hrun. do 3 f_equal. unfold d. lia. }
      split; [congruence|]. split; [exact Hby|].
      assert (Hset : forall q, 0 <= q ->
                getbit buf1 q =
                if q / 8 =? i
                then getbit buf q || Z.testbit value (7 - q mod 8 + d)
                else getbit buf q).
      { intros q Hq. unfold buf1. rewrite getbit_set by lia.
        destruct (Z.eqb_spec (q / 8) i) as [E|E]; [|reflexivity].
        pose proof (Z.mod_pos_bound q 8 ltac:(lia)) as Hr.
        rewrite wrap8_bits_low by lia.
        rewrite Z.lor_spec, Z.shiftr_spec by lia.
        unfold getbit. rewrite E. reflexivity. }
      split.
      * intros q Hq.
        pose proof (Z.div_mod q 8 ltac:(lia)) as Hdm.
        pose proof (Z.mod_pos_bound q 8 ltac:(lia)) as Hr.
        destruct (Z.lt_ge_cases q (8 * (i + 1))) as [Hql|Hqh].
        -- rewrite Hlo by (auto; lia). rewrite Hset by lia.
           assert (E : q / 8 = i).
           { symmetry. apply (Z.div_unique q 8 i (q - 8 * i)); lia. }
           rewrite E in Hdm. rewrite E, Z.eqb_refl.
           destruct (Z.ltb_spec q (8 * i + k + bits)); [|unfold d in *; lia].
           cbn [andb]. do 2 f_equal. unfold d. lia.
        -- rewrite Hhi by lia. rewrite Hset by lia.
           destruct (Z.eqb_spec (q / 8) i) as [E|E].
           { rewrite E in Hdm. lia. }
           f_equal.
           replace (8 * (i + 1) + 0 + d) with (8 * i + k + bits) by (unfold d; lia).
           destruct (Z.ltb_spec q (8 * i + k + bits)); [|reflexivity].
           cbn [andb]. apply Z.mod_pow2_bits_low. unfold d. lia.
      * intros Hv q Hq. rewrite Hlo by (auto; lia). rewrite Hset by lia.
        destruct (Z.eqb_spec (q / 8) i) as [E|E]; [|reflexivity].
        pose proof (Z.div_mod q 8 ltac:(lia)) as Hdm.
        pose proof (Z.mod_pos_bound q 8 ltac:(lia)) as Hr.
        rewrite E in Hdm.
        rewrite (testbit_above value bits) by (unfold d; lia).
        apply orb_false_r.
Qed.

Lemma bitRead_loop_zero fuel data buf cursor :
  bitRead_loop fuel 0 data buf cursor = Some (data, cursor).
Proof. destruct fuel; reflexivity. Qed.

Lemma get_bits_spec byte i k m j :
  0 <= k <= 7 -> 0 <= m -> k + m <= 8 -> 0 <= j ->
  Z.testbit (get_bits byte (mkCursor i k) m) j =
  (j <? m) && Z.testbit byte (j + (8 - k - m)).
Proof.
  intros Hk Hm Hkm Hj. unfold get_bits. cbn [curBit].
  rewrite int_mask by lia.
  destruct (Z.lt_ge_cases j 8) as [Hlo|Hhi].
  - rewrite wrap8_bits_low by lia.
    rewrite Z.land_spec, Z.shiftr_spec by lia.
    rewrite wrap8_bits_low by lia.
    rewrite Z.testbit_ones_nonneg by lia.
    apply andb_comm.
  - rewrite wrap8_bits_high by lia.
    destruct (Z.ltb_spec j m); [lia|]. reflexivity.
Qed.

Lemma get_bits_nonneg byte c m : 0 <= get_bits byte c m.
Proof. unfold get_bits. apply wrap8_range. Qed.

Lemma bitRead_loop_spec : forall fuel bits data buf cursor,
  (Z.to_nat bits <= fuel)%nat ->
  0 <= bits <= 32 -> valid_cursor cursor -> bytes buf ->
  bitpos cursor + bits <= 8 * Z.of_nat (length buf) ->
  0 <= data -> (forall j, 32 - bits <= j -> Z.testbit data j = false) ->
  exists r,
    bitRead_loop fuel bits data buf cursor
      = Some (r, cursor_at (bitpos cursor + bits)) /\
    0 <= r /\
    forall j, 0 <= j ->
      Z.testbit r j =
      if j <? bits then getbit buf (bitpos cursor + bits - 1 - j)
      else Z.testbit data (j - bits).
Proof.
  induction fuel as [|fuel IH];
    intros bits data buf [i k] Hfuel Hbits Hc Hb Hfit Hd0 Hdhi;
    unfold valid_cursor, bitpos in *; cbn [bytePtr curBit] in *;
    destruct Hc as [Hi Hk].
  - assert (bits = 0) by lia. subst bits. rewrite bitRead_loop_zero.
    exists data. rewrite Z.add_0_r, cursor_at_split by lia.
    repeat split; auto.
    intros j Hj. destruct (Z.ltb_spec j 0); [lia|]. f_equal; lia.
  - destruct (Z.eq_dec bits 0) as [->|Hnz].
    { rewrite bitRead_loop_zero.
      exists data. rewrite Z.add_0_r, cursor_at_split by lia.
      repeat split; auto.
      intros j Hj. destruct (Z.ltb_spec j 0); [lia|]. f_equal; lia. }
    cbn [bitRead_loop]. destruct (Z.gtb_spec bits 0) as [Hpos|Hz]; [|lia].
    cbn [bytePtr curBit].
    assert (Hin : 0 <= i < Z.of_nat (length buf)) by lia.
    rewrite (load_in 0) by exact Hin.
    destruct (Z.gtb_spec (8 - k) bits) as [Hlt|Hge].
    + assert (Hcb : wrap8 (k + bits) = k + bits)
        by (unfold wrap8; apply Z.mod_small; lia).
      rewrite Hcb, bitRead_loop_zero.
      eexists. split.
      { replace (8 * i + k + bits) with (8 * i + (k + bits)) by lia.
        rewrite cursor_at_split by lia. reflexivity. }
      split.
      { apply Z.lor_nonneg. split; [apply wrap32_range|apply get_bits_nonneg]. }
      intros j Hj. rewrite Z.lor_spec, get_bits_spec by lia.
      destruct (Z.ltb_spec j bits) as [Hjl|Hjh]; cbn [andb].
      * rewrite wrap32_bits_low by lia. rewrite Z.shiftl_spec_low by lia.
        cbn [orb]. unfold getbit.
        destruct (divmod8 (8 * i + k + bits - 1 - j) i (k + bits - 1 - j))
          as [-> ->]; [lia|lia|].
        f_equal. lia.
      * rewrite orb_false_r.
        destruct (Z.lt_ge_cases j 32).
        -- rewrite wrap32_bits_low by lia. apply Z.shiftl_spec. lia.
        -- rewrite wrap32_bits_high by lia. symmetry. apply Hdhi. lia.
    + set (m := 8 - k) in *.
      set (data' := Z.lor (wrap32 (Z.shiftl data m)) (get_bits (get 0 buf i) (mkCursor i k) m)).
      assert (Hbit' : forall t, 0 <= t ->
                Z.testbit data' t =
                if t <? m then Z.testbit (get 0 buf i) t
                else Z.testbit data (t - m)).
      { intros t Ht. unfold data'. rewrite Z.lor_spec, get_bits_spec by (unfold m; lia).
        destruct (Z.ltb_spec t m); cbn [andb].
        - rewrite wrap32_bits_low by (unfold m in *; lia).
          rewrite Z.shiftl_spec_low by lia. cbn [orb]. f_equal. unfold m. lia.
        - rewrite orb_false_r.
          destruct (Z.lt_ge_cases t 32).
          + rewrite wrap32_bits_low by lia. apply Z.shiftl_spec. lia.
          + rewrite wrap32_bits_high by lia. symmetry. apply Hdhi. unfold m in *. lia. }
      destruct (IH (bits - m) data' buf (mkCursor (i + 1) 0))
        as (r & Hrun & Hr0 & Hrb); cbn [bytePtr curBit].
      { unfold m; lia. }
      { unfold m; lia. }
      { lia. }
      { exact Hb. }
      { unfold m; lia. }
      { apply Z.lor_nonneg. split; [apply wrap32_range|apply get_bits_nonneg]. }
      { intros j Hj. rewrite Hbit' by (unfold m in *; lia).
        destruct (Z.ltb_spec j m); [unfold m in *; lia|].
        apply Hdhi. lia. }
      cbn [bytePtr curBit] in *.
      exists r. split.
      { rewrite Hrun. do 3 f_equal. unfold m. lia. }
      split; [exact Hr0|].
      intros j Hj. rewrite Hrb by exact Hj.
      destruct (Z.ltb_spec j (bits - m)) as [H1|H1].
      * destruct (Z.ltb_spec j bits); [|unfold m in *; lia].
        f_equal. unfold m. lia.
      * rewrite Hbit' by lia.
        destruct (Z.ltb_spec (j - (bits - m)) m) as [H2|H2].
        -- destruct (Z.ltb_spec j bits); [|lia].
           unfold getbit.
           destruct (divmod8 (8 * i + k + bits - 1 - j) i (7 - (j - (bits - m))))
             as [-> ->]; [lia|unfold m; lia|].
           f_equal. lia.
        -- destruct (Z.ltb_spec j bits); [lia|]. f_equal. lia.
Qed.

Lemma bytes_repeat_zero n : bytes (repeat 0 n).
Proof. apply Forall_forall. intros x Hx. apply repeat_spec in Hx. subst. red. lia. Qed.

Lemma getbit_repeat_zero n q : getbit (repeat 0 n) q = false.
Proof. unfold getbit, get. rewrite nth_repeat. apply Z.testbit_0_l. Qed.

Lemma bitpos_cursor_at p : 0 <= p ->
  valid_cursor (cursor_at p) /\ bitpos (cursor_at p) = p.
Proof.
  intros Hp. unfold valid_cursor, bitpos, cursor_at. cbn [bytePtr curBit].
  pose proof (Z.div_mod p 8 ltac:(lia)).
  pose proof (Z.mod_pos_bound p 8 ltac:(lia)).
  assert (0 <= p / 8) by (apply Z.div_pos; lia).
  lia.
Qed.

(** C6: in a zeroed buffer that holds the [n] bits, [bitWrite] of [v] at any
    cursor followed by [bitRead] of [n] bits at the same cursor returns [v];
    both leave their cursor exactly [n] bits further, and [n = 0] changes
    neither the buffer nor the cursor. *)
Theorem bitWrite_bitRead_roundtrip (n v : Z) (len : nat) (c : bit_cursor) :
  0 <= n <= 32 -> 0 <= v < 2 ^ n -> valid_cursor c ->
  bitpos c + n <= 8 * Z.of_nat len ->
  exists buf' c',
    bitWrite n (wrap_int v) (repeat 0 len) c = Some (buf', c') /\
    bitRead n buf' c = Some (v, c') /\
    valid_cursor c' /\ bitpos c' = bitpos c + n /\
    (n = 0 -> buf' = repeat 0 len /\ c' = c).
Proof.
  intros Hn Hv Hc Hfit.
  destruct (bitWrite_loop_spec (Z.to_nat n) n (wrap_int v) (repeat 0 len) c)
    as (buf' & Hw & Hlen & Hby & Hhi & _); auto.
  { apply bytes_repeat_zero. }
  { rewrite repeat_length. exact Hfit. }
  destruct (bitRead_loop_spec (Z.to_nat n) n 0 buf' c)
    as (r & Hr & Hr0 & Hrb); auto; try lia.
  { rewrite Hlen, repeat_length. exact Hfit. }
  { intros j _. apply Z.testbit_0_l. }
  assert (Hp : 0 <= bitpos c) by (destruct Hc; unfold bitpos; lia).
  exists buf', (cursor_at (bitpos c + n)).
  split; [exact Hw|]. split.
  - unfold bitRead. rewrite Hr. do 2 f_equal.
    apply Z.bits_inj'. intros j Hj. rewrite (Hrb j Hj).
    destruct (Z.ltb_spec j n) as [Hjl|Hjh].
    + rewrite Hhi by lia. rewrite getbit_repeat_zero.
      destruct (Z.ltb_spec (bitpos c + n - 1 - j) (bitpos c + n)); [|lia].
      cbn [orb andb].
      replace (bitpos c + n - 1 - (bitpos c + n - 1 - j)) with j by lia.
      apply wrap_int_bits_low. lia.
    + rewrite Z.testbit_0_l. symmetry. apply (testbit_above v n); lia.
  - destruct (bitpos_cursor_at (bitpos c + n)) as [H1 H2]; [lia|].
    split; [exact H1|]. split; [exact H2|].
    intros ->. unfold bitWrite in Hw. rewrite bitWrite_loop_zero in Hw.
    injection Hw as <- <-. split; reflexivity.
Qed.

Lemma bitWrite_bitRead_roundtrip_witness :
  exists buf' c',
    bitWrite 12 (wrap_int 2748) (repeat 0 4) (mkCursor 1 5) = Some (buf', c') /\
    bitRead 12 buf' (mkCursor 1 5) = Some (2748, c') /\
    bitpos c' = 25.
Proof.
  destruct (bitWrite_bitRead_roundtrip 12 2748 4 (mkCursor 1 5))
    as (buf' & c' & Hw & Hr & _ & Hp & _).
  - lia.
  - split; [lia|reflexivity].
  - unfold valid_cursor; simpl; lia.
  - unfold bitpos; simpl; lia.
  - exists buf', c'. split; [exact Hw|]. split; [exact Hr|exact Hp].
Defined.

(** * Tree builder: termination and the leaves of the tree *)

Section TreeBuilderFacts.

Variable Q : priority_queue.

Lemma huff_loop_unfold pool leaves node_q :
  huff_loop Q pool leaves node_q =
  let? (lft, leaves1, q1) := get_min_node Q leaves node_q in
  match leaves1 with
  | [] => None
  | nxt :: _ =>
      if (count nxt =? LAST_NODE) && pq_empty Q q1 then Some lft
      else
        let? (rgt, leaves2, q2) := get_min_node Q leaves1 q1 in
        match pool with
        | O => None
        | S pool' =>
            huff_loop Q pool' leaves2 (pq_push Q (build_node lft rgt) q2)
        end
  end.
Proof. destruct pool; reflexivity. Qed.

Lemma get_min_node_ok r q :
  unread_ok r -> queued_ok Q q -> r ++ pq_elems Q q <> [] ->
  exists x r1 q1,
    get_min_node Q (r ++ [sentinel]) q = Some (x, r1 ++ [sentinel], q1) /\
    Permutation (r ++ pq_elems Q q) (x :: r1 ++ pq_elems Q q1) /\
    unread_ok r1 /\ queued_ok Q q1.
Proof.
  intros Hr Hq Hne. unfold get_min_node.
  destruct (pq_elems Q q) as [|e es] eqn:Eq.
  - (* empty queue: the next leaf *)
    assert (He : pq_empty Q q = true) by (apply pq_empty_spec; exact Eq).
    destruct r as [|x r1]; [rewrite app_nil_r in Hne; congruence|].
    cbn [app]. rewrite He. exists x, r1, q. rewrite Eq.
    split; [reflexivity|]. split; [apply Permutation_refl|].
    split; [inversion Hr; assumption|exact Hq].
  - destruct (pq_nonempty_top Q q) as (He & top & Ht & Hp & Hm);
      [rewrite Eq; discriminate|].
    assert (Hq1 : queued_ok Q (pq_pop Q q)).
    { unfold queued_ok in *. rewrite Hp in Hq. inversion Hq; assumption. }
    assert (Htop : count top <= LAST_NODE).
    { unfold queued_ok in Hq. rewrite Hp in Hq. inversion Hq; assumption. }
    rewrite <- Eq.
    destruct r as [|x r1]; cbn [app]; rewrite He, Ht.
    + destruct (Z.ltb_spec (count sentinel) (count top)) as [Hlt|Hge].
      { unfold sentinel in Hlt. cbn [count] in Hlt. lia. }
      exists top, [], (pq_pop Q q). cbn [app].
      split; [reflexivity|]. split; [exact Hp|]. split; [constructor|exact Hq1].
    + destruct (Z.ltb_spec (count x) (count top)) as [Hlt|Hge].
      * exists x, r1, q. split; [reflexivity|]. split; [apply Permutation_refl|].
        split; [inversion Hr; assumption|exact Hq].
      * exists top, (x :: r1), (pq_pop Q q). split; [reflexivity|]. split.
        -- change (Permutation ((x :: r1) ++ pq_elems Q q)
                     (top :: (x :: r1) ++ pq_elems Q (pq_pop Q q))).
           rewrite Hp. apply Permutation_sym, Permutation_middle.
        -- split; [exact Hr|exact Hq1].
Qed.

Lemma huff_loop_ok : forall pool r q,
  unread_ok r -> queued_ok Q q -> r ++ pq_elems Q q <> [] ->
  (length (r ++ pq_elems Q q) <= S pool)%nat ->
  exists t,
    huff_loop Q pool (r ++ [sentinel]) q = Some t /\
    Permutation (flat_map leaves_of (r ++ pq_elems Q q)) (leaves_of t).
Proof.
  induction pool as [|pool IH]; intros r q Hr Hq Hne Hlen;
    rewrite huff_loop_unfold;
    destruct (get_min_node_ok r q Hr Hq Hne) as (x & r1 & q1 & Hg & Hp & Hr1 & Hq1);
    rewrite Hg;
    pose proof (Permutation_length Hp) as Hl; cbn [length] in Hl.
  - (* a single pending node *)
    assert (Hz : r1 ++ pq_elems Q q1 = []).
    { destruct (r1 ++ pq_elems Q q1); [reflexivity|cbn [length] in Hl; lia]. }
    apply app_eq_nil in Hz. destruct Hz as [-> Hz]. cbn [app].
    apply pq_empty_spec in Hz as He. unfold sentinel at 1. cbn [count].
    rewrite Z.eqb_refl, He. cbn [andb].
    exists x. split; [reflexivity|].
    rewrite (Permutation_flat_map leaves_of Hp), Hz. cbn. rewrite app_nil_r.
    apply Permutation_refl.
  - assert (Hcase : r1 ++ pq_elems Q q1 = [] \/ r1 ++ pq_elems Q q1 <> [])
      by (destruct (r1 ++ pq_elems Q q1); [left; reflexivity|right; discriminate]).
    destruct Hcase as [Hz|Hnz].
    + apply app_eq_nil in Hz. destruct Hz as [-> Hz]. cbn [app].
      apply pq_empty_spec in Hz as He. unfold sentinel at 1. cbn [count].
      rewrite Z.eqb_refl, He. cbn [andb].
      exists x. split; [reflexivity|].
      rewrite (Permutation_flat_map leaves_of Hp), Hz. cbn. rewrite app_nil_r.
      apply Permutation_refl.
    + assert (Helse : match r1 ++ [sentinel] with
                      | [] => true
                      | nxt :: _ => (count nxt =? LAST_NODE) && pq_empty Q q1
                      end = false).
      { destruct r1 as [|y r1']; cbn [app].
        - destruct (pq_empty Q q1) eqn:He; [|apply andb_false_r].
          apply pq_empty_spec in He. cbn [app] in Hnz. contradiction.
        - inversion Hr1 as [|? ? Hy _]; subst.
          destruct (Z.eqb_spec (count y) LAST_NODE); [contradiction|reflexivity]. }
      destruct (get_min_node_ok r1 q1 Hr1 Hq1 Hnz)
        as (x2 & r2 & q2 & Hg2 & Hp2 & Hr2 & Hq2).
      destruct (r1 ++ [sentinel]) as [|nxt rest] eqn:El.
      { destruct r1; discriminate. }
      rewrite Helse, Hg2.
      set (b := build_node x x2).
      assert (Hpb : Permutation (r2 ++ pq_elems Q (pq_push Q b q2))
                      (b :: r2 ++ pq_elems Q q2)).
      { rewrite pq_push_spec. apply Permutation_sym, Permutation_middle. }
      destruct (IH r2 (pq_push Q b q2)) as (t & Ht & Hpt).
      * exact Hr2.
      * unfold queued_ok. rewrite pq_push_spec. constructor; [|exact Hq2].
        unfold b, build_node. cbn [count].
        generalize (wrap32_range (count x + count x2)). unfold LAST_NODE, UINT_MAX. lia.
      * intros Hnil. rewrite Hnil in Hpb. apply Permutation_nil in Hpb. discriminate.
      * rewrite (Permutation_length Hpb). cbn [length].
        pose proof (Permutation_length Hp2) as Hl2. cbn [length] in Hl2. lia.
      * exists t. split; [exact Ht|].
        rewrite <- Hpt. rewrite (Permutation_flat_map leaves_of Hp).
        rewrite (Permutation_flat_map leaves_of Hpb). cbn [flat_map].
        rewrite (Permutation_flat_map leaves_of Hp2). cbn [flat_map].
        unfold b, build_node. cbn [leaves_of]. rewrite <- app_assoc.
        apply Permutation_refl.
Qed.

End TreeBuilderFacts.

(** * Radix sorter: every pass permutes its input *)

Lemma dcount_nonneg f d l : 0 <= dcount f d l.
Proof. induction l as [|x t IH]; simpl; [lia|]. destruct (f x =? d); lia. Qed.

Lemma dcount_le_length f d l : dcount f d l <= Z.of_nat (length l).
Proof.
  induction l as [|x t IH]; cbn [dcount length]; [lia|].
  destruct (f x =? d); lia.
Qed.

Lemma dcount_total f l :
  (forall x, 0 <= f x < 10) ->
  dcount f 0 l + dcount f 1 l + dcount f 2 l + dcount f 3 l + dcount f 4 l
  + dcount f 5 l + dcount f 6 l + dcount f 7 l + dcount f 8 l + dcount f 9 l
  = Z.of_nat (length l).
Proof.
  intros Hf. induction l as [|x t IH]; cbn [dcount length]; [reflexivity|].
  specialize (Hf x).
  assert (E : (if f x =? 0 then 1 else 0) + (if f x =? 1 then 1 else 0)
            + (if f x =? 2 then 1 else 0) + (if f x =? 3 then 1 else 0)
            + (if f x =? 4 then 1 else 0) + (if f x =? 5 then 1 else 0)
            + (if f x =? 6 then 1 else 0) + (if f x =? 7 then 1 else 0)
            + (if f x =? 8 then 1 else 0) + (if f x =? 9 then 1 else 0) = 1).
  { assert (Hc : f x = 0 \/ f x = 1 \/ f x = 2 \/ f x = 3 \/ f x = 4 \/ f x = 5
                 \/ f x = 6 \/ f x = 7 \/ f x = 8 \/ f x = 9) by lia.
    repeat destruct Hc as [Hc|Hc]; rewrite Hc; reflexivity. }
  lia.
Qed.

Lemma digit_range cf div c : 0 <= digit cf div c < 10.
Proof. unfold digit. apply Z.mod_pos_bound. lia. Qed.

Lemma count_symbols_spec cf div : forall l sc,
  length sc = 10%nat ->
  (forall d, 0 <= d < 10 ->
     0 <= get 0 sc d /\ get 0 sc d + dcount (digit cf div) d l < 2147483648) ->
  length (count_symbols cf div l sc) = 10%nat /\
  forall d, 0 <= d < 10 ->
    get 0 (count_symbols cf div l sc) d = get 0 sc d + dcount (digit cf div) d l.
Proof.
  induction l as [|x t IH]; intros sc Hl Hr; cbn [count_symbols dcount].
  - split; [exact Hl|]. intros; lia.
  - pose proof (digit_range cf div x) as Hx.
    assert (Hw : wrap_int (get 0 sc (digit cf div x) + 1)
                 = get 0 sc (digit cf div x) + 1).
    { apply wrap_int_small. generalize (Hr _ Hx). cbn [dcount].
      rewrite Z.eqb_refl.
      generalize (dcount_nonneg (digit cf div) (digit cf div x) t). lia. }
    rewrite Hw.
    assert (Hget : forall d, 0 <= d < 10 ->
              get 0 (set sc (digit cf div x) (get 0 sc (digit cf div x) + 1)) d
              = get 0 sc d + (if digit cf div x =? d then 1 else 0)).
    { intros d Hd. destruct (Z.eqb_spec (digit cf div x) d) as [<-|Hne].
      - rewrite get_set_eq by lia. lia.
      - rewrite get_set_ne by lia. lia. }
    destruct (IH (set sc (digit cf div x) (get 0 sc (digit cf div x) + 1)))
      as [H1 H2].
    + rewrite length_set. exact Hl.
    + intros d Hd. rewrite (Hget d Hd). generalize (Hr d Hd). cbn [dcount].
      destruct (digit cf div x =? d); lia.
    + split; [exact H1|]. intros d Hd. rewrite (H2 d Hd), (Hget d Hd). lia.
Qed.

Lemma psum_nonneg sc : (forall d, 0 <= d < 10 -> 0 <= get 0 sc d) ->
  forall n, (n <= 10)%nat -> 0 <= psum sc n.
Proof.
  intros Hnn. induction n as [|n IHn]; intros Hn; cbn [psum]; [lia|].
  specialize (IHn ltac:(lia)). specialize (Hnn (Z.of_nat n) ltac:(lia)). lia.
Qed.

Lemma psum_mono sc : (forall d, 0 <= d < 10 -> 0 <= get 0 sc d) ->
  forall d e, (d <= e <= 10)%nat -> psum sc d <= psum sc e.
Proof.
  intros Hnn d e [Hde He]. induction e as [|e IH].
  - assert (d = 0%nat) by lia. subst. lia.
  - destruct (Nat.eq_dec d (S e)) as [->|Hne]; [lia|].
    cbn [psum]. specialize (IH ltac:(lia) ltac:(lia)).
    specialize (Hnn (Z.of_nat e) ltac:(lia)). lia.
Qed.

Lemma offsets_prefix sc (k : nat) :
  (k <= 9)%nat ->
  (forall d, 0 <= d < 10 -> 0 <= get 0 sc d) ->
  psum sc 10 < 2147483648 ->
  let o := fold_left
             (fun offsets i =>
                set offsets i
                  (wrap_int (get 0 offsets (i - 1) + get 0 sc (i - 1))))
             (map Z.of_nat (seq 1 k)) (repeat 0 10) in
  length o = 10%nat /\
  forall d, (d <= k)%nat -> get 0 o (Z.of_nat d) = psum sc d.
Proof.
  intros Hk Hnn Hsum. induction k as [|k IH].
  - cbn [seq map fold_left]. split; [reflexivity|].
    intros d Hd. assert (d = 0%nat) by lia. subst. reflexivity.
  - rewrite seq_S, map_app, fold_left_app. cbn [map fold_left].
    destruct (IH ltac:(lia)) as [Hl Hg]. clear IH.
    set (o := fold_left _ (map Z.of_nat (seq 1 k)) (repeat 0 10)) in *.
    cbv zeta. split; [rewrite length_set; exact Hl|].
    intros d Hd. destruct (Nat.eq_dec d (S k)) as [->|Hne].
    + replace (Z.of_nat (1 + k)) with (Z.of_nat (S k)) by lia.
      rewrite get_set_eq by lia.
      replace (Z.of_nat (S k) - 1) with (Z.of_nat k) by lia.
      rewrite Hg by lia. cbn [psum].
      apply wrap_int_small.
      pose proof (psum_nonneg sc Hnn (S k) ltac:(lia)) as H1.
      pose proof (psum_mono sc Hnn (S k) 10 ltac:(lia)) as H2.
      change (psum sc (S k)) with (psum sc k + get 0 sc (Z.of_nat k)) in H1, H2.
      lia.
    + rewrite get_set_ne by lia. apply Hg. lia.
Qed.

Lemma gen_offsets_spec sc :
  (forall d, 0 <= d < 10 -> 0 <= get 0 sc d) ->
  psum sc 10 < 2147483648 ->
  length (gen_offsets sc) = 10%nat /\
  forall d, (d <= 9)%nat -> get 0 (gen_offsets sc) (Z.of_nat d) = psum sc d.
Proof.
  intros Hnn Hsum. exact (offsets_prefix sc 9 (Nat.le_refl 9) Hnn Hsum).
Qed.

Lemma psum_ten f l :
  (forall x, 0 <= f x < 10) ->
  forall sc, (forall d, 0 <= d < 10 -> get 0 sc d = dcount f d l) ->
  psum sc 10 = Z.of_nat (length l).
Proof.
  intros Hf sc Hsc. rewrite <- (dcount_total f l Hf).
  cbn [psum].
  rewrite <- !Hsc by lia.
  change (Z.of_nat 0) with 0. change (Z.of_nat 1) with 1.
  change (Z.of_nat 2) with 2. change (Z.of_nat 3) with 3.
  change (Z.of_nat 4) with 4. change (Z.of_nat 5) with 5.
  change (Z.of_nat 6) with 6. change (Z.of_nat 7) with 7.
  change (Z.of_nat 8) with 8. change (Z.of_nat 9) with 9.
  lia.
Qed.

Lemma get_In (l : list Z) i : 0 <= i < Z.of_nat (length l) -> In (get 0 l i) l.
Proof. intros H. unfold get. apply nth_In. lia. Qed.

Lemma scatter_inv cf div sc :
  (forall d, 0 <= d < 10 -> 0 <= get 0 sc d) ->
  psum sc 10 < 2147483648 ->
  forall s offs out P,
  length offs = 10%nat ->
  Z.of_nat (length out) = psum sc 10 ->
  (forall d, 0 <= d < 10 ->
     psum sc (Z.to_nat d) <= get 0 offs d /\
     get 0 offs d + dcount (digit cf div) d s = psum sc (S (Z.to_nat d))) ->
  (forall x, In x P ->
     exists pos, psum sc (Z.to_nat (digit cf div x)) <= pos
                 < get 0 offs (digit cf div x) /\ get 0 out pos = x) ->
  length (scatter cf div s offs out) = length out /\
  forall x, In x P \/ In x s -> In x (scatter cf div s offs out).
Proof.
  intros Hnn Hsum.
  induction s as [|y s IH]; intros offs out P Hlo Hlen Hinv Hpl; cbn [scatter].
  - split; [reflexivity|]. intros x [Hx|[]].
    destruct (Hpl x Hx) as (pos & Hpos & Hget).
    pose proof (digit_range cf div x) as Hd.
    destruct (Hinv _ Hd) as [H1 H2]. cbn [dcount] in H2.
    pose proof (psum_nonneg sc Hnn (Z.to_nat (digit cf div x)) ltac:(lia)).
    pose proof (psum_mono sc Hnn (S (Z.to_nat (digit cf div x))) 10 ltac:(lia)).
    rewrite <- Hget. apply get_In. lia.
  - set (e := digit cf div y).
    pose proof (digit_range cf div y) as He. fold e in He.
    destruct (Hinv e He) as [He1 He2]. cbn [dcount] in He2. fold e in He2.
    rewrite Z.eqb_refl in He2.
    pose proof (dcount_nonneg (digit cf div) e s) as Hdc.
    pose proof (psum_nonneg sc Hnn (Z.to_nat e) ltac:(lia)) as Hp0.
    pose proof (psum_mono sc Hnn (S (Z.to_nat e)) 10 ltac:(lia)) as Hp1.
    rewrite wrap_int_small by lia.
    destruct (IH (set offs e (get 0 offs e + 1)) (set out (get 0 offs e) y) (y :: P))
      as [H1 H2].
    + rewrite length_set. exact Hlo.
    + rewrite length_set. exact Hlen.
    + intros d Hd. destruct (Z.eq_dec e d) as [<-|Hne].
      * rewrite get_set_eq by lia. lia.
      * rewrite get_set_ne by lia. destruct (Hinv d Hd) as [Hd1 Hd2].
        cbn [dcount] in Hd2. fold e in Hd2.
        destruct (Z.eqb_spec e d); [contradiction|]. lia.
    + intros x [<-|Hx].
      * exists (get 0 offs e). fold e. rewrite !get_set_eq by lia. lia.
      * destruct (Hpl x Hx) as (pos & Hpos & Hget).
        set (d := digit cf div x) in *.
        pose proof (digit_range cf div x) as Hd. fold d in Hd.
        destruct (Hinv d Hd) as [Hd1 Hd2].
        pose proof (dcount_nonneg (digit cf div) d (y :: s)) as Hdc'.
        pose proof (psum_nonneg sc Hnn (Z.to_nat d) ltac:(lia)) as Hq0.
        exists pos.
        assert (Hne : get 0 offs e <> pos /\
                      pos < get 0 (set offs e (get 0 offs e + 1)) d).
        { destruct (Z.lt_trichotomy d e) as [Hlt|[Heq|Hgt]].
          - pose proof (psum_mono sc Hnn (S (Z.to_nat d)) (Z.to_nat e) ltac:(lia)).
            rewrite get_set_ne by lia. lia.
          - rewrite Heq in *. rewrite get_set_eq by lia. lia.
          - pose proof (psum_mono sc Hnn (S (Z.to_nat e)) (Z.to_nat d) ltac:(lia)).
            rewrite get_set_ne by lia. lia. }
        destruct Hne as [Hne Hb]. split; [lia|].
        rewrite get_set_ne by lia. exact Hget.
    + split; [rewrite H1; apply length_set|].
      intros x Hx. apply H2. cbn [In] in *. tauto.
Qed.

Lemma sort_radix_perm cf r in_array out_array :
  NoDup in_array ->
  length out_array = length in_array ->
  Z.of_nat (length in_array) < 2147483648 ->
  Permutation in_array (sort_radix cf r in_array out_array).
Proof.
  intros Hnd Hlen Hsmall. unfold sort_radix.
  set (div := 10 ^ r).
  set (sc := count_symbols cf div in_array (repeat 0 10)).
  destruct (count_symbols_spec cf div in_array (repeat 0 10)) as [Hscl Hsc].
  { reflexivity. }
  { intros d Hd. rewrite get_repeat by lia.
    pose proof (dcount_le_length (digit cf div) d in_array). lia. }
  fold sc in Hscl, Hsc.
  assert (Hsc' : forall d, 0 <= d < 10 -> get 0 sc d = dcount (digit cf div) d in_array).
  { intros d Hd. rewrite (Hsc d Hd), get_repeat by lia. lia. }
  assert (Hnn : forall d, 0 <= d < 10 -> 0 <= get 0 sc d).
  { intros d Hd. rewrite (Hsc' d Hd). apply dcount_nonneg. }
  pose proof (psum_ten (digit cf div) in_array (digit_range cf div) sc Hsc') as Hten.
  destruct (gen_offsets_spec sc Hnn ltac:(lia)) as [Hol Hog].
  destruct (scatter_inv cf div sc Hnn ltac:(lia) in_array (gen_offsets sc) out_array [])
    as [H1 H2].
  - exact Hol.
  - rewrite Hlen. symmetry. exact Hten.
  - intros d Hd. replace d with (Z.of_nat (Z.to_nat d)) at 2 3 by lia.
    rewrite Hog by lia. split; [lia|]. cbn [psum].
    rewrite (Hsc' (Z.of_nat (Z.to_nat d))) by lia.
    replace (Z.of_nat (Z.to_nat d)) with d by lia. reflexivity.
  - intros x [].
  - apply NoDup_Permutation_bis; auto.
    + rewrite H1, Hlen. apply Nat.le_refl.
    + intros x Hx. apply H2. right. exact Hx.
Qed.

Lemma sort_passes_perm cf n : forall i input other,
  NoDup input -> length other = length input ->
  Z.of_nat (length input) < 2147483648 ->
  Permutation input (sort_passes cf n i input other).
Proof.
  induction n as [|n IH]; intros i input other Hnd Hlen Hsmall; cbn [sort_passes].
  - apply Permutation_refl.
  - pose proof (sort_radix_perm cf i input other Hnd Hlen Hsmall) as Hp.
    rewrite Hp at 1. apply IH.
    + apply (Permutation_NoDup Hp Hnd).
    + apply (Permutation_length Hp).
    + rewrite <- (Permutation_length Hp). exact Hsmall.
Qed.

Lemma byte_values_NoDup : NoDup (map Z.of_nat (seq 0 256)).
Proof.
  apply Finite.Injective_map_NoDup; [|apply seq_NoDup].
  intros a b H. lia.
Qed.

Lemma byte_values_In c : In c (map Z.of_nat (seq 0 256)) <-> 0 <= c < 256.
Proof.
  rewrite in_map_iff. split.
  - intros (n & <- & Hn). apply in_seq in Hn. lia.
  - intros Hc. exists (Z.to_nat c). split; [lia|]. apply in_seq. lia.
Qed.

Lemma sorted_chars_perm cf mf :
  Permutation (map Z.of_nat (seq 0 256)) (sorted_chars cf mf).
Proof.
  unfold sorted_chars. apply sort_passes_perm.
  - apply byte_values_NoDup.
  - rewrite length_map, length_seq, repeat_length. reflexivity.
  - rewrite length_map, length_seq. lia.
Qed.

Lemma make_leaves_chars cf l :
  flat_map leaves_of (make_leaves cf l) = filter (fun c => get 0 cf c >? 0) l.
Proof.
  induction l as [|x t IH]; [reflexivity|].
  unfold make_leaves in *. cbn [flat_map filter].
  rewrite flat_map_app, IH.
  destruct (get 0 cf x >? 0); reflexivity.
Qed.

Lemma make_leaves_length cf l : (length (make_leaves cf l) <= length l)%nat.
Proof.
  induction l as [|x t IH]; [apply Nat.le_refl|].
  unfold make_leaves in *. cbn [flat_map length]. rewrite length_app.
  destruct (get 0 cf x >? 0); cbn [length]; lia.
Qed.

Lemma make_leaves_unread cf l :
  (forall c, In c l -> get 0 cf c <> LAST_NODE) -> unread_ok (make_leaves cf l).
Proof.
  intros H. unfold unread_ok, make_leaves. apply Forall_flat_map.
  apply Forall_forall. intros x Hx.
  destruct (get 0 cf x >? 0); constructor; [|constructor].
  cbn [count]. apply H, Hx.
Qed.

Lemma make_leaves_nonempty cf l c :
  In c l -> get 0 cf c > 0 -> make_leaves cf l <> [].
Proof.
  intros Hin Hpos Hnil.
  assert (Hc : In c (flat_map leaves_of (make_leaves cf l))).
  { rewrite make_leaves_chars. apply filter_In. split; [exact Hin|].
    apply Z.gtb_lt. lia. }
  rewrite Hnil in Hc. exact Hc.
Qed.

(** The characters that own a leaf: the byte values of non-zero frequency. *)
Lemma sorted_leaves_spec cf mf :
  let r := make_leaves cf (sorted_chars cf mf) in
  NoDup (flat_map leaves_of r) /\
  (forall c, In c (flat_map leaves_of r) <-> 0 <= c < 256 /\ get 0 cf c > 0) /\
  (length r <= 256)%nat.
Proof.
  cbv zeta. rewrite make_leaves_chars.
  pose proof (sorted_chars_perm cf mf) as Hp.
  split; [|split].
  - apply NoDup_filter. apply (Permutation_NoDup Hp byte_values_NoDup).
  - intros c. rewrite filter_In. rewrite <- byte_values_In.
    split; intros [H1 H2]; split.
    + apply (Permutation_in c (Permutation_sym Hp) H1).
    + apply Z.gtb_lt in H2. lia.
    + apply (Permutation_in c Hp H1).
    + apply Z.gtb_lt. lia.
  - etransitivity; [apply make_leaves_length|].
    rewrite <- (Permutation_length Hp), length_map, length_seq. apply Nat.le_refl.
Qed.

(** For a table that holds at least one non-zero count and no count equal to
    the sentinel value, [huff_tree] returns a tree whose leaves are exactly
    the byte values of non-zero frequency, each once. *)
Lemma huff_tree_ok (Q : priority_queue) (st : huffman_codec) :
  (forall c, 0 <= c < 256 -> get 0 (char_frequency st) c <> LAST_NODE) ->
  (exists c, 0 <= c < 256 /\ get 0 (char_frequency st) c > 0) ->
  exists t,
    huff_tree Q st =
      Some {| sorted_leaf_nodes := sorted_leaf_nodes (sort_chars st);
              head := Some t;
              char_frequency := char_frequency st;
              max_freq := max_freq st;
              codes := codes st |} /\
    huff_loop Q 512
      (make_leaves (char_frequency st)
         (sorted_chars (char_frequency st) (max_freq st)) ++ [Leaf 0 LAST_NODE])
      (pq_new Q) = Some t /\
    NoDup (leaves_of t) /\
    (forall c, In c (leaves_of t) <->
               0 <= c < 256 /\ get 0 (char_frequency st) c > 0).
Proof.
  intros Hlast (c0 & Hc0 & Hpos).
  set (cf := char_frequency st).
  set (r := make_leaves cf (sorted_chars cf (max_freq st))).
  destruct (sorted_leaves_spec cf (max_freq st)) as (Hnd & Hin & Hlen).
  fold r in Hnd, Hin, Hlen.
  pose proof (sorted_chars_perm cf (max_freq st)) as Hp.
  destruct (huff_loop_ok Q 512 r (pq_new Q)) as (t & Ht & Hpt).
  - apply make_leaves_unread. intros c Hc. apply Hlast.
    apply byte_values_In. apply (Permutation_in c (Permutation_sym Hp) Hc).
  - unfold queued_ok. rewrite pq_new_spec. constructor.
  - rewrite pq_new_spec, app_nil_r.
    apply (make_leaves_nonempty cf _ c0); [|exact Hpos].
    apply (Permutation_in c0 Hp). apply byte_values_In. exact Hc0.
  - rewrite pq_new_spec, app_nil_r. lia.
  - rewrite pq_new_spec, app_nil_r in Hpt.
    exists t. split; [|split; [|split]].
    + unfold huff_tree. cbn [sort_chars sorted_leaf_nodes char_frequency max_freq codes head].
      fold cf. fold r. unfold sentinel in Ht. rewrite Ht. reflexivity.
    + exact Ht.
    + apply (Permutation_NoDup Hpt Hnd).
    + intros c. rewrite <- Hin. split; intros H.
      * apply (Permutation_in c (Permutation_sym Hpt) H).
      * apply (Permutation_in c Hpt H).
Qed.

(** * Code generator *)

Lemma paths_fst t : map fst (paths t) = leaves_of t.
Proof.
  induction t as [c k|k l IHl r IHr]; [reflexivity|].
  cbn [paths leaves_of]. rewrite map_app, !map_map. cbn [fst].
  rewrite <- IHl, <- IHr. reflexivity.
Qed.

Lemma paths_In_leaf t c p : In (c, p) (paths t) -> In c (leaves_of t).
Proof.
  intros H. rewrite <- paths_fst. apply (in_map fst) in H. exact H.
Qed.

Lemma leaves_In_path t c : In c (leaves_of t) -> exists p, In (c, p) (paths t).
Proof.
  rewrite <- paths_fst. intros H. apply in_map_iff in H.
  destruct H as ([c' p] & E & H). cbn in E. subst. exists p. exact H.
Qed.

Lemma paths_Internal k l r c p :
  In (c, p) (paths (Internal k l r)) ->
  exists b p', p = b :: p' /\ In (c, p') (paths (if b then r else l)).
Proof.
  cbn [paths]. intros H. apply in_app_or in H. destruct H as [H|H];
    apply in_map_iff in H; destruct H as ([c' p'] & E & H); cbn in E;
    injection E as -> <-.
  - exists false, p'. auto.
  - exists true, p'. auto.
Qed.

Lemma paths_child k l r c p (b : bool) :
  In (c, p) (paths (if b then r else l)) ->
  In (c, b :: p) (paths (Internal k l r)).
Proof.
  intros H. cbn [paths]. apply in_or_app. destruct b; [right|left];
    apply in_map_iff; exists (c, p); auto.
Qed.

Lemma NoDup_app_disj {A} (l1 l2 : list A) x :
  NoDup (l1 ++ l2) -> In x l1 -> In x l2 -> False.
Proof.
  induction l1 as [|a l1 IH]; intros Hnd H1 H2; [destruct H1|].
  cbn [app] in Hnd. inversion Hnd as [|? ? Ha Hnd']; subst.
  destruct H1 as [->|H1].
  - apply Ha, in_or_app. auto.
  - exact (IH Hnd' H1 H2).
Qed.

Lemma gen_codes_from_spec : forall t cur cs,
  NoDup (leaves_of t) ->
  (forall c, In c (leaves_of t) -> 0 <= c < 256) ->
  length cs = 256%nat ->
  length (gen_codes_from t cur cs) = 256%nat /\
  (forall c p, In (c, p) (paths t) ->
     get dcode (gen_codes_from t cur cs) c = extend cur p) /\
  (forall c, 0 <= c -> ~ In c (leaves_of t) ->
     get dcode (gen_codes_from t cur cs) c = get dcode cs c).
Proof.
  induction t as [ch k|k l IHl r IHr]; intros cur cs Hnd Hrange Hlen.
  - cbn [gen_codes_from paths leaves_of] in *.
    pose proof (Hrange ch (or_introl eq_refl)) as Hch.
    split; [rewrite length_set; exact Hlen|]. split.
    + intros c p [E|[]]. injection E as <- <-.
      rewrite get_set_eq by lia. reflexivity.
    + intros c Hc Hn. rewrite get_set_ne; [reflexivity|lia|lia|].
      intros ->. apply Hn. left; reflexivity.
  - cbn [gen_codes_from leaves_of] in *.
    apply NoDup_app_remove_l in Hnd as Hndr.
    apply NoDup_app_remove_r in Hnd as Hndl.
    set (c1 := {| code_length := wrap_int (code_length cur + 1);
                  code_value := wrap32 (Z.shiftl (code_value cur) 1) |}).
    set (c2 := {| code_length := code_length c1;
                  code_value := Z.lor (code_value c1) 1 |}).
    destruct (IHl c1 cs Hndl) as (L1 & L2 & L3); auto.
    { intros c Hc. apply Hrange, in_or_app. auto. }
    destruct (IHr c2 (gen_codes_from l c1 cs) Hndr) as (R1 & R2 & R3); auto.
    { intros c Hc. apply Hrange, in_or_app. auto. }
    split; [exact R1|]. split.
    + intros c p Hp. apply paths_Internal in Hp.
      destruct Hp as (b & p' & -> & Hp). destruct b.
      * rewrite (R2 c p' Hp). reflexivity.
      * pose proof (paths_In_leaf _ _ _ Hp) as Hcl.
        rewrite R3.
        -- rewrite (L2 c p' Hp). reflexivity.
        -- apply Hrange, in_or_app. auto.
        -- intros Hcr. exact (NoDup_app_disj _ _ c Hnd Hcl Hcr).
    + intros c Hc Hn. rewrite R3, L3; auto.
      * intros H. apply Hn, in_or_app. auto.
      * intros H. apply Hn, in_or_app. auto.
Qed.

Lemma bits_bound x n :
  0 <= x -> 0 <= n -> (forall j, n <= j -> Z.testbit x j = false) -> x < 2 ^ n.
Proof.
  intros Hx Hn Hhi.
  assert (E : x mod 2 ^ n = x).
  { apply Z.bits_inj'. intros j Hj. destruct (Z.lt_ge_cases j n).
    - apply Z.mod_pow2_bits_low. lia.
    - rewrite Z.mod_pow2_bits_high by lia. symmetry. apply Hhi. lia. }
  rewrite <- E. apply Z.mod_pos_bound. apply Z.pow_pos_nonneg; lia.
Qed.

Lemma extend_length : forall p cur,
  0 <= code_length cur ->
  code_length cur + Z.of_nat (length p) < 2147483648 ->
  code_length (extend cur p) = code_length cur + Z.of_nat (length p).
Proof.
  induction p as [|b p IH]; intros cur H0 Hlt; cbn [extend length] in *.
  - lia.
  - rewrite IH; cbn [code_length]; rewrite wrap_int_small; lia.
Qed.

Lemma extend_value_range : forall p cur,
  0 <= code_value cur < 4294967296 ->
  0 <= code_value (extend cur p) < 4294967296.
Proof.
  induction p as [|b p IH]; intros cur Hr; cbn [extend]; [exact Hr|].
  apply IH. cbn [code_value].
  pose proof (wrap32_range (Z.shiftl (code_value cur) 1)) as Hw.
  destruct b; [|exact Hw].
  split; [apply Z.lor_nonneg; lia|].
  change 4294967296 with (2 ^ 32). apply bits_bound; [apply Z.lor_nonneg; lia|lia|].
  intros j Hj. rewrite Z.lor_spec, wrap32_bits_high by lia.
  apply Z.bits_above_log2; simpl; lia.
Qed.

Lemma extend_bits : forall p cur j,
  0 <= j < 32 ->
  Z.testbit (code_value (extend cur p)) j =
  if j <? Z.of_nat (length p)
  then nth (length p - 1 - Z.to_nat j) p false
  else Z.testbit (code_value cur) (j - Z.of_nat (length p)).
Proof.
  induction p as [|b p IH]; intros cur j Hj; cbn [extend length].
  - destruct (Z.ltb_spec j (Z.of_nat 0)); [lia|]. f_equal. lia.
  - rewrite IH by exact Hj. cbn [code_value].
    destruct (Z.ltb_spec j (Z.of_nat (length p))) as [H1|H1].
    + destruct (Z.ltb_spec j (Z.of_nat (S (length p)))); [|lia].
      replace (S (length p) - 1 - Z.to_nat j)%nat
        with (S (length p - 1 - Z.to_nat j)) by lia.
      reflexivity.
    + destruct (Z.ltb_spec j (Z.of_nat (S (length p)))) as [H2|H2].
      * assert (E : j = Z.of_nat (length p)) by lia.
        replace (S (length p) - 1 - Z.to_nat j)%nat with 0%nat by lia.
        replace (j - Z.of_nat (length p)) with 0 by lia. cbn [nth].
        destruct b.
        -- rewrite Z.lor_spec, wrap32_bits_low, Z.shiftl_spec_low by lia.
           reflexivity.
        -- rewrite wrap32_bits_low, Z.shiftl_spec_low by lia. reflexivity.
      * assert (Hb : Z.testbit (if b then 1 else 0) (j - Z.of_nat (length p)) = false).
        { destruct b; [|apply Z.testbit_0_l].
          apply Z.bits_above_log2; simpl; lia. }
        replace (j - Z.of_nat (S (length p)))
          with (j - Z.of_nat (length p) - 1) by lia.
        destruct b.
        -- rewrite Z.lor_spec, wrap32_bits_low, Z.shiftl_spec by lia.
           rewrite Hb. apply orb_false_r.
        -- rewrite wrap32_bits_low, Z.shiftl_spec by lia. reflexivity.
Qed.

Lemma map_nth_seq (p : list bool) :
  map (fun j => nth j p false) (seq 0 (length p)) = p.
Proof.
  apply (nth_ext _ _ false false).
  - rewrite length_map, length_seq. reflexivity.
  - intros n Hn. rewrite length_map, length_seq in Hn.
    rewrite (nth_indep _ false (nth 0 p false))
      by (rewrite length_map, length_seq; exact Hn).
    rewrite (map_nth (fun j => nth j p false)), seq_nth by exact Hn.
    reflexivity.
Qed.

(** A path of at most 32 bits is stored without loss. *)
Lemma extend_code_bits p :
  (length p <= 32)%nat ->
  let c := extend (mkCode 0 0) p in
  code_length c = Z.of_nat (length p) /\
  0 <= code_value c < 2 ^ Z.of_nat (length p) /\
  code_bits c = p.
Proof.
  intros Hp. cbv zeta.
  assert (Hl : code_length (extend (mkCode 0 0) p) = Z.of_nat (length p)).
  { rewrite extend_length; cbn [code_length]; lia. }
  pose proof (extend_value_range p (mkCode 0 0)) as Hr. cbn [code_value] in Hr.
  specialize (Hr ltac:(lia)).
  split; [exact Hl|]. split.
  - split; [lia|]. apply bits_bound; [lia|lia|].
    intros j Hj. destruct (Z.lt_ge_cases j 32).
    + rewrite extend_bits by lia.
      destruct (Z.ltb_spec j (Z.of_nat (length p))); [lia|].
      cbn [code_value]. apply Z.testbit_0_l.
    + apply (testbit_above _ 32); [|lia]. change (2 ^ 32) with 4294967296. lia.
  - unfold code_bits. rewrite Hl, Nat2Z.id.
    transitivity (map (fun j => nth j p false) (seq 0 (length p)));
      [|apply map_nth_seq].
    apply map_ext_in. intros j Hj. apply in_seq in Hj.
    rewrite extend_bits by lia.
    destruct (Z.ltb_spec (Z.of_nat (length p) - 1 - Z.of_nat j) (Z.of_nat (length p)));
      [|lia].
    f_equal. lia.
Qed.

Lemma leaves_of_nonempty t : leaves_of t <> [].
Proof.
  induction t as [c k|k l IHl r IHr]; cbn [leaves_of]; [discriminate|].
  intros H. apply app_eq_nil in H. destruct H. contradiction.
Qed.

Lemma path_length_bound : forall t c p,
  In (c, p) (paths t) -> (length p < length (leaves_of t))%nat.
Proof.
  induction t as [ch k|k l IHl r IHr]; intros c p H.
  - destruct H as [E|[]]. injection E as <- <-. cbn. lia.
  - apply paths_Internal in H. destruct H as (b & p' & -> & H).
    cbn [leaves_of length]. rewrite length_app.
    pose proof (leaves_of_nonempty l). pose proof (leaves_of_nonempty r).
    assert (0 < length (leaves_of l))%nat by (destruct (leaves_of l); cbn; [congruence|lia]).
    assert (0 < length (leaves_of r))%nat by (destruct (leaves_of r); cbn; [congruence|lia]).
    destruct b; [apply IHr in H|apply IHl in H]; lia.
Qed.

Lemma paths_prefix_free : forall t c1 p1 c2 p2,
  In (c1, p1) (paths t) -> In (c2, p2) (paths t) ->
  is_prefix p1 p2 -> NoDup (leaves_of t) -> c1 = c2.
Proof.
  induction t as [ch k|k l IHl r IHr]; intros c1 p1 c2 p2 H1 H2 [q Hq] Hnd.
  - destruct H1 as [E1|[]]. destruct H2 as [E2|[]]. congruence.
  - apply paths_Internal in H1. destruct H1 as (b1 & p1' & -> & H1).
    apply paths_Internal in H2. destruct H2 as (b2 & p2' & -> & H2).
    cbn [app] in Hq. injection Hq as -> ->.
    cbn [leaves_of] in Hnd.
    destruct b1.
    + apply (IHr c1 p1' c2 (p1' ++ q)); auto.
      * exists q; reflexivity.
      * apply NoDup_app_remove_l in Hnd. exact Hnd.
    + apply (IHl c1 p1' c2 (p1' ++ q)); auto.
      * exists q; reflexivity.
      * apply NoDup_app_remove_r in Hnd. exact Hnd.
Qed.

(** * The encoder up to the code table *)

Lemma occ_pos_In c b : occ c b > 0 -> In c b.
Proof.
  induction b as [|x t IH]; cbn [occ]; [lia|].
  destruct (Z.eqb_spec x c) as [->|Hne]; [left; reflexivity|].
  intros H. right. apply IH. lia.
Qed.

Lemma In_occ_pos c b : In c b -> occ c b > 0.
Proof.
  induction b as [|x t IH]; [intros []|]. cbn [occ].
  pose proof (occ_nonneg c t) as Hnn.
  intros [->|Hin]; [rewrite Z.eqb_refl; lia|].
  specialize (IH Hin). destruct (x =? c); lia.
Qed.

Lemma leaves_length_bound t :
  NoDup (leaves_of t) -> (forall c, In c (leaves_of t) -> 0 <= c < 256) ->
  (length (leaves_of t) <= 256)%nat.
Proof.
  intros Hnd Hr.
  replace 256%nat with (length (map Z.of_nat (seq 0 256)))
    by (rewrite length_map, length_seq; reflexivity).
  apply NoDup_incl_length; [exact Hnd|].
  intros c Hc. apply byte_values_In, Hr, Hc.
Qed.

Lemma encoder_state_ok (Q : priority_queue) (codes0 : list code) (b : list Z) :
  bytes b -> b <> [] -> Z.of_nat (length b) < 4294967295 ->
  length codes0 = 256%nat ->
  exists t st,
    huff_tree Q (count_chars b (new_codec codes0)) = Some st /\
    head st = Some t /\
    char_frequency st = char_frequency (count_chars b (new_codec codes0)) /\
    max_freq st = max_freq (count_chars b (new_codec codes0)) /\
    codes st = codes0 /\
    encoder_state Q codes0 b =
      Some {| sorted_leaf_nodes := sorted_leaf_nodes st;
              head := Some t;
              char_frequency := char_frequency st;
              max_freq := max_freq st;
              codes := gen_codes_from t (mkCode 0 0) codes0 |} /\
    (forall c, 0 <= c < 256 -> get 0 (char_frequency st) c = occ c b) /\
    NoDup (leaves_of t) /\
    (forall c, In c (leaves_of t) <-> 0 <= c < 256 /\ occ c b > 0) /\
    length (gen_codes_from t (mkCode 0 0) codes0) = 256%nat /\
    (forall c p, In (c, p) (paths t) ->
       get dcode (gen_codes_from t (mkCode 0 0) codes0) c = extend (mkCode 0 0) p).
Proof.
  intros Hb Hne Hlen Hc0.
  set (st1 := count_chars b (new_codec codes0)).
  destruct (count_chars_fresh b (new_codec codes0)) as (Hocc & _ & _); auto.
  { lia. }
  { intros c Hc. change (char_frequency (new_codec codes0)) with (repeat 0 256).
    apply get_repeat. lia. }
  fold st1 in Hocc.
  destruct (huff_tree_ok Q st1) as (t & Ht & _ & Hnd & Hin).
  - intros c Hc. rewrite (Hocc c Hc).
    pose proof (occ_le_length c b). unfold LAST_NODE, UINT_MAX. lia.
  - destruct b as [|x b']; [congruence|].
    inversion Hb as [|? ? Hx _]; subst. exists x. split; [exact Hx|].
    rewrite (Hocc x Hx). apply In_occ_pos. left; reflexivity.
  - assert (Hin' : forall c, In c (leaves_of t) <-> 0 <= c < 256 /\ occ c b > 0).
    { intros c. rewrite Hin. split; intros [H1 H2]; split; auto.
      - rewrite <- (Hocc c H1). exact H2.
      - rewrite (Hocc c H1). exact H2. }
    destruct (gen_codes_from_spec t (mkCode 0 0) codes0 Hnd) as (G1 & G2 & _); auto.
    { intros c Hc. apply Hin' in Hc. tauto. }
    eexists t, _. split; [exact Ht|]. cbn [head char_frequency max_freq codes].
    split; [reflexivity|]. split; [reflexivity|]. split; [reflexivity|].
    split; [destruct (count_chars_fields b (new_codec codes0)) as (_ & _ & E); exact E|].
    split.
    { unfold encoder_state, with_codes. fold st1. rewrite Ht. unfold gen_codes.
      cbn [head sorted_leaf_nodes char_frequency max_freq codes].
      destruct (count_chars_fields b (new_codec codes0)) as (_ & _ & E).
      fold st1 in E. rewrite E. reflexivity. }
    split; [exact Hocc|]. split; [exact Hnd|]. split; [exact Hin'|].
    split; [exact G1|exact G2].
Qed.

(** C9 (amended): for every non-empty input, whenever no byte value that
    occurs gets a code longer than 32 bits, the codes of two distinct
    occurring byte values, read as bit strings of their stated lengths, are
    never a prefix of one another. *)
Theorem codes_prefix_free (Q : priority_queue) (codes0 : list code) (b : list Z) :
  bytes b -> b <> [] -> Z.of_nat (length b) < 4294967295 ->
  length codes0 = 256%nat ->
  exists st,
    encoder_state Q codes0 b = Some st /\
    ((forall c, 0 <= c < 256 -> occ c b > 0 ->
        code_length (get dcode (codes st) c) <= 32) ->
     forall c1 c2, 0 <= c1 < 256 -> 0 <= c2 < 256 -> c1 <> c2 ->
       occ c1 b > 0 -> occ c2 b > 0 ->
       ~ is_prefix (code_bits (get dcode (codes st) c1))
                   (code_bits (get dcode (codes st) c2))).
Proof.
  intros Hb Hne Hlen Hc0.
  destruct (encoder_state_ok Q codes0 b Hb Hne Hlen Hc0)
    as (t & st & _ & _ & _ & _ & _ & Hst & _ & Hnd & Hin & _ & Hcodes).
  eexists. split; [exact Hst|]. cbn [codes].
  intros Hshort.
  assert (Hbits : forall c, 0 <= c < 256 -> occ c b > 0 ->
            exists p, In (c, p) (paths t) /\
              code_bits (get dcode (gen_codes_from t (mkCode 0 0) codes0) c) = p).
  { intros c Hc Hocc.
    destruct (leaves_In_path t c) as (p & Hp); [apply Hin; auto|].
    exists p. split; [exact Hp|].
    pose proof (path_length_bound t c p Hp) as Hpl.
    pose proof (leaves_length_bound t Hnd) as Hll.
    specialize (Hll ltac:(intros c' Hc'; apply Hin in Hc'; tauto)).
    specialize (Hshort c Hc Hocc). rewrite (Hcodes c p Hp) in Hshort |- *.
    rewrite extend_length in Hshort by (cbn [code_length]; lia).
    cbn [code_length] in Hshort.
    apply extend_code_bits. lia. }
  intros c1 c2 H1 H2 Hneq Ho1 Ho2 Hpre.
  destruct (Hbits c1 H1 Ho1) as (p1 & Hp1 & E1).
  destruct (Hbits c2 H2 Ho2) as (p2 & Hp2 & E2).
  rewrite E1, E2 in Hpre.
  apply Hneq. exact (paths_prefix_free t c1 p1 c2 p2 Hp1 Hp2 Hpre Hnd).
Qed.

(** * The decoding loop *)

Lemma bitRead_one buf c :
  valid_cursor c -> bytes buf ->
  bitpos c + 1 <= 8 * Z.of_nat (length buf) ->
  bitRead 1 buf c =
  Some (Z.b2z (getbit buf (bitpos c)), cursor_at (bitpos c + 1)).
Proof.
  intros Hc Hb Hfit.
  destruct (bitRead_loop_spec (Z.to_nat 1) 1 0 buf c) as (r & Hr & Hr0 & Hrb);
    auto; try lia.
  { intros j _. apply Z.testbit_0_l. }
  unfold bitRead. rewrite Hr. do 2 f_equal.
  apply Z.bits_inj'. intros j Hj. rewrite (Hrb j Hj).
  destruct (Z.ltb_spec j 1).
  - assert (j = 0) by lia. subst j.
    replace (bitpos c + 1 - 1 - 0) with (bitpos c) by lia.
    destruct (getbit buf (bitpos c)); reflexivity.
  - rewrite Z.testbit_0_l.
    destruct (getbit buf (bitpos c)); cbn [Z.b2z].
    + symmetry. apply Z.bits_above_log2; simpl; lia.
    + symmetry. apply Z.testbit_0_l.
Qed.

Lemma paths_nil t c : In (c, []) (paths t) -> exists k, t = Leaf c k.
Proof.
  destruct t as [ch k|k l r]; intros H.
  - destruct H as [E|[]]. injection E as <-. exists k. reflexivity.
  - apply paths_Internal in H. destruct H as (b & p' & E & _). discriminate.
Qed.

Lemma paths_cons_internal t c b p :
  In (c, b :: p) (paths t) -> exists k l r, t = Internal k l r.
Proof.
  destruct t as [ch k|k l r]; intros H.
  - destruct H as [E|[]]. discriminate.
  - eauto.
Qed.

Lemma wrap8_b2z b : wrap8 (Z.b2z b) = Z.b2z b.
Proof. destruct b; reflexivity. Qed.

(** One iteration from an internal node. *)
Lemma decode_step_internal hd buf s k l r :
  currentNode s = Internal k l r ->
  valid_cursor (inCursor s) -> bytes buf ->
  bitpos (inCursor s) + 1 <= 8 * Z.of_nat (length buf) ->
  0 <= outPos s < Z.of_nat (length (out s)) ->
  decode_step hd buf s =
  match (if getbit buf (bitpos (inCursor s)) then r else l) with
  | Leaf c _ => Some (emit hd s 1 c)
  | Internal _ _ _ as child =>
      Some (mkDecode (cursor_at (bitpos (inCursor s) + 1)) child
                     (out s) (outPos s) (remaining s) (uniqueChars s))
  end.
Proof.
  intros Hn Hc Hb Hfit Hout. unfold decode_step.
  rewrite (bitRead_one buf _ Hc Hb Hfit), wrap8_b2z, Hn.
  destruct (getbit buf (bitpos (inCursor s))); cbn [Z.b2z Z.eqb].
  - destruct r as [c kc|kr rl rr]; [|reflexivity].
    rewrite store_in by exact Hout. reflexivity.
  - destruct l as [c kc|kl ll lr]; [|reflexivity].
    rewrite store_in by exact Hout. reflexivity.
Qed.

(** One iteration when the root is a leaf. *)
Lemma decode_step_leaf hd buf s c k :
  currentNode s = Leaf c k ->
  valid_cursor (inCursor s) -> bytes buf ->
  bitpos (inCursor s) + 1 <= 8 * Z.of_nat (length buf) ->
  0 <= outPos s < Z.of_nat (length (out s)) ->
  decode_step hd buf s = Some (emit hd s 1 c).
Proof.
  intros Hn Hc Hb Hfit Hout. unfold decode_step.
  rewrite (bitRead_one buf _ Hc Hb Hfit), Hn.
  rewrite store_in by exact Hout. reflexivity.
Qed.

Lemma decode_iter_path hd buf : forall p n s c,
  In (c, p) (paths n) -> p <> [] -> currentNode s = n ->
  valid_cursor (inCursor s) -> bytes buf ->
  bitpos (inCursor s) + Z.of_nat (length p) <= 8 * Z.of_nat (length buf) ->
  (forall j, (j < length p)%nat ->
     getbit buf (bitpos (inCursor s) + Z.of_nat j) = nth j p false) ->
  0 <= outPos s < Z.of_nat (length (out s)) ->
  decode_iter (length p) hd buf s = Some (emit hd s (Z.of_nat (length p)) c) /\
  forall j, (j < length p)%nat ->
    exists sj, decode_iter j hd buf s = Some sj /\
      remaining sj = remaining s /\ uniqueChars sj = uniqueChars s.
Proof.
  induction p as [|b p IH]; intros n s c Hin Hne Hn Hc Hb Hfit Hbits Hout;
    [congruence|].
  destruct (paths_cons_internal n c b p Hin) as (k & l & r & ->).
  apply paths_Internal in Hin. destruct Hin as (b' & p' & E & Hin).
  injection E as <- <-.
  assert (Hb0 : getbit buf (bitpos (inCursor s)) = b).
  { specialize (Hbits 0%nat ltac:(cbn [length]; lia)).
    rewrite Z.add_0_r in Hbits. exact Hbits. }
  cbn [length] in Hfit.
  pose proof (decode_step_internal hd buf s k l r Hn Hc Hb ltac:(lia) Hout) as Hstep.
  rewrite Hb0 in Hstep.
  assert (Hpos : 0 <= bitpos (inCursor s))
    by (destruct Hc; unfold bitpos; lia).
  destruct p as [|b2 p2].
  - (* the child is the leaf *)
    destruct (paths_nil _ _ Hin) as (kc & Echild). rewrite Echild in Hstep.
    cbn [length decode_iter]. rewrite Hstep. split; [reflexivity|].
    intros j Hj. assert (j = 0%nat) by lia. subst j.
    exists s. cbn [decode_iter]. auto.
  - destruct (paths_cons_internal _ _ _ _ Hin) as (kc & cl & cr & Echild).
    rewrite Echild in Hstep. rewrite <- Echild in Hstep.
    set (s1 := mkDecode (cursor_at (bitpos (inCursor s) + 1))
                        (if b then r else l) (out s) (outPos s)
                        (remaining s) (uniqueChars s)) in *.
    destruct (bitpos_cursor_at (bitpos (inCursor s) + 1)) as [Hv1 Hp1]; [lia|].
    destruct (IH (if b then r else l) s1 c) as [H1 H2]; auto.
    + discriminate.
    + unfold s1; cbn [inCursor]. rewrite Hp1. lia.
    + intros j Hj. unfold s1; cbn [inCursor]. rewrite Hp1.
      specialize (Hbits (S j) ltac:(cbn [length] in *; lia)).
      change (nth (S j) (b :: b2 :: p2) false) with (nth j (b2 :: p2) false) in Hbits.
      rewrite <- Hbits. f_equal. lia.
    + split.
      * change (length (b :: b2 :: p2)) with (S (length (b2 :: p2))).
        cbn [decode_iter]. rewrite Hstep, H1. f_equal.
        unfold emit, s1. cbn [inCursor out outPos remaining uniqueChars].
        rewrite Hp1.
        replace (bitpos (inCursor s) + 1 + Z.of_nat (length (b2 :: p2)))
          with (bitpos (inCursor s) + Z.of_nat (S (length (b2 :: p2)))) by lia.
        reflexivity.
      * intros j Hj. destruct j as [|j].
        -- exists s. cbn [decode_iter]. auto.
        -- destruct (H2 j ltac:(cbn [length] in *; lia)) as (sj & E1 & E2 & E3).
           exists sj. cbn [decode_iter]. rewrite Hstep. auto.
Qed.

Lemma decode_iter_chunk hd buf s c chunk :
  chunk_for hd c chunk -> currentNode s = hd ->
  valid_cursor (inCursor s) -> bytes buf ->
  bitpos (inCursor s) + Z.of_nat (length chunk) <= 8 * Z.of_nat (length buf) ->
  (forall j, (j < length chunk)%nat ->
     getbit buf (bitpos (inCursor s) + Z.of_nat j) = nth j chunk false) ->
  0 <= outPos s < Z.of_nat (length (out s)) ->
  (0 < length chunk)%nat /\
  decode_iter (length chunk) hd buf s
    = Some (emit hd s (Z.of_nat (length chunk)) c) /\
  forall j, (j < length chunk)%nat ->
    exists sj, decode_iter j hd buf s = Some sj /\
      remaining sj = remaining s /\ uniqueChars sj = uniqueChars s.
Proof.
  intros Hch Hn Hc Hb Hfit Hbits Hout.
  destruct hd as [ch k|k l r]; cbn [chunk_for] in Hch.
  - destruct Hch as [-> Hlen]. rewrite Hlen in *. split; [lia|].
    cbn [decode_iter].
    rewrite (decode_step_leaf _ buf s ch k Hn Hc Hb ltac:(lia) Hout).
    split; [reflexivity|].
    intros j Hj. assert (j = 0%nat) by lia. subst j.
    exists s. cbn [decode_iter]. auto.
  - assert (Hne : chunk <> []).
    { intros ->. apply paths_nil in Hch. destruct Hch; discriminate. }
    split; [destruct chunk; [congruence|cbn [length]; lia]|].
    apply (decode_iter_path _ buf chunk (Internal k l r)); auto.
Qed.

Lemma decode_iter_app hd buf a : forall b s,
  decode_iter (a + b) hd buf s =
  let? s' := decode_iter a hd buf s in decode_iter b hd buf s'.
Proof.
  induction a as [|a IH]; intros b s; cbn [decode_iter Nat.add]; [reflexivity|].
  destruct (decode_step hd buf s); [apply IH|reflexivity].
Qed.

Lemma filter_set_nat (f : Z -> bool) : forall l n v,
  (n < length l)%nat ->
  (length (filter f (set_nat l n v)) + (if f (nth n l 0%Z) then 1 else 0)
   = length (filter f l) + (if f v then 1 else 0))%nat.
Proof.
  induction l as [|x t IH]; intros [|n] v Hn; cbn [length] in Hn; try lia;
    cbn [set_nat filter nth].
  - destruct (f x), (f v); cbn [length]; lia.
  - specialize (IH n v ltac:(lia)).
    destruct (f x); cbn [length]; lia.
Qed.

Lemma nonzero_count_set cf c v :
  0 <= c < Z.of_nat (length cf) ->
  nonzero_count (set cf c v) =
  nonzero_count cf - (if get 0 cf c >? 0 then 1 else 0)
  + (if v >? 0 then 1 else 0).
Proof.
  intros Hc. unfold nonzero_count, set, get.
  destruct (Z.ltb_spec c 0); [lia|].
  pose proof (filter_set_nat (fun w => w >? 0) cf (Z.to_nat c) v ltac:(lia)) as H1.
  cbv beta in H1.
  destruct (nth (Z.to_nat c) cf 0 >? 0), (v >? 0); lia.
Qed.

Lemma nonzero_count_range cf : 0 <= nonzero_count cf <= Z.of_nat (length cf).
Proof.
  unfold nonzero_count. pose proof (filter_length_le (fun w => w >? 0) cf). lia.
Qed.

Lemma nonzero_count_pos cf c :
  0 <= c < Z.of_nat (length cf) -> get 0 cf c > 0 -> 0 < nonzero_count cf.
Proof.
  intros Hc Hpos. unfold nonzero_count.
  assert (Hin : In (get 0 cf c) (filter (fun w => w >? 0) cf)).
  { apply filter_In. split; [apply get_In; exact Hc|].
    apply Z.gtb_lt. lia. }
  destruct (filter (fun w => w >? 0) cf); [destruct Hin|cbn [length]; lia].
Qed.

Lemma nonzero_count_zero cf :
  (forall c, 0 <= c < Z.of_nat (length cf) -> get 0 cf c <= 0) ->
  nonzero_count cf = 0.
Proof.
  intros Hz. unfold nonzero_count.
  destruct (filter (fun w => w >? 0) cf) as [|w l] eqn:E; [reflexivity|].
  assert (Hin : In w (filter (fun w => w >? 0) cf)) by (rewrite E; left; reflexivity).
  apply filter_In in Hin. destruct Hin as [Hin Hw].
  apply In_nth with (d := 0) in Hin. destruct Hin as (n & Hn & <-).
  specialize (Hz (Z.of_nat n) ltac:(lia)). unfold get in Hz.
  rewrite Nat2Z.id in Hz. apply Z.gtb_lt in Hw. lia.
Qed.

(** Decoding a whole stream: [syms] are the symbols still to come, [chunks]
    the bits that stand for them one by one. *)
Lemma decode_iter_stream hd buf : forall syms chunks s,
  Forall2 (chunk_for hd) syms chunks ->
  currentNode s = hd ->
  valid_cursor (inCursor s) -> bytes buf ->
  bitpos (inCursor s) + Z.of_nat (length (concat chunks))
    <= 8 * Z.of_nat (length buf) ->
  (forall j, (j < length (concat chunks))%nat ->
     getbit buf (bitpos (inCursor s) + Z.of_nat j)
     = nth j (concat chunks) false) ->
  length (remaining s) = 256%nat -> bytes syms ->
  Z.of_nat (length syms) < 4294967296 ->
  (forall c, 0 <= c < 256 -> get 0 (remaining s) c = occ c syms) ->
  uniqueChars s = nonzero_count (remaining s) ->
  0 <= outPos s ->
  outPos s + Z.of_nat (length syms) <= Z.of_nat (length (out s)) ->
  exists sf,
    decode_iter (length (concat chunks)) hd buf s = Some sf /\
    uniqueChars sf = 0 /\ nonzero_count (remaining sf) = 0 /\
    (forall c, 0 <= c < 256 -> get 0 (remaining sf) c = 0) /\
    outPos sf = outPos s + Z.of_nat (length syms) /\
    out sf = write_out (out s) (outPos s) syms /\
    (forall j, (j < length (concat chunks))%nat ->
       exists sj, decode_iter j hd buf s = Some sj /\
         uniqueChars sj = nonzero_count (remaining sj) /\
         0 < uniqueChars sj).
Proof.
  induction syms as [|c syms IH];
    intros chunks s HF Hn Hc Hb Hfit Hbits Hl Hsy Hlen Hocc Hu Ho0 Ho1;
    inversion HF as [|? chunk ? chs Hch HF']; subst.
  - unfold write_out. cbn [concat length decode_iter map fill].
    assert (Hz : nonzero_count (remaining s) = 0).
    { apply nonzero_count_zero. intros c Hc'. rewrite Hocc by lia. cbn. lia. }
    exists s. split; [reflexivity|]. split; [lia|]. split; [exact Hz|].
    split; [intros c Hc'; apply Hocc; exact Hc'|].
    split; [lia|]. split; [reflexivity|]. intros j Hj. lia.
  - cbn [concat] in *. rewrite length_app in *.
    inversion Hsy as [|? ? Hcb Hsy']; subst. red in Hcb.
    cbn [length] in Hlen, Ho1.
    assert (Hpos : 0 <= bitpos (inCursor s)) by (destruct Hc; unfold bitpos; lia).
    destruct (decode_iter_chunk (currentNode s) buf s c chunk)
      as (Hlc & Hrun & Htr); auto; try lia.
    { intros j Hj. rewrite Hbits by lia. apply app_nth1. exact Hj. }
    (* the state after the symbol *)
    set (s1 := emit (currentNode s) s (Z.of_nat (length chunk)) c) in *.
    pose proof (occ_nonneg c syms) as Hnn.
    pose proof (occ_le_length c syms) as Hle.
    assert (Hc1 : get 0 (remaining s) c = 1 + occ c syms).
    { rewrite Hocc by exact Hcb. cbn [occ]. rewrite Z.eqb_refl. reflexivity. }
    assert (Hw : wrap32 (get 0 (remaining s) c - 1) = occ c syms).
    { rewrite Hc1. replace (1 + occ c syms - 1) with (occ c syms) by lia.
      apply wrap32_small. lia. }
    assert (Hrem : remaining s1 = set (remaining s) c (occ c syms)).
    { unfold s1, emit. cbn [remaining]. rewrite Hw. reflexivity. }
    assert (Hocc1 : forall c', 0 <= c' < 256 -> get 0 (remaining s1) c' = occ c' syms).
    { intros c' Hc'. rewrite Hrem. destruct (Z.eq_dec c c') as [<-|Hne].
      - rewrite get_set_eq by lia. reflexivity.
      - rewrite get_set_ne by lia. rewrite Hocc by exact Hc'. cbn [occ].
        destruct (Z.eqb_spec c c'); [contradiction|]. lia. }
    assert (Hupos : 0 < nonzero_count (remaining s)).
    { apply (nonzero_count_pos _ c); lia. }
    pose proof (nonzero_count_range (remaining s)) as Hur.
    assert (Hu1 : uniqueChars s1 = nonzero_count (remaining s1)).
    { rewrite Hrem, nonzero_count_set by lia.
      unfold s1, emit. cbn [uniqueChars]. rewrite Hw, get_set_eq by lia.
      rewrite Hu.
      destruct (Z.gtb_spec (get 0 (remaining s) c) 0); [|lia].
      destruct (Z.eqb_spec (occ c syms) 0) as [E|E].
      - rewrite E. cbn. rewrite wrap32_small by lia. lia.
      - destruct (Z.gtb_spec (occ c syms) 0); lia. }
    destruct (bitpos_cursor_at (bitpos (inCursor s) + Z.of_nat (length chunk)))
      as [Hv1 Hp1]; [lia|].
    destruct (IH chs s1) as (sf & Hsf & F1 & F2 & F3 & F4 & F5 & F6); auto.
    + unfold s1, emit; cbn [inCursor]. rewrite Hp1. lia.
    + intros j Hj. unfold s1, emit; cbn [inCursor]. rewrite Hp1.
      replace (bitpos (inCursor s) + Z.of_nat (length chunk) + Z.of_nat j)
        with (bitpos (inCursor s) + Z.of_nat (length chunk + j)) by lia.
      rewrite Hbits by lia. rewrite app_nth2 by lia. f_equal. lia.
    + rewrite Hrem, length_set. exact Hl.
    + lia.
    + unfold s1, emit; cbn [outPos]. lia.
    + unfold s1, emit; cbn [outPos out]. rewrite length_set. lia.
    + exists sf. split.
      { rewrite decode_iter_app, Hrun. exact Hsf. }
      split; [exact F1|]. split; [exact F2|]. split; [exact F3|].
      split; [rewrite F4; unfold s1, emit; cbn [outPos length]; lia|].
      split; [rewrite F5; reflexivity|].
      intros j Hj. destruct (Nat.lt_ge_cases j (length chunk)) as [Hlo|Hhi].
      * destruct (Htr j Hlo) as (sj & E1 & E2 & E3).
        exists sj. split; [exact E1|]. rewrite E2, E3. split; [exact Hu|lia].
      * destruct (F6 (j - length chunk)%nat ltac:(lia)) as (sj & E1 & E2 & E3).
        exists sj. split; [|auto].
        replace j with (length chunk + (j - length chunk))%nat by lia.
        rewrite decode_iter_app, Hrun. exact E1.
Qed.

(** The loop stops at the first state, among those the iterations go
    through, whose [uniqueChars] is zero. *)
Lemma decode_loop_of_iter hd buf : forall k fuel s sf,
  decode_iter k hd buf s = Some sf ->
  (forall j, (j < k)%nat ->
     exists sj, decode_iter j hd buf s = Some sj /\ 0 < uniqueChars sj) ->
  uniqueChars sf <= 0 -> (k <= fuel)%nat ->
  decode_loop fuel hd buf s = Some sf.
Proof.
  induction k as [|k IH]; intros fuel s sf Hk Htr Hz Hf.
  - cbn [decode_iter] in Hk. injection Hk as <-.
    destruct fuel; cbn [decode_loop];
      (destruct (Z.gtb_spec (uniqueChars s) 0); [lia|reflexivity]).
  - destruct fuel as [|fuel]; [lia|]. cbn [decode_loop].
    destruct (Htr 0%nat ltac:(lia)) as (s0 & E0 & Hu0).
    cbn [decode_iter] in E0. injection E0 as <-.
    destruct (Z.gtb_spec (uniqueChars s) 0); [|lia].
    cbn [decode_iter] in Hk.
    destruct (decode_step hd buf s) as [s'|] eqn:Es; [|discriminate].
    apply (IH fuel s' sf Hk); [|exact Hz|lia].
    intros j Hj. destruct (Htr (S j) ltac:(lia)) as (sj & Ej & Huj).
    cbn [decode_iter] in Ej. rewrite Es in Ej. eauto.
Qed.

(** * Frequency tables as functions of the byte value *)

Lemma get_map_byte_values (f : Z -> Z) c :
  0 <= c < 256 -> get 0 (map f (map Z.of_nat (seq 0 256))) c = f c.
Proof.
  intros Hc. unfold get.
  rewrite (nth_indep _ 0 (f 0))
    by (rewrite !length_map, length_seq; lia).
  rewrite (map_nth f), (nth_indep _ 0 (Z.of_nat 0))
    by (rewrite length_map, length_seq; lia).
  rewrite (map_nth Z.of_nat), seq_nth by lia. f_equal. lia.
Qed.

Lemma table_ext (cf cf' : list Z) :
  length cf = 256%nat -> length cf' = 256%nat ->
  (forall c, 0 <= c < 256 -> get 0 cf c = get 0 cf' c) -> cf = cf'.
Proof.
  intros H1 H2 H. apply (nth_ext _ _ 0 0); [congruence|].
  intros n Hn. specialize (H (Z.of_nat n) ltac:(lia)). unfold get in H.
  rewrite Nat2Z.id in H. exact H.
Qed.

Lemma table_as_map cf :
  length cf = 256%nat -> cf = map (get 0 cf) (map Z.of_nat (seq 0 256)).
Proof.
  intros Hl. apply table_ext; [exact Hl| |].
  - rewrite !length_map, length_seq. reflexivity.
  - intros c Hc. rewrite get_map_byte_values by exact Hc. reflexivity.
Qed.

Lemma sum_list_map_add (f g : Z -> Z) l :
  sum_list (map (fun c => f c + g c) l) = sum_list (map f l) + sum_list (map g l).
Proof. induction l as [|x t IH]; cbn; [reflexivity|]. unfold sum_list in *. lia. Qed.

Lemma indicator_sum_out x l :
  ~ In x l -> sum_list (map (fun c => if x =? c then 1 else 0) l) = 0.
Proof.
  induction l as [|y t IH]; intros Hn; [reflexivity|].
  cbn [map sum_list fold_right]. destruct (Z.eqb_spec x y) as [->|Hne].
  - exfalso. apply Hn. left; reflexivity.
  - unfold sum_list in IH. rewrite IH; [reflexivity|].
    intros H. apply Hn. right; exact H.
Qed.

Lemma indicator_sum_in x l :
  NoDup l -> In x l -> sum_list (map (fun c => if x =? c then 1 else 0) l) = 1.
Proof.
  induction l as [|y t IH]; intros Hnd Hin; [destruct Hin|].
  inversion Hnd as [|? ? Hy Hnd']; subst.
  cbn [map sum_list fold_right]. destruct (Z.eqb_spec x y) as [->|Hne].
  - pose proof (indicator_sum_out y t Hy) as H0. unfold sum_list in H0.
    rewrite H0. reflexivity.
  - destruct Hin as [->|Hin]; [congruence|].
    specialize (IH Hnd' Hin). unfold sum_list in IH. rewrite IH. reflexivity.
Qed.

Lemma occ_sum b :
  bytes b ->
  sum_list (map (fun c => occ c b) (map Z.of_nat (seq 0 256)))
  = Z.of_nat (length b).
Proof.
  induction b as [|x t IH]; intros Hb.
  - cbn [occ length]. induction (map Z.of_nat (seq 0 256)); cbn; auto.
  - inversion Hb as [|? ? Hx Hb']; subst. cbn [occ].
    rewrite (sum_list_map_add (fun c => if x =? c then 1 else 0) (fun c => occ c t)).
    rewrite IH by exact Hb'.
    rewrite indicator_sum_in; [cbn [length]; lia|apply byte_values_NoDup|].
    apply byte_values_In. exact Hx.
Qed.

(** The sum of a table that holds the occurrence counts of [b] is the length
    of [b]. *)
Lemma sum_list_counts cf b :
  length cf = 256%nat -> bytes b ->
  (forall c, 0 <= c < 256 -> get 0 cf c = occ c b) ->
  sum_list cf = Z.of_nat (length b).
Proof.
  intros Hl Hb Hocc. rewrite (table_as_map cf Hl), <- (occ_sum b Hb).
  f_equal. apply map_ext_in. intros c Hc. apply Hocc, byte_values_In, Hc.
Qed.

(** C5: for a header [cf] that holds the occurrence counts of some symbol
    sequence and a bit stream that spells this sequence, the loop of [decode]
    ends in a state [sf] reached after [k] iterations in which no byte value
    has a non-zero remaining frequency, while in every earlier state some
    byte value has one and [uniqueChars] counts exactly those; at that
    point the number of bytes emitted is the sum of the 256 header counts. *)
Theorem decode_stops_at_zero (hd : node) (buf : list Z) (bufin : Z)
    (cf : list Z) (syms : list Z) (chunks : list (list bool))
    (pbufout : list (option Z)) :
  length cf = 256%nat -> bytes syms ->
  Z.of_nat (length syms) < 4294967296 ->
  (forall c, 0 <= c < 256 -> get 0 cf c = occ c syms) ->
  Forall2 (chunk_for hd) syms chunks ->
  bytes buf -> 0 <= bufin ->
  8 * bufin + Z.of_nat (length (concat chunks)) <= 8 * Z.of_nat (length buf) ->
  (forall j, (j < length (concat chunks))%nat ->
     getbit buf (8 * bufin + Z.of_nat j) = nth j (concat chunks) false) ->
  (length syms <= length pbufout)%nat ->
  let s0 := mkDecode (mkCursor bufin 0) hd pbufout 0 cf (nonzero_count cf) in
  exists k sf,
    decode_iter k hd buf s0 = Some sf /\
    decode_loop (S (8 * length buf)) hd buf s0 = Some sf /\
    nonzero_count (remaining sf) = 0 /\
    uniqueChars sf = 0 /\
    outPos sf = sum_list cf /\
    out sf = write_out pbufout 0 syms /\
    forall j, (j < k)%nat ->
      exists sj, decode_iter j hd buf s0 = Some sj /\
        0 < nonzero_count (remaining sj) /\
        uniqueChars sj = nonzero_count (remaining sj).
Proof.
  intros Hl Hsy Hlen Hocc HF Hb Hin Hfit Hbits Hcap s0.
  destruct (decode_iter_stream hd buf syms chunks s0)
    as (sf & Hrun & F1 & F2 & F3 & F4 & F5 & F6); auto;
    unfold s0; cbn [inCursor currentNode out outPos remaining uniqueChars];
    unfold bitpos; cbn [bytePtr curBit]; try rewrite Z.add_0_r; auto; try lia.
  { unfold valid_cursor; cbn [bytePtr curBit]; lia. }
  exists (length (concat chunks)), sf.
  split; [exact Hrun|]. split.
  { apply (decode_loop_of_iter hd buf (length (concat chunks))); auto; try lia.
    intros j Hj. destruct (F6 j Hj) as (sj & E1 & E2 & E3). eauto. }
  split; [exact F2|]. split; [exact F1|].
  split; [rewrite F4, (sum_list_counts cf syms Hl Hsy Hocc); unfold s0; cbn [outPos]; lia|].
  split; [exact F5|].
  intros j Hj. destruct (F6 j Hj) as (sj & E1 & E2 & E3).
  exists sj. split; [exact E1|]. split; [lia|exact E2].
Qed.

(** * Arrays overwritten cell after cell *)

Lemma length_fill {A} (xs : list A) : forall l pos,
  length (fill l pos xs) = length l.
Proof.
  induction xs as [|x xs IH]; intros l pos; cbn [fill]; [reflexivity|].
  rewrite IH. apply length_set.
Qed.

Lemma get_fill {A} (d : A) (xs : list A) : forall l pos c,
  0 <= pos -> pos + Z.of_nat (length xs) <= Z.of_nat (length l) -> 0 <= c ->
  get d (fill l pos xs) c =
  if (pos <=? c) && (c <? pos + Z.of_nat (length xs))
  then nth (Z.to_nat (c - pos)) xs d else get d l c.
Proof.
  induction xs as [|x xs IH]; intros l pos c Hp Hfit Hc; cbn [fill length] in *.
  - destruct (Z.leb_spec pos c), (Z.ltb_spec c (pos + Z.of_nat 0));
      cbn [andb]; try reflexivity; lia.
  - rewrite IH by (rewrite ?length_set; lia).
    destruct (Z.leb_spec (pos + 1) c), (Z.ltb_spec c (pos + 1 + Z.of_nat (length xs)));
      cbn [andb].
    + destruct (Z.leb_spec pos c); [|lia].
      destruct (Z.ltb_spec c (pos + Z.of_nat (S (length xs)))); [|lia].
      cbn [andb]. replace (Z.to_nat (c - pos)) with (S (Z.to_nat (c - (pos + 1)))) by lia.
      reflexivity.
    + destruct (Z.leb_spec pos c); [|lia].
      destruct (Z.ltb_spec c (pos + Z.of_nat (S (length xs)))); [lia|].
      cbn [andb]. apply get_set_ne; lia.
    + destruct (Z.eq_dec c pos) as [->|Hne].
      * destruct (Z.leb_spec pos pos); [|lia].
        destruct (Z.ltb_spec pos (pos + Z.of_nat (S (length xs)))); [|lia].
        cbn [andb]. rewrite get_set_eq by lia.
        replace (Z.to_nat (pos - pos)) with 0%nat by lia. reflexivity.
      * destruct (Z.leb_spec pos c); [lia|]. cbn [andb].
        apply get_set_ne; lia.
    + lia.
Qed.

Lemma list_ext_get {A} (d : A) (l l' : list A) :
  length l = length l' ->
  (forall c, 0 <= c < Z.of_nat (length l) -> get d l c = get d l' c) -> l = l'.
Proof.
  intros Hl H. apply (nth_ext _ _ d d); [exact Hl|].
  intros n Hn. specialize (H (Z.of_nat n) ltac:(lia)). unfold get in H.
  rewrite Nat2Z.id in H. exact H.
Qed.

Lemma fill_all {A} (l xs : list A) :
  length l = length xs -> fill l 0 xs = xs.
Proof.
  intros Hl.
  destruct xs as [|x0 xs'] eqn:E.
  { destruct l; [reflexivity|discriminate]. }
  rewrite <- E in *. clear E.
  apply (list_ext_get x0); [rewrite length_fill; exact Hl|].
  intros c Hc. rewrite length_fill in Hc.
  rewrite get_fill by lia.
  destruct (Z.leb_spec 0 c); [|lia].
  destruct (Z.ltb_spec c (0 + Z.of_nat (length xs))); [|lia].
  cbn [andb]. unfold get. f_equal. lia.
Qed.

Lemma write_out_fresh (syms : list Z) (n : nat) :
  (length syms <= n)%nat ->
  write_out (repeat None n) 0 syms
  = map Some syms ++ repeat None (n - length syms).
Proof.
  intros Hn. unfold write_out.
  apply (list_ext_get None).
  { rewrite length_fill, length_app, length_map, !repeat_length. lia. }
  intros c Hc. rewrite length_fill, repeat_length in Hc.
  rewrite get_fill by (rewrite ?length_map, ?repeat_length; lia).
  rewrite length_map.
  destruct (Z.leb_spec 0 c); [|lia].
  destruct (Z.ltb_spec c (0 + Z.of_nat (length syms))); cbn [andb]; unfold get.
  - rewrite app_nth1 by (rewrite length_map; lia). f_equal. lia.
  - rewrite app_nth2 by (rewrite length_map; lia).
    rewrite !nth_repeat. reflexivity.
Qed.

(** * The frequency table as a header *)

Lemma load32_in buf i :
  0 <= i -> i + 4 <= Z.of_nat (length buf) ->
  load32 buf i = Some (word_at buf i).
Proof.
  intros Hi Hfit. unfold load32, word_at.
  rewrite !(load_in 0) by lia. reflexivity.
Qed.

Lemma store32_spec buf i v :
  0 <= i -> i + 4 <= Z.of_nat (length buf) -> 0 <= v < 4294967296 ->
  bytes buf ->
  exists buf',
    store32 buf i v = Some buf' /\ length buf' = length buf /\ bytes buf' /\
    word_at buf' i = v /\
    forall j, 0 <= j -> j < i \/ i + 4 <= j -> get 0 buf' j = get 0 buf j.
Proof.
  intros Hi Hfit Hv Hb. unfold store32.
  rewrite store_in by lia.
  rewrite store_in by (rewrite ?length_set; lia).
  rewrite store_in by (rewrite ?length_set; lia).
  rewrite store_in by (rewrite ?length_set; lia).
  eexists. split; [reflexivity|].
  split; [rewrite !length_set; reflexivity|].
  split.
  { repeat apply bytes_set; auto; red; apply Z.mod_pos_bound; lia. }
  split.
  - unfold word_at.
    rewrite (get_set_ne 0 _ (i + 3) i), (get_set_ne 0 _ (i + 2) i),
      (get_set_ne 0 _ (i + 1) i), get_set_eq by (rewrite ?length_set; lia).
    rewrite (get_set_ne 0 _ (i + 3) (i + 1)), (get_set_ne 0 _ (i + 2) (i + 1)),
      get_set_eq by (rewrite ?length_set; lia).
    rewrite (get_set_ne 0 _ (i + 3) (i + 2)), get_set_eq
      by (rewrite ?length_set; lia).
    rewrite get_set_eq by (rewrite ?length_set; lia).
    pose proof (Z.div_mod v 256 ltac:(lia)).
    pose proof (Z.div_mod (v / 256) 256 ltac:(lia)).
    pose proof (Z.div_mod (v / 256 / 256) 256 ltac:(lia)).
    pose proof (Z.div_mod (v / 256 / 256 / 256) 256 ltac:(lia)).
    assert (v / 256 / 256 / 256 / 256 = 0).
    { rewrite !Z.div_div by lia. apply Z.div_small. lia. }
    change 65536 with (256 * 256).
    change 16777216 with (256 * 256 * 256). rewrite <- !Z.div_div by lia.
    lia.
  - intros j Hj Hout. rewrite !get_set_ne by lia. reflexivity.
Qed.

Lemma word_at_ext buf buf' i :
  0 <= i ->
  (forall j, i <= j < i + 4 -> get 0 buf' j = get 0 buf j) ->
  word_at buf' i = word_at buf i.
Proof.
  intros Hi H. unfold word_at. rewrite !H by lia. reflexivity.
Qed.

Lemma write_words_spec : forall ws buf ptr,
  0 <= ptr -> ptr + 4 * Z.of_nat (length ws) <= Z.of_nat (length buf) ->
  Forall (fun w => 0 <= w < 4294967296) ws -> bytes buf ->
  exists buf',
    write_words ws buf ptr = Some (buf', ptr + 4 * Z.of_nat (length ws)) /\
    length buf' = length buf /\ bytes buf' /\
    (forall i, (i < length ws)%nat ->
       word_at buf' (ptr + 4 * Z.of_nat i) = nth i ws 0) /\
    (forall j, 0 <= j -> j < ptr \/ ptr + 4 * Z.of_nat (length ws) <= j ->
       get 0 buf' j = get 0 buf j).
Proof.
  induction ws as [|w ws IH]; intros buf ptr Hp Hfit Hws Hb; cbn [write_words length] in *.
  - exists buf. rewrite Z.add_0_r. repeat split; auto. intros; lia.
  - inversion Hws as [|? ? Hw Hws']; subst.
    destruct (store32_spec buf ptr w Hp ltac:(lia) Hw Hb)
      as (buf1 & Hs & Hl1 & Hb1 & Hw1 & Ho1).
    rewrite Hs.
    destruct (IH buf1 (ptr + 4)) as (buf' & Hr & Hl' & Hb' & Hw' & Ho'); auto;
      try lia.
    exists buf'. split.
    { rewrite Hr. do 2 f_equal. lia. }
    split; [congruence|]. split; [exact Hb'|]. split.
    + intros [|i] Hi.
      * rewrite Z.mul_0_r, Z.add_0_r. cbn [nth]. rewrite <- Hw1.
        apply word_at_ext; [lia|]. intros j Hj. apply Ho'; lia.
      * cbn [nth]. rewrite <- (Hw' i) by lia. f_equal. lia.
    + intros j Hj Hout. rewrite Ho' by lia. apply Ho1; lia.
Qed.

Lemma nonzero_count_cons w ws :
  nonzero_count (w :: ws) = (if w >? 0 then 1 else 0) + nonzero_count ws.
Proof.
  unfold nonzero_count. cbn [filter]. destruct (w >? 0); cbn [length]; lia.
Qed.

Lemma read_loop_spec buf : forall ws i ptr cf ts mf u,
  0 <= ptr -> ptr + 4 * Z.of_nat (length ws) <= Z.of_nat (length buf) ->
  (forall j, (j < length ws)%nat ->
     word_at buf (ptr + 4 * Z.of_nat j) = nth j ws 0) ->
  0 <= ts < 4294967296 ->
  0 <= u -> u + Z.of_nat (length ws) < 4294967296 ->
  read_loop (length ws) i buf ptr cf ts mf u =
  Some (fill cf i ws, wrap32 (ts + sum_list ws), run_max mf ws,
        u + nonzero_count ws, ptr + 4 * Z.of_nat (length ws)).
Proof.
  induction ws as [|w ws IH]; intros i ptr cf ts mf u Hp Hfit Hw Hts Hu0 Hu1;
    cbn [read_loop length fill] in *.
  - unfold sum_list, run_max, nonzero_count. cbn.
    rewrite !Z.add_0_r, wrap32_small by lia. reflexivity.
  - rewrite load32_in by lia.
    pose proof (Hw 0%nat ltac:(lia)) as H0. rewrite Z.mul_0_r, Z.add_0_r in H0.
    cbn [nth] in H0. rewrite H0.
    rewrite IH; try lia.
    + f_equal. rewrite nonzero_count_cons.
      unfold run_max, sum_list. cbn [fold_left fold_right].
      assert (E1 : wrap32 (wrap32 (ts + w) + fold_right Z.add 0 ws)
                   = wrap32 (ts + (w + fold_right Z.add 0 ws))).
      { unfold wrap32. rewrite Zplus_mod_idemp_l. f_equal. lia. }
      rewrite E1.
      assert (E2 : (if w >? 0 then wrap32 (u + 1) else u) + nonzero_count ws
                   = u + ((if w >? 0 then 1 else 0) + nonzero_count ws)).
      { destruct (w >? 0); [rewrite wrap32_small|]; lia. }
      rewrite E2.
      replace (ptr + 4 + 4 * Z.of_nat (length ws))
        with (ptr + 4 * Z.of_nat (S (length ws))) by lia.
      reflexivity.
    + intros j Hj. specialize (Hw (S j) ltac:(lia)). cbn [nth] in Hw.
      rewrite <- Hw. f_equal. lia.
    + apply wrap32_range.
    + destruct (w >? 0); [rewrite wrap32_small|]; lia.
    + destruct (w >? 0); [rewrite wrap32_small|]; lia.
Qed.

(** * Packing the codes of an input *)

Lemma code_bits_length c :
  length (code_bits c) = Z.to_nat (code_length c).
Proof. unfold code_bits. rewrite length_map, length_seq. reflexivity. Qed.

Lemma code_bits_nth c j :
  (j < Z.to_nat (code_length c))%nat ->
  nth j (code_bits c) false
  = Z.testbit (code_value c) (code_length c - 1 - Z.of_nat j).
Proof.
  intros Hj. unfold code_bits.
  rewrite (nth_indep _ false
             (Z.testbit (code_value c) (code_length c - 1 - Z.of_nat 0)))
    by (rewrite length_map, length_seq; exact Hj).
  rewrite (map_nth (fun j => Z.testbit (code_value c) (code_length c - 1 - Z.of_nat j))).
  rewrite seq_nth by exact Hj. reflexivity.
Qed.

Lemma encode_loop_spec cs : forall b buf cursor,
  valid_cursor cursor -> bytes buf ->
  (forall x, In x b ->
     0 <= code_length (get dcode cs x) <= 31 /\
     0 <= code_value (get dcode cs x) < 2 ^ code_length (get dcode cs x)) ->
  bitpos cursor + sum_list (map (fun x => code_length (get dcode cs x)) b)
    <= 8 * Z.of_nat (length buf) ->
  (forall q, bitpos cursor <= q -> getbit buf q = false) ->
  exists buf',
    encode_loop cs b buf cursor =
      Some (buf', cursor_at (bitpos cursor
              + sum_list (map (fun x => code_length (get dcode cs x)) b))) /\
    length buf' = length buf /\ bytes buf' /\
    (forall q, 0 <= q < bitpos cursor -> getbit buf' q = getbit buf q) /\
    Z.of_nat (length (concat (map (fun x => code_bits (get dcode cs x)) b)))
      = sum_list (map (fun x => code_length (get dcode cs x)) b) /\
    (forall j, (j < length (concat (map (fun x => code_bits (get dcode cs x)) b)))%nat ->
       getbit buf' (bitpos cursor + Z.of_nat j)
       = nth j (concat (map (fun x => code_bits (get dcode cs x)) b)) false).
Proof.
  induction b as [|x b IH]; intros buf cursor Hc Hb Hcs Hfit Hzero.
  - cbn [encode_loop map sum_list fold_right concat length].
    exists buf. rewrite Z.add_0_r, cursor_at_bitpos by exact Hc.
    repeat split; auto. intros j Hj. lia.
  - cbn [encode_loop map concat]. cbn [map sum_list fold_right] in Hfit |- *.
    fold (sum_list (map (fun x => code_length (get dcode cs x)) b)) in Hfit |- *.
    set (T := sum_list (map (fun x => code_length (get dcode cs x)) b)) in *.
    destruct (Hcs x (or_introl eq_refl)) as [Hlen Hval].
    set (len := code_length (get dcode cs x)) in *.
    set (v := code_value (get dcode cs x)) in *.
    assert (HT : 0 <= T).
    { unfold T. clear -Hcs. induction b as [|y b IHb]; cbn; [lia|].
      destruct (Hcs y (or_intror (or_introl eq_refl))).
      unfold sum_list in IHb. specialize (IHb ltac:(intros z [Hz|Hz]; apply Hcs; cbn; auto)).
      lia. }
    assert (Hpos : 0 <= bitpos cursor) by (destruct Hc; unfold bitpos; lia).
    assert (Hv31 : v < 2147483648).
    { assert (2 ^ len <= 2 ^ 31) by (apply Z.pow_le_mono_r; lia).
      change (2 ^ 31) with 2147483648 in *. lia. }
    rewrite wrap_int_small by lia.
    destruct (bitWrite_loop_spec (Z.to_nat len) len v buf cursor)
      as (buf1 & Hw & Hl1 & Hb1 & Hhi & Hlo); auto; try lia.
    unfold bitWrite. rewrite Hw.
    destruct (bitpos_cursor_at (bitpos cursor + len)) as [Hv1 Hp1]; [lia|].
    destruct (IH buf1 (cursor_at (bitpos cursor + len)))
      as (buf' & Hr & Hl' & Hb' & Hlo' & Hlen' & Hbits'); auto.
    + intros y Hy. apply Hcs. right; exact Hy.
    + rewrite Hp1, Hl1. fold T. lia.
    + intros q Hq. rewrite Hp1 in Hq. rewrite Hhi by lia. rewrite Hzero by lia.
      destruct (Z.ltb_spec q (bitpos cursor + len)); [lia|]. reflexivity.
    + fold T in Hr, Hlen'. rewrite Hp1 in *.
      exists buf'. split.
      { rewrite Hr. do 3 f_equal. lia. }
      split; [congruence|]. split; [exact Hb'|]. split.
      { intros q Hq. rewrite Hlo' by lia. apply Hlo; [lia|exact Hq]. }
      split.
      { rewrite length_app, code_bits_length. fold len. lia. }
      intros j Hj. rewrite length_app, code_bits_length in Hj. fold len in Hj.
      destruct (Nat.lt_ge_cases j (Z.to_nat len)) as [Hj1|Hj2].
      * rewrite app_nth1 by (rewrite code_bits_length; exact Hj1).
        rewrite code_bits_nth by exact Hj1. fold len v.
        rewrite Hlo' by lia. rewrite Hhi by lia. rewrite Hzero by lia.
        destruct (Z.ltb_spec (bitpos cursor + Z.of_nat j) (bitpos cursor + len)); [|lia].
        cbn [orb andb]. f_equal. lia.
      * rewrite app_nth2 by (rewrite code_bits_length; exact Hj2).
        rewrite code_bits_length. fold len.
        rewrite <- Hbits' by lia. f_equal. lia.
Qed.

(** * The size of the output buffer *)

Lemma fold_products (f : Z -> Z) : forall l acc,
  (forall x, In x l -> 0 <= f x < 4294967296) ->
  0 <= acc ->
  acc + 4294967296 * Z.of_nat (length l) < 18446744073709551616 ->
  fold_left (fun a i => wrap64 (a + wrap32 (f i))) l acc
  = acc + sum_list (map f l).
Proof.
  induction l as [|x l IH]; intros acc Hf Ha Hb; cbn [fold_left map sum_list fold_right length] in *.
  - lia.
  - pose proof (Hf x (or_introl eq_refl)) as Hx.
    rewrite wrap32_small by exact Hx.
    assert (Hw : wrap64 (acc + f x) = acc + f x).
    { unfold wrap64. apply Z.mod_small. lia. }
    rewrite Hw, IH; unfold sum_list; try lia.
    intros y Hy. apply Hf. right; exact Hy.
Qed.

Lemma indicator_weight x (g : Z -> Z) l :
  NoDup l -> In x l ->
  sum_list (map (fun c => (if x =? c then 1 else 0) * g c) l) = g x.
Proof.
  induction l as [|y t IH]; intros Hnd Hin; [destruct Hin|].
  inversion Hnd as [|? ? Hy Hnd']; subst.
  cbn [map sum_list fold_right]. destruct (Z.eqb_spec x y) as [->|Hne].
  - assert (H0 : sum_list (map (fun c => (if y =? c then 1 else 0) * g c) t) = 0).
    { clear -Hy. induction t as [|z t IHt]; [reflexivity|].
      cbn [map sum_list fold_right]. destruct (Z.eqb_spec y z) as [->|Hne].
      - exfalso. apply Hy. left; reflexivity.
      - unfold sum_list in IHt. rewrite IHt; [lia|].
        intros H. apply Hy. right; exact H. }
    unfold sum_list in H0. rewrite H0. lia.
  - destruct Hin as [->|Hin]; [congruence|].
    specialize (IH Hnd' Hin). unfold sum_list in IH. rewrite IH. lia.
Qed.

(** Summing [g] weighted by the occurrence counts is summing [g] over the
    input. *)
Lemma weighted_sum (g : Z -> Z) b :
  bytes b ->
  sum_list (map (fun c => occ c b * g c) (map Z.of_nat (seq 0 256)))
  = sum_list (map g b).
Proof.
  induction b as [|x t IH]; intros Hb.
  - cbn [occ map sum_list fold_right].
    induction (map Z.of_nat (seq 0 256)) as [|y l IHl]; [reflexivity|].
    cbn [map sum_list fold_right]. unfold sum_list in IHl. rewrite IHl. reflexivity.
  - inversion Hb as [|? ? Hx Hb']; subst. cbn [occ map sum_list fold_right].
    fold (sum_list (map g t)). rewrite <- (IH Hb').
    rewrite <- (indicator_weight x g (map Z.of_nat (seq 0 256)))
      by (try apply byte_values_NoDup; apply byte_values_In; exact Hx).
    rewrite <- sum_list_map_add. f_equal. apply map_ext. intros c. lia.
Qed.

Lemma calc_out_buff_size_exact st :
  (forall c, 0 <= c < 256 ->
     0 <= get 0 (char_frequency st) c * code_length (get dcode (codes st) c)
       < 4294967296) ->
  let total :=
    sum_list (map (fun c => get 0 (char_frequency st) c
                            * code_length (get dcode (codes st) c))
                  (map Z.of_nat (seq 0 256))) in
  (total + 7) / 8 + 1024 < 4294967296 ->
  calc_out_buff_size st = (total + 7) / 8 + 1024.
Proof.
  intros Hp total Hfit. unfold calc_out_buff_size.
  rewrite (fold_products
             (fun c => get 0 (char_frequency st) c
                       * code_length (get dcode (codes st) c))).
  - fold total. rewrite Z.add_0_l.
    assert (Ht : 0 <= total).
    { unfold total. clear -Hp.
      assert (H : forall l, (forall c, In c l -> 0 <= c < 256) ->
                0 <= sum_list (map (fun c => get 0 (char_frequency st) c
                                   * code_length (get dcode (codes st) c)) l)).
      { induction l as [|y l IHl]; intros Hl; cbn; [lia|].
        specialize (IHl ltac:(intros c Hc; apply Hl; right; exact Hc)).
        pose proof (Hp y (Hl y (or_introl eq_refl))). unfold sum_list in IHl. lia. }
      apply H. intros c Hc. apply byte_values_In, Hc. }
    assert (0 <= (total + 7) / 8) by (apply Z.div_pos; lia).
    assert (Hlt : total + 7 < 18446744073709551616).
    { assert ((total + 7) / 8 < 4294967296) by lia.
      pose proof (Z.div_mod (total + 7) 8 ltac:(lia)).
      pose proof (Z.mod_pos_bound (total + 7) 8 ltac:(lia)). lia. }
    unfold wrap64. rewrite (Z.mod_small (total + 7)) by lia.
    rewrite (Z.mod_small ((total + 7) / 8 + 1024)) by lia.
    apply wrap32_small. lia.
  - intros c Hc. apply Hp, byte_values_In, Hc.
  - lia.
  - rewrite length_map, length_seq. lia.
Qed.

(** * The encoder as a whole *)

Lemma get_byte_range buf i : bytes buf -> 0 <= get 0 buf i < 256.
Proof.
  intros Hb. unfold get.
  destruct (Nat.lt_ge_cases (Z.to_nat i) (length buf)) as [H|H].
  - apply (proj1 (Forall_forall _ _) Hb). apply nth_In. exact H.
  - rewrite nth_overflow by exact H. lia.
Qed.

Lemma get_of_getbit buf buf' i :
  bytes buf -> bytes buf' -> 0 <= i ->
  (forall j, 0 <= j < 8 -> getbit buf' (8 * i + j) = getbit buf (8 * i + j)) ->
  get 0 buf' i = get 0 buf i.
Proof.
  intros Hb Hb' Hi H. apply Z.bits_inj'. intros n Hn.
  pose proof (get_byte_range buf i Hb). pose proof (get_byte_range buf' i Hb').
  destruct (Z.lt_ge_cases n 8).
  - specialize (H (7 - n) ltac:(lia)). unfold getbit in H.
    destruct (divmod8 (8 * i + (7 - n)) i (7 - n)) as [E1 E2]; [lia|lia|].
    rewrite E1, E2 in H. replace (7 - (7 - n)) with n in H by lia. exact H.
  - rewrite !(testbit_above _ 8) by (change (2 ^ 8) with 256; lia). reflexivity.
Qed.

Lemma table_Forall (P : Z -> Prop) cf :
  length cf = 256%nat -> (forall c, 0 <= c < 256 -> P (get 0 cf c)) -> Forall P cf.
Proof.
  intros Hl H. apply Forall_forall. intros w Hw.
  apply In_nth with (d := 0) in Hw. destruct Hw as (n & Hn & <-).
  specialize (H (Z.of_nat n) ltac:(lia)). unfold get in H.
  rewrite Nat2Z.id in H. exact H.
Qed.

Lemma sum_list_bounds (g : Z -> Z) (m : Z) l :
  (forall x, In x l -> 0 <= g x <= m) ->
  0 <= sum_list (map g l) <= m * Z.of_nat (length l).
Proof.
  induction l as [|x l IH]; intros H; cbn [map sum_list fold_right length].
  - lia.
  - specialize (IH ltac:(intros y Hy; apply H; right; exact Hy)).
    pose proof (H x (or_introl eq_refl)). unfold sum_list in IH. lia.
Qed.

Lemma tree_internal_of_two t x y :
  In x (leaves_of t) -> In y (leaves_of t) -> x <> y ->
  exists k l r, t = Internal k l r.
Proof.
  destruct t as [c k|k l r]; [|eauto].
  cbn [leaves_of]. intros [<-|[]] [<-|[]] H. congruence.
Qed.

(** What [huffman_encode] returns for an input of at least two distinct byte
    values whose codes are at most 31 bits long: the header holds the
    occurrence counts and the bits after it spell the paths of the input
    bytes in the tree. *)
Lemma huffman_encode_ok (Q : priority_queue) (codes0 : list code) (b : list Z) :
  bytes b -> Z.of_nat (length b) <= 134217728 ->
  (exists x y, In x b /\ In y b /\ x <> y) ->
  length codes0 = 256%nat ->
  (forall st, encoder_state Q codes0 b = Some st ->
     forall c, 0 <= c < 256 -> occ c b > 0 ->
       code_length (get dcode (codes st) c) <= 31) ->
  exists t st enc chunks,
    huff_tree Q (count_chars b (new_codec codes0)) = Some st /\
    head st = Some t /\
    (forall c, 0 <= c < 256 -> get 0 (char_frequency st) c = occ c b) /\
    length (char_frequency st) = 256%nat /\
    is_max (char_frequency st) (max_freq st) /\
    huffman_encode Q codes0 b = Some (enc, Z.of_nat (length enc)) /\
    bytes enc /\ 1024 <= Z.of_nat (length enc) /\
    Z.of_nat (length enc) < 4294967296 /\
    (forall c, 0 <= c < 256 -> word_at enc (4 * c) = occ c b) /\
    Forall2 (chunk_for t) b chunks /\
    8 * 1024 + Z.of_nat (length (concat chunks)) <= 8 * Z.of_nat (length enc) /\
    (forall j, (j < length (concat chunks))%nat ->
       getbit enc (8 * 1024 + Z.of_nat j) = nth j (concat chunks) false).
Proof.
  intros Hb Hlen (x0 & y0 & Hx0 & Hy0 & Hxy) Hc0 Hshort.
  assert (Hne : b <> []) by (intros ->; destruct Hx0).
  destruct (encoder_state_ok Q codes0 b Hb Hne ltac:(lia) Hc0)
    as (t & st & Ht & Hhead & Hcf & Hmf & Hcodes0 & Hst & Hocc & Hnd & Hin & Hcl & Hcodes).
  set (cs := gen_codes_from t (mkCode 0 0) codes0) in *.
  specialize (Hshort _ Hst). cbn [codes] in Hshort. fold cs in Hshort.
  (* the codes of the bytes that occur *)
  assert (Hcode : forall x, In x b ->
            exists p, In (x, p) (paths t) /\ (length p <= 31)%nat /\
              p <> [] /\
              code_length (get dcode cs x) = Z.of_nat (length p) /\
              0 <= code_value (get dcode cs x) < 2 ^ Z.of_nat (length p) /\
              code_bits (get dcode cs x) = p).
  { intros x Hx.
    assert (Hxo : occ x b > 0) by (apply In_occ_pos; exact Hx).
    assert (Hxr : 0 <= x < 256)
      by (apply (proj1 (Forall_forall _ _) Hb); exact Hx).
    destruct (leaves_In_path t x) as (p & Hp); [apply Hin; auto|].
    pose proof (path_length_bound t x p Hp) as Hpl.
    pose proof (leaves_length_bound t Hnd) as Hll.
    specialize (Hll ltac:(intros c' Hc'; apply Hin in Hc'; tauto)).
    specialize (Hshort x Hxr Hxo). rewrite (Hcodes x p Hp) in Hshort |- *.
    rewrite extend_length in Hshort by (cbn [code_length]; lia).
    cbn [code_length] in Hshort.
    destruct (extend_code_bits p ltac:(lia)) as (E1 & E2 & E3).
    exists p. split; [exact Hp|]. split; [lia|]. split; [|auto].
    intros ->. apply paths_nil in Hp. destruct Hp as (k & ->).
    destruct (tree_internal_of_two (Leaf x k) x0 y0) as (k' & l' & r' & E);
      [apply Hin|apply Hin|exact Hxy|discriminate];
      (split; [apply (proj1 (Forall_forall _ _) Hb); auto|apply In_occ_pos; auto]). }
  destruct (tree_internal_of_two t x0 y0) as (k & l & r & Et);
    [apply Hin|apply Hin|exact Hxy|];
    try (split; [apply (proj1 (Forall_forall _ _) Hb); auto|apply In_occ_pos; auto]).
  set (chunks := map (fun x => code_bits (get dcode cs x)) b).
  set (T := sum_list (map (fun x => code_length (get dcode cs x)) b)).
  assert (HT : 0 <= T <= 31 * Z.of_nat (length b)).
  { apply sum_list_bounds. intros x Hx.
    destruct (Hcode x Hx) as (p & _ & Hp31 & _ & E & _). rewrite E. lia. }
  (* the size of the buffer *)
  set (st3 := {| sorted_leaf_nodes := sorted_leaf_nodes st; head := Some t;
                 char_frequency := char_frequency st; max_freq := max_freq st;
                 codes := cs |}) in *.
  assert (Hsize : calc_out_buff_size st3 = (T + 7) / 8 + 1024).
  { assert (ET : sum_list (map (fun c => get 0 (char_frequency st3) c
                                 * code_length (get dcode (codes st3) c))
                              (map Z.of_nat (seq 0 256))) = T).
    { unfold T. rewrite <- (weighted_sum (fun x => code_length (get dcode cs x)) b Hb).
      f_equal. apply map_ext_in. intros c Hc. apply byte_values_In in Hc.
      unfold st3. cbn [char_frequency codes]. rewrite (Hocc c Hc). reflexivity. }
    rewrite calc_out_buff_size_exact; rewrite ?ET; [reflexivity| |].
    - intros c Hc. unfold st3. cbn [char_frequency codes]. rewrite (Hocc c Hc).
      pose proof (occ_nonneg c b). pose proof (occ_le_length c b).
      destruct (Z.eq_dec (occ c b) 0) as [E|E]; [rewrite E; lia|].
      destruct (Hcode c (occ_pos_In c b ltac:(lia))) as (p & _ & Hp31 & _ & El & _).
      rewrite El. nia.
    - assert ((T + 7) / 8 <= T + 7) by (apply Z.div_le_upper_bound; lia). lia. }
  assert (Hn0 : 0 <= (T + 7) / 8) by (apply Z.div_pos; lia).
  set (n := (T + 7) / 8 + 1024) in *.
  assert (Hn8 : 8 * 1024 + T <= 8 * n).
  { unfold n. pose proof (Z.div_mod (T + 7) 8 ltac:(lia)).
    pose proof (Z.mod_pos_bound (T + 7) 8 ltac:(lia)). lia. }
  assert (Hnsmall : n < 4294967296).
  { unfold n. assert ((T + 7) / 8 <= T + 7) by (apply Z.div_le_upper_bound; lia). lia. }
  (* the header *)
  assert (Hcfl : length (char_frequency st) = 256%nat).
  { rewrite Hcf. destruct (count_chars_fields b (new_codec codes0)) as (-> & _ & _).
    rewrite count_loop_length. reflexivity. }
  destruct (write_words_spec (char_frequency st) (repeat 0 (Z.to_nat n)) 0)
    as (buf1 & Hw & Hl1 & Hb1 & Hwords & Hout1).
  { lia. }
  { rewrite Hcfl, repeat_length. lia. }
  { apply table_Forall; [exact Hcfl|]. intros c Hc. rewrite (Hocc c Hc).
    pose proof (occ_nonneg c b). pose proof (occ_le_length c b). lia. }
  { apply bytes_repeat_zero. }
  rewrite Hcfl in Hw, Hout1. rewrite repeat_length in Hl1.
  change (0 + 4 * Z.of_nat 256) with 1024 in Hw, Hout1.
  (* the packed codes *)
  destruct (encode_loop_spec cs b buf1 (mkCursor 1024 0))
    as (enc & He & Hl2 & Hb2 & Hlo2 & Hlen2 & Hbits2).
  { unfold valid_cursor; cbn; lia. }
  { exact Hb1. }
  { intros x Hx. destruct (Hcode x Hx) as (p & _ & Hp31 & _ & E1 & E2 & _).
    rewrite E1. split; [lia|exact E2]. }
  { unfold bitpos; cbn [bytePtr curBit]. fold T. rewrite Hl1. lia. }
  { intros q Hq. unfold bitpos in Hq; cbn [bytePtr curBit] in Hq.
    unfold getbit. assert (1024 <= q / 8) by (apply Z.div_le_lower_bound; lia).
    rewrite Hout1 by lia. unfold get. rewrite nth_repeat. apply Z.testbit_0_l. }
  unfold bitpos in He, Hlo2, Hbits2; cbn [bytePtr curBit] in He, Hlo2, Hbits2.
  fold T in He, Hlen2. fold chunks in Hlen2, Hbits2.
  exists t, st, enc, chunks.
  split; [exact Ht|]. split; [exact Hhead|]. split; [exact Hocc|].
  split; [exact Hcfl|]. split.
  { destruct (count_chars_fresh b (new_codec codes0)) as (F1 & F2 & F3); auto.
    - lia.
    - intros c Hc. change (char_frequency (new_codec codes0)) with (repeat 0 256).
      apply get_repeat. lia.
    - rewrite Hmf. split.
      + intros c Hc. rewrite (Hocc c Hc). apply F2, Hc.
      + destruct F3 as (c & Hc & E). exists c. split; [exact Hc|].
        rewrite (Hocc c Hc). exact E. }
  split.
  { unfold huffman_encode. rewrite Ht.
    unfold encoder_state, with_codes in Hst. rewrite Ht in Hst. rewrite Hst.
    fold st3. rewrite Hsize. unfold write_char_freq, encode, st3.
    cbn [char_frequency codes]. rewrite Hw, He.
    do 2 f_equal. rewrite Hl2, Hl1. lia. }
  split; [exact Hb2|]. split; [rewrite Hl2, Hl1; lia|].
  split; [rewrite Hl2, Hl1; lia|]. split.
  { intros c Hc. rewrite <- (Hocc c Hc).
    transitivity (word_at buf1 (4 * c)).
    - apply word_at_ext; [lia|]. intros j Hj.
      apply get_of_getbit; auto; [lia|]. intros i Hi. apply Hlo2. lia.
    - specialize (Hwords (Z.to_nat c) ltac:(lia)).
      replace (0 + 4 * Z.of_nat (Z.to_nat c)) with (4 * c) in Hwords by lia.
      rewrite Hwords. reflexivity. }
  split.
  { unfold chunks. clear -Hcode Et. subst t.
    induction b as [|x b IH]; cbn [map]; constructor.
    - destruct (Hcode x (or_introl eq_refl)) as (p & Hp & _ & _ & _ & _ & E).
      rewrite E. exact Hp.
    - apply IH. intros y Hy. apply Hcode. right; exact Hy. }
  split; [rewrite Hl2, Hl1; lia|exact Hbits2].
Qed.

(** * The decoder as a whole *)

Lemma run_max_spec : forall ws mf,
  mf <= run_max mf ws /\
  (forall w, In w ws -> w <= run_max mf ws) /\
  (run_max mf ws = mf \/ In (run_max mf ws) ws).
Proof.
  induction ws as [|w ws IH]; intros mf; unfold run_max; cbn [fold_left].
  - split; [lia|]. split; [intros w []|left; reflexivity].
  - fold (run_max (if w >? mf then w else mf) ws).
    destruct (IH (if w >? mf then w else mf)) as (H1 & H2 & H3).
    destruct (Z.gtb_spec w mf) as [Hgt|Hle].
    + split; [lia|]. split.
      * intros w' [<-|Hw']; [exact H1|apply H2, Hw'].
      * destruct H3 as [->|H3]; right; [left; reflexivity|right; exact H3].
    + split; [exact H1|]. split.
      * intros w' [<-|Hw']; [lia|apply H2, Hw'].
      * destruct H3 as [H3|H3]; [left; exact H3|right; right; exact H3].
Qed.

Lemma is_max_run_max ws :
  length ws = 256%nat -> (forall c, 0 <= c < 256 -> 0 <= get 0 ws c) ->
  is_max ws (run_max 0 ws).
Proof.
  intros Hl Hnn. destruct (run_max_spec ws 0) as (H1 & H2 & H3). split.
  - intros c Hc. apply H2. apply get_In. lia.
  - destruct H3 as [H3|H3].
    + exists 0. split; [lia|]. rewrite H3.
      specialize (H2 (get 0 ws 0) (get_In ws 0 ltac:(lia))).
      specialize (Hnn 0 ltac:(lia)). lia.
    + apply In_nth with (d := 0) in H3. destruct H3 as (n & Hn & E).
      exists (Z.of_nat n). split; [lia|]. unfold get. rewrite Nat2Z.id. auto.
Qed.

Lemma is_max_unique cf m1 m2 : is_max cf m1 -> is_max cf m2 -> m1 = m2.
Proof.
  intros [A1 (c1 & Hc1 & E1)] [A2 (c2 & Hc2 & E2)].
  specialize (A1 c2 Hc2). specialize (A2 c1 Hc1). lia.
Qed.

(** The tree depends on the frequency table and on [max_freq] only. *)
Lemma huff_tree_head (Q : priority_queue) st st' t :
  huff_tree Q st = Some st' -> head st' = Some t ->
  huff_loop Q 512
    (make_leaves (char_frequency st)
       (sorted_chars (char_frequency st) (max_freq st)) ++ [Leaf 0 LAST_NODE])
    (pq_new Q) = Some t.
Proof.
  unfold huff_tree, sort_chars. cbn [sorted_leaf_nodes].
  destruct (huff_loop Q 512 _ (pq_new Q)) as [h|]; [|discriminate].
  intros E Hh. injection E as <-. cbn [head] in Hh. congruence.
Qed.

Lemma set_last_cell (xs : list (option Z)) (k : nat) (v : option Z) :
  set (xs ++ repeat None (S k)) (Z.of_nat (length xs + k)) v
  = xs ++ repeat None k ++ [v].
Proof.
  apply (list_ext_get None).
  { rewrite length_set, !length_app, !repeat_length. cbn [length]. lia. }
  intros c Hc. rewrite length_set, length_app, repeat_length in Hc.
  destruct (Z.eq_dec c (Z.of_nat (length xs + k))) as [->|Hne].
  - rewrite get_set_eq by (rewrite length_app, repeat_length; lia).
    unfold get. rewrite Nat2Z.id.
    rewrite app_nth2 by lia. rewrite app_nth2 by (rewrite repeat_length; lia).
    rewrite repeat_length.
    replace (length xs + k - length xs - k)%nat with 0%nat by lia. reflexivity.
  - rewrite get_set_ne by lia. unfold get.
    destruct (Nat.lt_ge_cases (Z.to_nat c) (length xs)) as [H|H].
    + rewrite !app_nth1 by exact H. reflexivity.
    + rewrite !app_nth2 by exact H.
      rewrite app_nth1 by (rewrite repeat_length; lia).
      rewrite !nth_repeat. reflexivity.
Qed.

(** Decoding a buffer whose header holds the occurrence counts of [b] and
    whose bits after the header spell [b] in the tree these counts give. *)
Lemma huffman_decode_stream (Q : priority_queue) (codes1 : list code)
    (buf : list Z) (b : list Z) (chunks : list (list bool)) (t : node)
    (len0 : Z) :
  bytes buf -> 1024 <= Z.of_nat (length buf) ->
  bytes b ->
  0 <= len0 -> len0 + Z.of_nat (length b) + 1 < 4294967296 ->
  (forall c, 0 <= c < 256 -> word_at buf (4 * c) = occ c b) ->
  (let ws := map (fun c => occ c b) (map Z.of_nat (seq 0 256)) in
   huff_loop Q 512
     (make_leaves ws (sorted_chars ws (run_max 0 ws)) ++ [Leaf 0 LAST_NODE])
     (pq_new Q) = Some t) ->
  Forall2 (chunk_for t) b chunks ->
  8 * 1024 + Z.of_nat (length (concat chunks)) <= 8 * Z.of_nat (length buf) ->
  (forall j, (j < length (concat chunks))%nat ->
     getbit buf (8 * 1024 + Z.of_nat j) = nth j (concat chunks) false) ->
  huffman_decode Q codes1 buf len0
  = Some (map Some b ++ repeat None (Z.to_nat len0) ++ [Some 0],
          len0 + Z.of_nat (length b) + 1).
Proof.
  intros Hbe Hn1 Hb Hl0 Hl1 Hwords Hloop HF Hfit Hbits.
  set (ws := map (fun c => occ c b) (map Z.of_nat (seq 0 256))) in *.
  cbv zeta in Hloop.
  assert (Hlws : length ws = 256%nat)
    by (unfold ws; rewrite !length_map, length_seq; reflexivity).
  assert (Hws : forall c, 0 <= c < 256 -> get 0 ws c = occ c b)
    by (intros c Hc; unfold ws; apply get_map_byte_values; exact Hc).
  assert (Hsum : sum_list ws = Z.of_nat (length b)) by (apply occ_sum; exact Hb).
  (* the header *)
  assert (Hread : read_char_freq buf 0 len0 (new_codec codes1) =
            Some ({| sorted_leaf_nodes := []; head := None; char_frequency := ws;
                     max_freq := run_max 0 ws; codes := codes1 |},
                  1024, len0 + Z.of_nat (length b), nonzero_count ws)).
  { unfold read_char_freq.
    change (read_loop 256) with (read_loop (length ws)).
    rewrite read_loop_spec; try lia.
    - rewrite Hsum, Hlws, wrap32_small by lia.
      cbn [new_codec sorted_leaf_nodes head char_frequency codes].
      rewrite fill_all by (rewrite repeat_length; auto). reflexivity.
    - intros j Hj. rewrite Hlws in Hj.
      replace (0 + 4 * Z.of_nat j) with (4 * Z.of_nat j) by lia.
      rewrite Hwords by lia. rewrite <- Hws by lia. unfold get.
      rewrite Nat2Z.id. reflexivity. }
  unfold huffman_decode. rewrite Hread.
  unfold huff_tree, sort_chars.
  cbn [sorted_leaf_nodes char_frequency max_freq head codes].
  rewrite Hloop.
  (* the loop *)
  rewrite wrap32_small by lia.
  set (cap := Z.to_nat (len0 + Z.of_nat (length b) + 1)).
  set (s0 := mkDecode (mkCursor 1024 0) t (repeat None cap) 0 ws (nonzero_count ws)).
  destruct (decode_iter_stream t buf b chunks s0)
    as (sf & Hrun & F1 & F2 & F3 & F4 & F5 & F6); auto;
    unfold s0; cbn [inCursor currentNode out outPos remaining uniqueChars];
    unfold bitpos; cbn [bytePtr curBit]; try rewrite Z.add_0_r; auto; try lia.
  { unfold valid_cursor; cbn [bytePtr curBit]; lia. }
  { rewrite repeat_length. unfold cap. lia. }
  assert (Hdl : decode_loop (S (8 * length buf)) t buf s0 = Some sf).
  { apply (decode_loop_of_iter t buf (length (concat chunks))); auto; try lia.
    intros j Hj. destruct (F6 j Hj) as (sj & E1 & E2 & E3). eauto. }
  unfold decode. cbn [head char_frequency]. fold s0. rewrite Hdl.
  rewrite F5. unfold s0. cbn [out outPos].
  rewrite write_out_fresh by (unfold cap; lia).
  replace (cap - length b)%nat with (S (Z.to_nat len0)) by (unfold cap; lia).
  rewrite store_in
    by (rewrite length_app, length_map, repeat_length; lia).
  do 2 f_equal.
  replace (len0 + Z.of_nat (length b))
    with (Z.of_nat (length (map Some b) + Z.to_nat len0))
    by (rewrite length_map; lia).
  apply set_last_cell.
Qed.

Lemma huffman_decode_ok (Q : priority_queue) (codes0 codes1 : list code)
    (b : list Z) (len0 : Z) :
  bytes b -> Z.of_nat (length b) <= 134217728 ->
  (exists x y, In x b /\ In y b /\ x <> y) ->
  length codes0 = 256%nat ->
  (forall st, encoder_state Q codes0 b = Some st ->
     forall c, 0 <= c < 256 -> occ c b > 0 ->
       code_length (get dcode (codes st) c) <= 31) ->
  0 <= len0 -> len0 + Z.of_nat (length b) + 1 < 4294967296 ->
  exists enc,
    huffman_encode Q codes0 b = Some (enc, Z.of_nat (length enc)) /\
    huffman_decode Q codes1 enc len0
    = Some (map Some b ++ repeat None (Z.to_nat len0) ++ [Some 0],
            len0 + Z.of_nat (length b) + 1).
Proof.
  intros Hb Hlen Htwo Hc0 Hshort Hl0 Hl1.
  destruct (huffman_encode_ok Q codes0 b Hb Hlen Htwo Hc0 Hshort)
    as (t & st & enc & chunks & Ht & Hhead & Hocc & Hcfl & Hmax & Henc & Hbe
        & Hn1 & Hn2 & Hwords & HF & Hfit & Hbits).
  exists enc. split; [exact Henc|].
  apply (huffman_decode_stream Q codes1 enc b chunks t len0); auto.
  cbv zeta. set (ws := map (fun c => occ c b) (map Z.of_nat (seq 0 256))).
  assert (Hlws : length ws = 256%nat)
    by (unfold ws; rewrite !length_map, length_seq; reflexivity).
  assert (Hws : forall c, 0 <= c < 256 -> get 0 ws c = occ c b)
    by (intros c Hc; unfold ws; apply get_map_byte_values; exact Hc).
  assert (Hcfws : char_frequency st = ws).
  { apply table_ext; auto. intros c Hc. rewrite (Hocc c Hc), (Hws c Hc). reflexivity. }
  assert (Hmf : run_max 0 ws = max_freq st).
  { apply (is_max_unique ws).
    - apply is_max_run_max; [exact Hlws|]. intros c Hc. rewrite (Hws c Hc).
      apply occ_nonneg.
    - rewrite <- Hcfws. exact Hmax. }
  pose proof (huff_tree_head Q _ _ t Ht Hhead) as Hloop.
  destruct (encoder_state_ok Q codes0 b Hb) as (t' & st' & Ht' & _ & Hcf' & Hmf' & _);
    auto; try lia.
  { intros ->. destruct Htwo as (x & _ & [] & _). }
  rewrite Ht in Ht'. injection Ht' as <-.
  rewrite <- Hcf', <- Hmf', Hcfws in Hloop. rewrite Hmf. exact Hloop.
Qed.

(** * Round trip *)

(** C1 (amended): for every input of at most 2^27 bytes that holds at least
    two distinct byte values and whose codes are at most 31 bits long,
    [huffman_encode] returns a buffer from which [huffman_decode], entered
    with a length of zero, returns the bytes of the input followed by one
    zero byte, and reports the length of the input plus one. *)
Theorem huffman_roundtrip (Q : priority_queue) (codes0 codes1 : list code)
    (b : list Z) :
  bytes b -> Z.of_nat (length b) <= 134217728 ->
  (exists x y, In x b /\ In y b /\ x <> y) ->
  length codes0 = 256%nat ->
  (forall st, encoder_state Q codes0 b = Some st ->
     forall c, 0 <= c < 256 -> occ c b > 0 ->
       code_length (get dcode (codes st) c) <= 31) ->
  exists enc,
    huffman_encode Q codes0 b = Some (enc, Z.of_nat (length enc)) /\
    huffman_decode Q codes1 enc 0
    = Some (map Some b ++ [Some 0], Z.of_nat (length b) + 1).
Proof.
  intros Hb Hlen Htwo Hc0 Hshort.
  destruct (huffman_decode_ok Q codes0 codes1 b 0 Hb Hlen Htwo Hc0 Hshort)
    as (enc & He & Hd); try lia.
  exists enc. split; [exact He|]. rewrite Hd. reflexivity.
Qed.

Lemma codes_short_check (cs : list code) (m : Z) :
  0 <= m -> forallb (fun cd => code_length cd <=? m) cs = true ->
  forall c, code_length (get dcode cs c) <= m.
Proof.
  intros Hm H c. unfold get.
  destruct (Nat.lt_ge_cases (Z.to_nat c) (length cs)) as [Hc|Hc].
  - rewrite forallb_forall in H. apply Z.leb_le. apply H. apply nth_In. exact Hc.
  - rewrite nth_overflow by exact Hc. cbn. exact Hm.
Qed.

Lemma huffman_roundtrip_witness :
  exists enc,
    huffman_encode list_pq (repeat dcode 256) [97; 98; 99; 99]
      = Some (enc, Z.of_nat (length enc)) /\
    huffman_decode list_pq [] enc 0
    = Some ([Some 97; Some 98; Some 99; Some 99; Some 0], 5).
Proof.
  apply (huffman_roundtrip list_pq (repeat dcode 256) [] [97; 98; 99; 99]).
  - repeat constructor; unfold is_byte; lia.
  - simpl; lia.
  - exists 97, 98. simpl. repeat split; auto. lia.
  - reflexivity.
  - intros st H c _ _. vm_compute in H. injection H as <-.
    apply codes_short_check; [lia|]. vm_compute. reflexivity.
Defined.

(** C1 (as stated, refuted): decoding the encoding of "ab" returns three
    bytes, not two. *)
Lemma huffman_roundtrip_adds_a_byte :
  exists enc n,
    huffman_encode list_pq (repeat dcode 256) [97; 98] = Some (enc, n) /\
    huffman_decode list_pq [] enc 0 = Some ([Some 97; Some 98; Some 0], 3) /\
    [Some 97; Some 98; Some 0] <> map Some [97; 98] /\
    3 <> Z.of_nat (length [97; 98]).
Proof.
  eexists. eexists. split; [vm_compute; reflexivity|].
  split; [vm_compute; reflexivity|]. split; [discriminate|]. simpl. lia.
Qed.

(** * The length [huffman_decode] reports *)



Lemma header_words_spec buf :
  length (header_words buf) = 256%nat /\
  forall j, (j < 256)%nat ->
    word_at buf (0 + 4 * Z.of_nat j) = nth j (header_words buf) 0.
Proof.
  unfold header_words. split; [rewrite !length_map, length_seq; reflexivity|].
  intros j Hj.
  assert (E : nth j (map (fun c => word_at buf (4 * c)) (map Z.of_nat (seq 0 256))) 0
              = get 0 (map (fun c => word_at buf (4 * c)) (map Z.of_nat (seq 0 256)))
                    (Z.of_nat j)).
  { unfold get. rewrite Nat2Z.id. reflexivity. }
  rewrite E, get_map_byte_values by lia. reflexivity.
Qed.




(** * The size [huffman_encode] reports *)

Lemma code_lengths_nonneg (cs : list code) b :
  (forall x, In x b -> 0 <= code_length (get dcode cs x)) ->
  0 <= sum_list (map (fun x => code_length (get dcode cs x)) b).
Proof.
  unfold sum_list. induction b as [|y b IH]; intros H; cbn [map fold_right];
    [lia|].
  specialize (H y (or_introl eq_refl)) as Hy.
  specialize (IH ltac:(intros z Hz; apply H; right; exact Hz)). lia.
Qed.

Lemma fold_wrapped_products (f : Z -> Z) : forall l acc,
  0 <= acc ->
  acc + 4294967296 * Z.of_nat (length l) < 18446744073709551616 ->
  fold_left (fun a i => wrap64 (a + wrap32 (f i))) l acc
  = acc + sum_list (map (fun i => wrap32 (f i)) l).
Proof.
  induction l as [|x l IH]; intros acc Hacc Hfit; cbn [fold_left map].
  - unfold sum_list. cbn [fold_right]. lia.
  - pose proof (wrap32_range (f x)) as Hx.
    cbn [length] in Hfit.
    assert (Hw : wrap64 (acc + wrap32 (f x)) = acc + wrap32 (f x))
      by (unfold wrap64; apply Z.mod_small; lia).
    rewrite Hw, IH by lia.
    unfold sum_list. cbn [fold_right]. lia.
Qed.

(** What [calc_out_buff_size] computes on any codec: every product is
    taken modulo 2^32, the 64-bit sum cannot overflow, and the result is
    truncated to 32 bits. *)
Lemma calc_out_buff_size_mod (st : huffman_codec) :
  calc_out_buff_size st
  = wrap32 ((sum_list
               (map (fun c => wrap32 (get 0 (char_frequency st) c
                                      * code_length (get dcode (codes st) c)))
                    (map Z.of_nat (seq 0 256))) + 7) / 8 + 1024).
Proof.
  unfold calc_out_buff_size.
  rewrite (fold_wrapped_products
             (fun c => get 0 (char_frequency st) c
                       * code_length (get dcode (codes st) c)))
    by (rewrite ?length_map, ?length_seq; lia).
  rewrite Z.add_0_l.
  set (S := sum_list _).
  assert (HS : 0 <= S <= 4294967295 * Z.of_nat (length (map Z.of_nat (seq 0 256)))).
  { unfold S. apply sum_list_bounds. intros x _.
    pose proof (wrap32_range (get 0 (char_frequency st) x
                              * code_length (get dcode (codes st) x))). lia. }
  rewrite length_map, length_seq in HS.
  assert (H7 : wrap64 (S + 7) = S + 7) by (unfold wrap64; apply Z.mod_small; lia).
  rewrite H7.
  assert (Hd : 0 <= (S + 7) / 8 <= S + 7).
  { split; [apply Z.div_pos; lia|apply Z.div_le_upper_bound; lia]. }
  assert (H8 : wrap64 ((S + 7) / 8 + 1024) = (S + 7) / 8 + 1024)
    by (unfold wrap64; apply Z.mod_small; lia).
  rewrite H8. reflexivity.
Qed.

(** [huffman_encode] continues from the codec with its codes generated:
    the size is computed, the buffer allocated and zeroed, the header and
    the codes written. *)
Lemma huffman_encode_from_state (Q : priority_queue) (codes0 : list code)
    (b : list Z) :
  huffman_encode Q codes0 b =
  match encoder_state Q codes0 b with
  | Some st =>
      match write_char_freq st
              (repeat 0 (Z.to_nat (calc_out_buff_size st))) 0 with
      | Some (buf, ptr) =>
          match encode st b buf ptr with
          | Some enc => Some (enc, calc_out_buff_size st)
          | None => None
          end
      | None => None
      end
  | None => None
  end.
Proof.
  unfold huffman_encode, encoder_state, with_codes.
  destruct (huff_tree Q (count_chars b (new_codec codes0))) as [st1|];
    [|reflexivity].
  destruct (gen_codes st1) as [st|]; reflexivity.
Qed.

(** The encoder returns, with a buffer of the exact size, as soon as the
    codes have at most 31 bits and neither a product nor the size wraps. *)
Lemma huffman_encode_sized (Q : priority_queue) (codes0 : list code)
    (b : list Z) (st : huffman_codec) :
  bytes b -> Z.of_nat (length b) < 4294967295 ->
  length (char_frequency st) = 256%nat ->
  (forall c, 0 <= c < 256 -> get 0 (char_frequency st) c = occ c b) ->
  encoder_state Q codes0 b = Some st ->
  (forall x, In x b ->
     0 <= code_length (get dcode (codes st) x) <= 31 /\
     0 <= code_value (get dcode (codes st) x)
       < 2 ^ code_length (get dcode (codes st) x)) ->
  let total :=
    sum_list (map (fun c => occ c b * code_length (get dcode (codes st) c))
                  (map Z.of_nat (seq 0 256))) in
  (forall c, 0 <= c < 256 ->
     occ c b * code_length (get dcode (codes st) c) < 4294967296) ->
  (total + 7) / 8 + 1024 < 4294967296 ->
  calc_out_buff_size st = (total + 7) / 8 + 1024 /\
  exists enc,
    huffman_encode Q codes0 b = Some (enc, (total + 7) / 8 + 1024) /\
    Z.of_nat (length enc) = (total + 7) / 8 + 1024.
Proof.
  intros Hb Hlen Hcfl Hocc Hst Hcode total Hprod Hfit.
  set (cs := codes st) in *.
  set (T := sum_list (map (fun x => code_length (get dcode cs x)) b)).
  assert (ET : total = T).
  { unfold total, T.
    apply (weighted_sum (fun x => code_length (get dcode cs x)) b Hb). }
  assert (HT : 0 <= T).
  { apply code_lengths_nonneg. intros x Hx. apply Hcode, Hx. }
  assert (Hsize : calc_out_buff_size st = (total + 7) / 8 + 1024).
  { assert (E : forall c, In c (map Z.of_nat (seq 0 256)) ->
              get 0 (char_frequency st) c * code_length (get dcode (codes st) c)
              = occ c b * code_length (get dcode cs c)).
    { intros c Hc. apply byte_values_In in Hc. rewrite (Hocc c Hc). reflexivity. }
    rewrite calc_out_buff_size_exact.
    - rewrite (map_ext_in _ _ _ E). reflexivity.
    - intros c Hc. rewrite (E c (proj2 (byte_values_In c) Hc)).
      split; [|apply Hprod, Hc].
      pose proof (occ_nonneg c b).
      destruct (Z.eq_dec (occ c b) 0) as [E0|E0]; [rewrite E0; lia|].
      destruct (Hcode c (occ_pos_In c b ltac:(lia))) as [Hl _].
      fold cs in Hl. nia.
    - rewrite (map_ext_in _ _ _ E). exact Hfit. }
  split; [exact Hsize|].
  rewrite ET in Hsize, Hfit |- *.
  assert (Hn0 : 0 <= (T + 7) / 8) by (apply Z.div_pos; lia).
  set (n := (T + 7) / 8 + 1024) in *.
  assert (Hn8 : 8 * 1024 + T <= 8 * n).
  { unfold n. pose proof (Z.div_mod (T + 7) 8 ltac:(lia)).
    pose proof (Z.mod_pos_bound (T + 7) 8 ltac:(lia)). lia. }
  destruct (write_words_spec (char_frequency st) (repeat 0 (Z.to_nat n)) 0)
    as (buf1 & Hw & Hl1 & Hb1 & Hwords & Hout1).
  { lia. }
  { rewrite Hcfl, repeat_length. lia. }
  { apply table_Forall; [exact Hcfl|]. intros c Hc. rewrite (Hocc c Hc).
    pose proof (occ_nonneg c b). pose proof (occ_le_length c b). lia. }
  { apply bytes_repeat_zero. }
  rewrite Hcfl in Hw, Hout1. rewrite repeat_length in Hl1.
  change (0 + 4 * Z.of_nat 256) with 1024 in Hw, Hout1.
  destruct (encode_loop_spec cs b buf1 (mkCursor 1024 0))
    as (enc & He & Hl2 & Hb2 & _).
  { unfold valid_cursor; cbn; lia. }
  { exact Hb1. }
  { exact Hcode. }
  { unfold bitpos; cbn [bytePtr curBit]. fold T. rewrite Hl1. lia. }
  { intros q Hq. unfold bitpos in Hq; cbn [bytePtr curBit] in Hq.
    unfold getbit. assert (1024 <= q / 8) by (apply Z.div_le_lower_bound; lia).
    rewrite Hout1 by lia. unfold get. rewrite nth_repeat. apply Z.testbit_0_l. }
  exists enc. split; [|rewrite Hl2, Hl1; lia].
  rewrite huffman_encode_from_state, Hst, Hsize.
  unfold write_char_freq, encode. fold cs. rewrite Hw, He. reflexivity.
Qed.

(** C7 (amended): for every non-empty input of fewer than 2^32 - 1 bytes
    the size [huffman_encode] computes is
    [(bits + 7) / 8 + 1024] reduced modulo 2^32, where [bits] adds up, over
    the 256 byte values, frequency times code length, each product reduced
    modulo 2^32; whatever [huffman_encode] returns carries that size.  When
    every code in use has at most 31 bits, no product reaches 2^32 and
    [ceil(total / 8) + 1024] is below 2^32, [total] being the exact sum of
    the products, [huffman_encode] returns a buffer of exactly
    [ceil(total / 8) + 1024] bytes and reports that size. *)
Theorem encode_size (Q : priority_queue) (codes0 : list code) (b : list Z) :
  bytes b -> b <> [] -> Z.of_nat (length b) < 4294967295 ->
  length codes0 = 256%nat ->
  exists st,
    encoder_state Q codes0 b = Some st /\
    calc_out_buff_size st
    = wrap32 ((sum_list
                 (map (fun c => wrap32 (occ c b
                                        * code_length (get dcode (codes st) c)))
                      (map Z.of_nat (seq 0 256))) + 7) / 8 + 1024) /\
    (forall enc n, huffman_encode Q codes0 b = Some (enc, n) ->
       n = calc_out_buff_size st) /\
    let total :=
      sum_list (map (fun c => occ c b * code_length (get dcode (codes st) c))
                    (map Z.of_nat (seq 0 256))) in
    ((forall c, 0 <= c < 256 -> occ c b > 0 ->
        code_length (get dcode (codes st) c) <= 31) ->
     (forall c, 0 <= c < 256 ->
        occ c b * code_length (get dcode (codes st) c) < 4294967296) ->
     (total + 7) / 8 + 1024 < 4294967296 ->
     calc_out_buff_size st = (total + 7) / 8 + 1024 /\
     exists enc,
       huffman_encode Q codes0 b = Some (enc, (total + 7) / 8 + 1024) /\
       Z.of_nat (length enc) = (total + 7) / 8 + 1024).
Proof.
  intros Hb Hne Hlen Hc0.
  destruct (encoder_state_ok Q codes0 b Hb Hne Hlen Hc0)
    as (t & st & Ht & Hhead & Hcf & Hmf & Hcodes0 & Hst & Hocc & Hnd & Hin & Hcl & Hcodes).
  set (st3 := {| sorted_leaf_nodes := sorted_leaf_nodes st; head := Some t;
                 char_frequency := char_frequency st; max_freq := max_freq st;
                 codes := gen_codes_from t (mkCode 0 0) codes0 |}) in *.
  assert (Hcfl : length (char_frequency st3) = 256%nat).
  { unfold st3. cbn [char_frequency]. rewrite Hcf.
    destruct (count_chars_fields b (new_codec codes0)) as (-> & _ & _).
    rewrite count_loop_length. reflexivity. }
  assert (Hocc3 : forall c, 0 <= c < 256 -> get 0 (char_frequency st3) c = occ c b)
    by exact Hocc.
  exists st3. split; [exact Hst|]. split; [|split].
  - rewrite calc_out_buff_size_mod.
    rewrite (map_ext_in
      (fun c => wrap32 (get 0 (char_frequency st3) c
                        * code_length (get dcode (codes st3) c)))
      (fun c => wrap32 (occ c b * code_length (get dcode (codes st3) c))));
      [reflexivity|].
    intros c Hc. apply byte_values_In in Hc.
    rewrite (Hocc3 c Hc). reflexivity.
  - intros enc n. rewrite huffman_encode_from_state, Hst.
    destruct (write_char_freq st3 _ 0) as [[buf1 ptr]|]; [|discriminate].
    destruct (encode st3 b buf1 ptr); [|discriminate].
    intros E. congruence.
  - cbv zeta. intros Hshort Hprod Hfit.
    apply (huffman_encode_sized Q codes0 b st3 Hb Hlen Hcfl Hocc3 Hst);
      [|exact Hprod|exact Hfit].
    intros x Hx.
    assert (Hxo : occ x b > 0) by (apply In_occ_pos; exact Hx).
    assert (Hxr : 0 <= x < 256)
      by (apply (proj1 (Forall_forall _ _) Hb); exact Hx).
    destruct (leaves_In_path t x) as (p & Hp); [apply Hin; auto|].
    pose proof (path_length_bound t x p Hp) as Hpl.
    pose proof (leaves_length_bound t Hnd) as Hll.
    specialize (Hll ltac:(intros c' Hc'; apply Hin in Hc'; tauto)).
    specialize (Hshort x Hxr Hxo). unfold st3 in Hshort |- *.
    cbn [codes] in Hshort |- *. rewrite (Hcodes x p Hp) in Hshort |- *.
    rewrite extend_length in Hshort by (cbn [code_length]; lia).
    cbn [code_length] in Hshort.
    destruct (extend_code_bits p ltac:(lia)) as (E1 & E2 & _).
    rewrite E1. split; [lia|exact E2].
Qed.

Lemma encode_size_witness :
  exists enc,
    huffman_encode list_pq (repeat dcode 256) [97; 98; 99; 99]
      = Some (enc, 1025) /\
    Z.of_nat (length enc) = 1025.
Proof.
  destruct (encode_size list_pq (repeat dcode 256) [97; 98; 99; 99])
    as (st & Hst & _ & _ & Hsize).
  - repeat constructor; unfold is_byte; lia.
  - discriminate.
  - simpl; lia.
  - reflexivity.
  - vm_compute in Hst. injection Hst as <-.
    destruct Hsize as (_ & enc & Henc & Hlen).
    + intros c _ _. apply codes_short_check; [lia|vm_compute; reflexivity].
    + intros c Hc.
      assert (Ho : occ c [97; 98; 99; 99] <= 4)
        by (pose proof (occ_le_length c [97; 98; 99; 99]); simpl length in *; lia).
      pose proof (occ_nonneg c [97; 98; 99; 99]).
      match goal with |- _ * code_length (get dcode ?cs c) < _ =>
        assert (Hc2 : code_length (get dcode cs c) <= 2)
          by (apply codes_short_check; [lia|vm_compute; reflexivity])
      end.
      nia.
    + vm_compute. reflexivity.
    + exists enc. split; [exact Henc|exact Hlen].
Defined.

(** * Inputs given by runs *)

Lemma occ_repeat c x n : occ c (repeat x n) = if x =? c then Z.of_nat n else 0.
Proof.
  induction n as [|n IH]; cbn [repeat occ].
  - destruct (x =? c); reflexivity.
  - rewrite IH. destruct (x =? c); lia.
Qed.

Lemma occ_blocks c spec :
  Forall (fun cn => 0 <= snd cn) spec ->
  occ c (blocks spec) = spec_count spec c.
Proof.
  induction 1 as [|[x n] spec Hn _ IH]; [reflexivity|].
  unfold blocks, spec_count in *. cbn [flat_map map sum_list fold_right fst snd] in *.
  rewrite occ_app, occ_repeat, IH. unfold sum_list.
  destruct (x =? c); lia.
Qed.

Lemma length_blocks spec :
  Forall (fun cn => 0 <= snd cn) spec ->
  Z.of_nat (length (blocks spec)) = sum_list (map snd spec).
Proof.
  induction 1 as [|[x n] spec Hn _ IH]; [reflexivity|].
  unfold blocks in *. cbn [flat_map map sum_list fold_right fst snd] in *.
  rewrite length_app, repeat_length. unfold sum_list in *. lia.
Qed.

Lemma bytes_blocks spec :
  Forall (fun cn => 0 <= fst cn < 256) spec -> bytes (blocks spec).
Proof.
  induction 1 as [|[x n] spec Hx _ IH]; [constructor|].
  unfold blocks, bytes in *. cbn [flat_map fst snd] in *.
  apply Forall_app. split; [|exact IH].
  apply Forall_forall. intros y Hy. apply repeat_spec in Hy. subst. exact Hx.
Qed.

Lemma count_chars_eq b st :
  count_chars b st =
  {| sorted_leaf_nodes := sorted_leaf_nodes st;
     head := head st;
     char_frequency := fst (count_loop b (char_frequency st) 0);
     max_freq := snd (count_loop b (char_frequency st) 0);
     codes := codes st |}.
Proof.
  unfold count_chars. destruct (count_loop b (char_frequency st) 0). reflexivity.
Qed.

Lemma is_max_check T M :
  length T = 256%nat ->
  forallb (fun w => w <=? M) T && existsb (fun w => w =? M) T = true ->
  is_max T M.
Proof.
  intros Hl H. apply andb_prop in H. destruct H as [H1 H2]. split.
  - intros c Hc. rewrite forallb_forall in H1. apply Z.leb_le, H1, get_In. lia.
  - apply existsb_exists in H2. destruct H2 as (w & Hw & E).
    apply Z.eqb_eq in E. subst w.
    apply In_nth with (d := 0) in Hw. destruct Hw as (n & Hn & E).
    exists (Z.of_nat n). split; [lia|]. unfold get. rewrite Nat2Z.id. auto.
Qed.

(** Counting an input given by runs on a fresh codec. *)
Lemma count_chars_blocks codes0 spec M :
  Forall (fun cn => 0 <= fst cn < 256) spec ->
  Forall (fun cn => 0 <= snd cn) spec ->
  sum_list (map snd spec) < 4294967296 ->
  is_max (spec_table spec) M ->
  count_chars (blocks spec) (new_codec codes0) =
  {| sorted_leaf_nodes := []; head := None;
     char_frequency := spec_table spec; max_freq := M; codes := codes0 |}.
Proof.
  intros Hc Hn Hsum Hmax.
  destruct (count_chars_fresh (blocks spec) (new_codec codes0)) as (F1 & F2 & F3).
  { apply bytes_blocks, Hc. }
  { reflexivity. }
  { rewrite length_blocks by exact Hn. exact Hsum. }
  { intros c Hc'. change (char_frequency (new_codec codes0)) with (repeat 0 256).
    apply get_repeat. lia. }
  rewrite count_chars_eq in *. cbn [char_frequency max_freq] in F1, F2, F3.
  cbn [new_codec sorted_leaf_nodes head codes char_frequency] in *.
  assert (E1 : fst (count_loop (blocks spec) (repeat 0 256) 0) = spec_table spec).
  { apply table_ext.
    - rewrite count_loop_length, repeat_length. reflexivity.
    - unfold spec_table. rewrite !length_map, length_seq. reflexivity.
    - intros c Hc'. rewrite (F1 c Hc'), occ_blocks by exact Hn.
      unfold spec_table. rewrite get_map_byte_values by exact Hc'. reflexivity. }
  assert (E2 : snd (count_loop (blocks spec) (repeat 0 256) 0) = M).
  { apply (is_max_unique (spec_table spec)); [|exact Hmax].
    rewrite <- E1. split.
    - intros c Hc'. rewrite (F1 c Hc'). apply F2, Hc'.
    - destruct F3 as (c & Hc' & E). exists c. split; [exact Hc'|].
      rewrite (F1 c Hc'). exact E. }
  rewrite E1, E2. reflexivity.
Qed.

Lemma spec_check spec :
  forallb (fun cn => (0 <=? fst cn) && (fst cn <? 256) && (0 <=? snd cn)) spec
  = true ->
  Forall (fun cn => 0 <= fst cn < 256) spec /\ Forall (fun cn => 0 <= snd cn) spec.
Proof.
  intros H. rewrite forallb_forall in H.
  split; apply Forall_forall; intros cn Hcn; specialize (H cn Hcn);
    apply andb_prop in H; destruct H as [H H3];
    apply andb_prop in H; destruct H as [H1 H2]; lia.
Qed.

(** What is known of an input given by runs, with the input itself kept
    abstract. *)
Lemma blocks_facts codes0 spec M :
  forallb (fun cn => (0 <=? fst cn) && (fst cn <? 256) && (0 <=? snd cn)) spec
  = true ->
  (sum_list (map snd spec) <? 4294967296) = true ->
  forallb (fun w => w <=? M) (spec_table spec)
  && existsb (fun w => w =? M) (spec_table spec) = true ->
  Z.of_nat (length (blocks spec)) = sum_list (map snd spec) /\
  bytes (blocks spec) /\
  (forall c, occ c (blocks spec) = spec_count spec c) /\
  encoder_state list_pq codes0 (blocks spec) =
  with_codes list_pq
    {| sorted_leaf_nodes := []; head := None;
       char_frequency := spec_table spec; max_freq := M; codes := codes0 |}.
Proof.
  intros Hc Hs Hm. destruct (spec_check spec Hc) as [H1 H2].
  split; [apply length_blocks, H2|]. split; [apply bytes_blocks, H1|].
  split; [intros c; apply occ_blocks, H2|].
  unfold encoder_state.
  rewrite (count_chars_blocks codes0 spec M H1 H2); [reflexivity| |].
  - apply Z.ltb_lt, Hs.
  - apply is_max_check; [|exact Hm].
    unfold spec_table. rewrite !length_map, length_seq. reflexivity.
Qed.

Lemma store_some {A} (buf : list A) i v buf' :
  store buf i v = Some buf' ->
  0 <= i < Z.of_nat (length buf) /\ length buf' = length buf.
Proof.
  unfold store.
  destruct ((0 <=? i) && (i <? Z.of_nat (length buf))) eqn:E; [|discriminate].
  intros H. injection H as <-. rewrite length_set.
  apply andb_prop in E. destruct E as [E1 E2].
  apply Z.leb_le in E1. apply Z.ltb_lt in E2. split; [lia|reflexivity].
Qed.

Lemma store32_some buf i v buf' :
  store32 buf i v = Some buf' ->
  i + 3 < Z.of_nat (length buf) /\ length buf' = length buf.
Proof.
  unfold store32. intros H.
  destruct (store buf i (v mod 256)) as [b0|] eqn:E0; [|discriminate].
  destruct (store b0 (i + 1) ((v / 256) mod 256)) as [b1|] eqn:E1;
    [|discriminate].
  destruct (store b1 (i + 2) ((v / 65536) mod 256)) as [b2|] eqn:E2;
    [|discriminate].
  apply store_some in E0, E1, E2, H.
  destruct E0 as [_ L0], E1 as [_ L1], E2 as [_ L2], H as [H3 L3].
  split; [lia|congruence].
Qed.

Lemma write_words_short : forall ws buf ptr,
  ws <> [] -> Z.of_nat (length buf) < ptr + 4 * Z.of_nat (length ws) ->
  write_words ws buf ptr = None.
Proof.
  induction ws as [|w ws IH]; intros buf ptr Hne Hshort; [congruence|].
  cbn [write_words]. destruct (store32 buf ptr w) as [buf'|] eqn:E;
    [|reflexivity].
  apply store32_some in E. destruct E as [Hin Hl].
  cbn [length] in Hshort.
  destruct ws as [|w' ws']; [cbn [length] in Hshort; lia|].
  apply IH; [discriminate|]. rewrite Hl. lia.
Qed.

(** A computed size below 1024 cannot hold the header: [write_char_freq]
    leaves the buffer and [huffman_encode] has no defined result. *)
Lemma huffman_encode_header_overflow (Q : priority_queue) (codes0 : list code)
    (b : list Z) (st : huffman_codec) :
  encoder_state Q codes0 b = Some st ->
  length (char_frequency st) = 256%nat ->
  calc_out_buff_size st < 1024 ->
  huffman_encode Q codes0 b = None.
Proof.
  intros Hst Hl Hsmall. rewrite huffman_encode_from_state, Hst.
  unfold write_char_freq. rewrite write_words_short; [reflexivity| |].
  - intros E. rewrite E in Hl. discriminate.
  - rewrite Hl, repeat_length. lia.
Qed.

(** C7 (as stated, refuted): an input of 2^32 - 2 bytes in which the 256
    byte values are almost equally frequent gets 8-bit codes throughout;
    [ceil(total / 8) + 1024] is 2^32 + 1022, the size [huffman_encode]
    computes is 1022, and a buffer of 1022 bytes does not even hold the
    header: no buffer of the size the claim states is returned. *)
Lemma encode_size_wraps :
  Z.of_nat (length (blocks uniform_4G)) = 4294967294 /\
  bytes (blocks uniform_4G) /\
  (exists st,
    encoder_state list_pq (repeat dcode 256) (blocks uniform_4G) = Some st /\
    calc_out_buff_size st = 1022 /\
    (sum_list (map (fun c => occ c (blocks uniform_4G)
                             * code_length (get dcode (codes st) c))
                   (map Z.of_nat (seq 0 256))) + 7) / 8 + 1024
    = 4294968318) /\
  huffman_encode list_pq (repeat dcode 256) (blocks uniform_4G) = None.
Proof.
  destruct (blocks_facts (repeat dcode 256) uniform_4G 16777216)
    as (HL & HB & HO & HE);
    [vm_compute; reflexivity|vm_compute; reflexivity|vm_compute; reflexivity|].
  revert HL HB HO HE. generalize (blocks uniform_4G). intros b HL HB HO HE.
  split; [rewrite HL; vm_compute; reflexivity|].
  split; [exact HB|].
  assert (Hst : exists st,
            encoder_state list_pq (repeat dcode 256) b = Some st /\
            length (char_frequency st) = 256%nat /\
            calc_out_buff_size st = 1022 /\
            (sum_list (map (fun c => spec_count uniform_4G c
                                     * code_length (get dcode (codes st) c))
                           (map Z.of_nat (seq 0 256))) + 7) / 8 + 1024
            = 4294968318).
  { rewrite HE. eexists. split; [vm_compute; reflexivity|].
    split; [vm_compute; reflexivity|].
    split; vm_compute; reflexivity. }
  destruct Hst as (st & Hst & Hl & Hcalc & Htot).
  split.
  - exists st. split; [exact Hst|]. split; [exact Hcalc|].
    rewrite (map_ext _ (fun c => spec_count uniform_4G c
                                 * code_length (get dcode (codes st) c)))
      by (intros c; rewrite HO; reflexivity).
    exact Htot.
  - apply (huffman_encode_header_overflow list_pq (repeat dcode 256) b st Hst Hl).
    rewrite Hcalc. lia.
Qed.

(** C9 (as stated, refuted): with Fibonacci frequencies the tree is a chain
    33 levels deep.  The byte 0 gets a code of length 33 whose value has
    lost its leading bit, so that the one-bit code of the byte 33 is a
    prefix of it. *)
Lemma codes_not_prefix_free :
  Z.of_nat (length (blocks fibonacci_runs)) = 9227465 /\
  bytes (blocks fibonacci_runs) /\
  occ 33 (blocks fibonacci_runs) > 0 /\ occ 0 (blocks fibonacci_runs) > 0 /\
  exists st,
    encoder_state list_pq (repeat dcode 256) (blocks fibonacci_runs) = Some st /\
    get dcode (codes st) 33 = mkCode 1 0 /\
    get dcode (codes st) 0 = mkCode 33 4294967294 /\
    is_prefix (code_bits (get dcode (codes st) 33))
              (code_bits (get dcode (codes st) 0)).
Proof.
  destruct (blocks_facts (repeat dcode 256) fibonacci_runs 3524578)
    as (HL & HB & HO & HE);
    [vm_compute; reflexivity|vm_compute; reflexivity|vm_compute; reflexivity|].
  revert HL HB HO HE. generalize (blocks fibonacci_runs). intros b HL HB HO HE.
  split; [rewrite HL; vm_compute; reflexivity|].
  split; [exact HB|].
  split; [rewrite HO; vm_compute; reflexivity|].
  split; [rewrite HO; vm_compute; reflexivity|].
  rewrite HE.
  eexists. split; [vm_compute; reflexivity|].
  split; [vm_compute; reflexivity|]. split; [vm_compute; reflexivity|].
  eexists. vm_compute. reflexivity.
Qed.

(** * A single symbol *)

Lemma single_leaf_tree t c :
  NoDup (leaves_of t) -> (forall i, In i (leaves_of t) -> i = c) ->
  exists k, t = Leaf c k.
Proof.
  destruct t as [ch k|k l r]; cbn [leaves_of]; intros Hnd Hall.
  - exists k. f_equal. apply Hall. left; reflexivity.
  - exfalso.
    destruct (leaves_of l) as [|x xs] eqn:El; [exact (leaves_of_nonempty l El)|].
    destruct (leaves_of r) as [|y ys] eqn:Er; [exact (leaves_of_nonempty r Er)|].
    assert (x = c) by (apply Hall; left; reflexivity).
    assert (y = c) by (apply Hall, in_or_app; right; left; reflexivity).
    subst. apply (NoDup_app_disj _ _ c Hnd); left; reflexivity.
Qed.

Lemma one_bit_chunks c k (f : nat -> bool) : forall n start,
  Forall2 (chunk_for (Leaf c k)) (repeat c n)
          (map (fun j => [f j]) (seq start n)).
Proof.
  induction n as [|n IH]; intros start; cbn [repeat seq map]; constructor.
  - cbn. auto.
  - apply IH.
Qed.

Lemma concat_singletons (f : nat -> bool) l :
  concat (map (fun j => [f j]) l) = map f l.
Proof. induction l as [|x l IH]; cbn; [reflexivity|]. rewrite IH. reflexivity. Qed.

Lemma header_words_get buf c :
  0 <= c < 256 -> word_at buf (4 * c) = get 0 (header_words buf) c.
Proof.
  intros Hc. unfold header_words.
  rewrite (get_map_byte_values (fun c => word_at buf (4 * c))) by exact Hc.
  reflexivity.
Qed.

Lemma single_symbol_tree_gen (Q : priority_queue) (ws : list Z) (mf c n : Z) :
  0 <= c < 256 -> 0 < n -> n + 1 < 4294967296 ->
  (forall i, 0 <= i < 256 -> get 0 ws i = if i =? c then n else 0) ->
  exists k,
    huff_loop Q 512
      (make_leaves ws (sorted_chars ws mf) ++ [Leaf 0 LAST_NODE])
      (pq_new Q) = Some (Leaf c k).
Proof.
  intros Hc Hn0 Hn1 Hws.
  pose (st := {| sorted_leaf_nodes := []; head := None;
                 char_frequency := ws; max_freq := mf; codes := [] |}).
  assert (H1 : forall i, 0 <= i < 256 -> get 0 (char_frequency st) i <> LAST_NODE).
  { intros i Hi. unfold st. cbn [char_frequency]. rewrite (Hws i Hi).
    unfold LAST_NODE, UINT_MAX. destruct (i =? c); lia. }
  assert (H2 : exists i, 0 <= i < 256 /\ get 0 (char_frequency st) i > 0).
  { exists c. split; [exact Hc|]. unfold st. cbn [char_frequency].
    rewrite (Hws c Hc), Z.eqb_refl. lia. }
  destruct (huff_tree_ok Q st H1 H2) as (t & _ & Hloop & Hnd & Hin).
  unfold st in Hloop, Hin. cbn [char_frequency max_freq] in Hin, Hloop.
  destruct (single_leaf_tree t c Hnd) as (k & Ek).
  { intros i Hi. apply Hin in Hi. destruct Hi as [Hi Hpos].
    rewrite (Hws i Hi) in Hpos.
    destruct (Z.eqb_spec i c); [assumption|lia]. }
  exists k. rewrite <- Ek. exact Hloop.
Qed.

Lemma single_symbol_tree (Q : priority_queue) (c n : Z) :
  0 <= c < 256 -> 0 < n -> n + 1 < 4294967296 ->
  exists k,
    huff_loop Q 512
      (make_leaves (map (fun i => occ i (repeat c (Z.to_nat n)))
                        (map Z.of_nat (seq 0 256)))
         (sorted_chars (map (fun i => occ i (repeat c (Z.to_nat n)))
                            (map Z.of_nat (seq 0 256)))
            (run_max 0 (map (fun i => occ i (repeat c (Z.to_nat n)))
                            (map Z.of_nat (seq 0 256)))))
       ++ [Leaf 0 LAST_NODE])
      (pq_new Q) = Some (Leaf c k).
Proof.
  intros Hc Hn0 Hn1.
  apply (single_symbol_tree_gen Q _ _ c n Hc Hn0 Hn1).
  intros i Hi.
  rewrite (get_map_byte_values (fun i => occ i (repeat c (Z.to_nat n)))) by exact Hi.
  rewrite occ_repeat, Z.eqb_sym. destruct (i =? c); lia.
Qed.

(** When the header names a single byte value, [decode] emits it once per
    bit it reads, whatever the bit: the result is right provided the buffer
    holds as many bits after the header as the header counts bytes. *)
Lemma single_symbol_decode (Q : priority_queue) (codes1 : list code)
    (c n : Z) (buf : list Z) :
  0 <= c < 256 -> 0 < n -> n + 1 < 4294967296 ->
  bytes buf -> 1024 <= Z.of_nat (length buf) ->
  header_words buf
    = map (fun i => if i =? c then n else 0) (map Z.of_nat (seq 0 256)) ->
  8 * 1024 + n <= 8 * Z.of_nat (length buf) ->
  huffman_decode Q codes1 buf 0
  = Some (map Some (repeat c (Z.to_nat n)) ++ [Some 0], n + 1).
Proof.
  intros Hc Hn0 Hn1 Hb Hlen Hhdr Hfit.
  destruct (single_symbol_tree Q c n Hc Hn0 Hn1) as (k & Hloop).
  assert (Hocc : forall i, occ i (repeat c (Z.to_nat n)) = if i =? c then n else 0).
  { intros i. rewrite occ_repeat, Z.eqb_sym. destruct (i =? c); lia. }
  assert (Hlb : Z.of_nat (length (repeat c (Z.to_nat n))) = n)
    by (rewrite repeat_length; lia).
  rewrite (huffman_decode_stream Q codes1 buf (repeat c (Z.to_nat n))
           (map (fun j => [getbit buf (8 * 1024 + Z.of_nat j)])
                (seq 0 (Z.to_nat n))) (Leaf c k) 0); auto; try lia.
  - rewrite Hlb. reflexivity.
  - apply Forall_forall. intros x Hx. apply repeat_spec in Hx. rewrite Hx. exact Hc.
  - intros i Hi. rewrite header_words_get, Hhdr by exact Hi.
    rewrite (get_map_byte_values (fun i => if i =? c then n else 0)) by exact Hi.
    symmetry. apply Hocc.
  - apply one_bit_chunks.
  - rewrite concat_singletons, length_map, length_seq. lia.
  - intros j Hj. rewrite concat_singletons in *. rewrite length_map, length_seq in Hj.
    rewrite (nth_indep _ false (getbit buf (8 * 1024 + Z.of_nat 0)))
      by (rewrite length_map, length_seq; exact Hj).
    rewrite (map_nth (fun j => getbit buf (8 * 1024 + Z.of_nat j))).
    rewrite seq_nth by exact Hj. reflexivity.
Qed.

Lemma header_words_app buf tail :
  1024 <= Z.of_nat (length buf) ->
  header_words (buf ++ tail) = header_words buf.
Proof.
  intros Hl. unfold header_words. apply map_ext_in. intros c Hc.
  apply byte_values_In in Hc. apply word_at_ext; [lia|].
  intros j Hj. unfold get. apply app_nth1. lia.
Qed.

Lemma bytes_check l :
  forallb (fun x => (0 <=? x) && (x <? 256)) l = true -> bytes l.
Proof.
  intros H. rewrite forallb_forall in H. apply Forall_forall. intros x Hx.
  specialize (H x Hx). apply andb_prop in H. destruct H. red. lia.
Qed.

(** C2 (code defect): for 1000 copies of the byte 0x41 the header is as
    claimed and no bit is packed, so that the encoded buffer ends with the
    header; [decode] nevertheless reads one bit for every byte it emits and
    leaves the buffer with its first read.  The 1000 copies (and the
    terminator) come out whenever at least 125 readable bytes, of any
    content, happen to follow the buffer. *)
Theorem single_symbol_decode_overreads :
  let enc := encoded list_pq (repeat dcode 256) (repeat 65 1000) in
  huffman_encode list_pq (repeat dcode 256) (repeat 65 1000) = Some (enc, 1024) /\
  length enc = 1024%nat /\
  header_words enc
    = map (fun i => if i =? 65 then 1000 else 0) (map Z.of_nat (seq 0 256)) /\
  bitRead 1 enc (mkCursor 1024 0) = None /\
  huffman_decode list_pq [] enc 0 = None /\
  forall tail, bytes tail -> (125 <= length tail)%nat ->
    huffman_decode list_pq [] (enc ++ tail) 0
    = Some (map Some (repeat 65 1000) ++ [Some 0], 1001).
Proof.
  intros enc.
  assert (E1 : huffman_encode list_pq (repeat dcode 256) (repeat 65 1000)
               = Some (enc, 1024)) by (vm_compute; reflexivity).
  assert (E2 : length enc = 1024%nat) by (vm_compute; reflexivity).
  assert (E3 : header_words enc
               = map (fun i => if i =? 65 then 1000 else 0)
                     (map Z.of_nat (seq 0 256))) by (vm_compute; reflexivity).
  assert (E4 : bitRead 1 enc (mkCursor 1024 0) = None) by (vm_compute; reflexivity).
  assert (E5 : huffman_decode list_pq [] enc 0 = None) by (vm_compute; reflexivity).
  assert (E6 : bytes enc) by (apply bytes_check; vm_compute; reflexivity).
  clearbody enc.
  repeat (split; [assumption|]).
  intros tail Ht Hl.
  change 1001 with (1000 + 1).
  change (repeat 65 1000) with (repeat 65 (Z.to_nat 1000)).
  apply single_symbol_decode; try lia.
  - apply Forall_app. split; assumption.
  - rewrite length_app. lia.
  - rewrite header_words_app by lia. exact E3.
  - rewrite length_app. lia.
Qed.

(** * Closed instances *)

Lemma codes_prefix_free_witness :
  exists st,
    encoder_state list_pq (repeat dcode 256) [97; 98; 99; 99] = Some st /\
    ~ is_prefix (code_bits (get dcode (codes st) 97))
                (code_bits (get dcode (codes st) 99)).
Proof.
  destruct (codes_prefix_free list_pq (repeat dcode 256) [97; 98; 99; 99])
    as (st & Hst & H).
  - repeat constructor; unfold is_byte; lia.
  - discriminate.
  - simpl; lia.
  - reflexivity.
  - exists st. split; [exact Hst|].
    apply H; try lia; try (vm_compute; reflexivity).
    intros c _ _. vm_compute in Hst. injection Hst as <-.
    apply codes_short_check; [lia|]. vm_compute. reflexivity.
Defined.

Lemma decode_stops_at_zero_witness :
  let hd := Internal 2 (Leaf 97 1) (Leaf 98 1) in
  let cf := map (fun c => occ c [97; 98]) (map Z.of_nat (seq 0 256)) in
  let s0 := mkDecode (mkCursor 0 0) hd [None; None] 0 cf (nonzero_count cf) in
  exists k sf,
    decode_iter k hd [64] s0 = Some sf /\
    decode_loop (S (8 * length [64])) hd [64] s0 = Some sf /\
    nonzero_count (remaining sf) = 0 /\
    uniqueChars sf = 0 /\
    outPos sf = sum_list cf /\
    out sf = write_out [None; None] 0 [97; 98] /\
    forall j, (j < k)%nat ->
      exists sj, decode_iter j hd [64] s0 = Some sj /\
        0 < nonzero_count (remaining sj) /\
        uniqueChars sj = nonzero_count (remaining sj).
Proof.
  intros hd cf.
  apply (decode_stops_at_zero hd [64] 0 cf [97; 98] [[false]; [true]]
           [None; None]).
  - reflexivity.
  - repeat constructor; unfold is_byte; lia.
  - simpl; lia.
  - intros c Hc. unfold cf. apply get_map_byte_values. exact Hc.
  - constructor; [cbn; auto|].
    constructor; [cbn; auto|constructor].
  - repeat constructor; unfold is_byte; lia.
  - lia.
  - simpl; lia.
  - intros j Hj. simpl in Hj.
    destruct j as [|[|j]]; [vm_compute; reflexivity|vm_compute; reflexivity|lia].
  - simpl; lia.
Defined.

(** * The frequency counter, continued *)

Lemma count_loop_app b1 : forall b2 cf mf,
  count_loop (b1 ++ b2) cf mf
  = count_loop b2 (fst (count_loop b1 cf mf)) (snd (count_loop b1 cf mf)).
Proof.
  induction b1 as [|c b1 IH]; intros b2 cf mf; cbn [app count_loop fst snd];
    [reflexivity|apply IH].
Qed.

Lemma count_loop_table b : forall cf mf mf',
  fst (count_loop b cf mf) = fst (count_loop b cf mf').
Proof.
  induction b as [|c b IH]; intros cf mf mf'; cbn [count_loop fst];
    [reflexivity|apply IH].
Qed.

(** X1: counting a second buffer with the same codec continues the table of
    the first: the counters after [count_chars b1] followed by
    [count_chars b2] are those of one call on [b1] followed by [b2]. *)
Theorem count_chars_accumulates (b1 b2 : list Z) (st : huffman_codec) :
  char_frequency (count_chars b2 (count_chars b1 st))
  = char_frequency (count_chars (b1 ++ b2) st).
Proof.
  destruct (count_chars_fields b2 (count_chars b1 st)) as (-> & _).
  destruct (count_chars_fields b1 st) as (-> & _).
  destruct (count_chars_fields (b1 ++ b2) st) as (-> & _).
  rewrite count_loop_app. apply count_loop_table.
Qed.

(** X2: on a freshly constructed codec the 256 counters add up to the length
    of the input, and [max_freq] lies between 1 and that length as soon as
    the input is not empty. *)
Theorem count_chars_total (codes0 : list code) (b : list Z) :
  bytes b -> Z.of_nat (length b) < 4294967296 ->
  let st := count_chars b (new_codec codes0) in
  length (char_frequency st) = 256%nat /\
  sum_list (char_frequency st) = Z.of_nat (length b) /\
  0 <= max_freq st <= Z.of_nat (length b) /\
  (b <> [] -> 1 <= max_freq st).
Proof.
  intros Hb Hlen st.
  destruct (count_chars_fresh b (new_codec codes0) Hb) as (Hcf & Hle & c & Hc & Hmax);
    [reflexivity|exact Hlen| |].
  { intros c Hc. change (char_frequency (new_codec codes0)) with (repeat 0 256).
    apply get_repeat. simpl; lia. }
  assert (Hl : length (char_frequency st) = 256%nat).
  { unfold st. destruct (count_chars_fields b (new_codec codes0)) as (-> & _).
    rewrite count_loop_length. reflexivity. }
  split; [exact Hl|]. split; [apply sum_list_counts; assumption|].
  fold st in Hmax, Hle. split.
  - rewrite Hmax. pose proof (occ_nonneg c b). pose proof (occ_le_length c b). lia.
  - intros Hne. destruct b as [|x b']; [congruence|].
    assert (Hx : 0 <= x < 256) by (inversion Hb; assumption).
    specialize (Hle x Hx).
    assert (occ x (x :: b') > 0) by (apply In_occ_pos; left; reflexivity).
    lia.
Qed.

Lemma count_chars_total_witness :
  let st := count_chars [97; 98; 99; 99] (new_codec []) in
  length (char_frequency st) = 256%nat /\
  sum_list (char_frequency st) = 4 /\
  0 <= max_freq st <= 4 /\
  ([97; 98; 99; 99] <> [] -> 1 <= max_freq st).
Proof.
  apply (count_chars_total [] [97; 98; 99; 99]).
  - repeat constructor; unfold is_byte; lia.
  - simpl; lia.
Defined.

(** * The bit packer and unpacker, continued *)

Lemma bitRead_testbit (bits : Z) (buf : list Z) (c : bit_cursor) :
  0 <= bits <= 32 -> valid_cursor c -> bytes buf ->
  bitpos c + bits <= 8 * Z.of_nat (length buf) ->
  exists r,
    bitRead bits buf c = Some (r, cursor_at (bitpos c + bits)) /\
    0 <= r /\
    forall j, 0 <= j ->
      Z.testbit r j = (j <? bits) && getbit buf (bitpos c + bits - 1 - j).
Proof.
  intros Hn Hc Hb Hfit.
  destruct (bitRead_loop_spec (Z.to_nat bits) bits 0 buf c)
    as (r & Hr & Hr0 & Hrb); auto; try lia.
  { intros j _. apply Z.testbit_0_l. }
  exists r. split; [exact Hr|]. split; [exact Hr0|].
  intros j Hj. rewrite Hrb by lia.
  destruct (j <? bits); [reflexivity|apply Z.testbit_0_l].
Qed.

(** X3: [bitRead] of [n] bits (0 to 32) that lie inside the buffer returns
    the number whose binary digits, most significant first, are the [n] bits
    at the cursor, and leaves the cursor [n] bits further. *)
Theorem bitRead_value (bits : Z) (buf : list Z) (c : bit_cursor) :
  0 <= bits <= 32 -> valid_cursor c -> bytes buf ->
  bitpos c + bits <= 8 * Z.of_nat (length buf) ->
  exists v,
    bitRead bits buf c = Some (v, cursor_at (bitpos c + bits)) /\
    0 <= v < 2 ^ bits /\
    forall j, 0 <= j < bits ->
      Z.testbit v j = getbit buf (bitpos c + bits - 1 - j).
Proof.
  intros Hn Hc Hb Hfit.
  destruct (bitRead_testbit bits buf c Hn Hc Hb Hfit) as (r & Hr & Hr0 & Hrb).
  exists r. split; [exact Hr|]. split.
  - split; [exact Hr0|]. apply bits_bound; [exact Hr0|lia|].
    intros j Hj. rewrite Hrb by lia.
    destruct (Z.ltb_spec j bits); [lia|]. reflexivity.
  - intros j Hj. rewrite Hrb by lia.
    destruct (Z.ltb_spec j bits); [reflexivity|lia].
Qed.

Lemma bitRead_value_witness :
  exists v,
    bitRead 12 [0; 5; 94; 0] (mkCursor 1 5) = Some (v, cursor_at (13 + 12)) /\
    0 <= v < 2 ^ 12 /\
    forall j, 0 <= j < 12 ->
      Z.testbit v j = getbit [0; 5; 94; 0] (13 + 12 - 1 - j).
Proof.
  apply (bitRead_value 12 [0; 5; 94; 0] (mkCursor 1 5)).
  - lia.
  - unfold valid_cursor; simpl; lia.
  - repeat constructor; unfold is_byte; lia.
  - simpl; lia.
Defined.

(** X4: [bitWrite] ORs the value into the buffer.  On any buffer, reading
    the [n] bits back after the write returns the bitwise OR of the value
    with what the [n] bits held before, and no bit outside the [n] bits
    changes. *)
Theorem bitWrite_ors (bits value : Z) (buf : list Z) (c : bit_cursor) :
  0 <= bits <= 32 -> 0 <= value < 2 ^ bits -> value < 2147483648 ->
  valid_cursor c -> bytes buf ->
  bitpos c + bits <= 8 * Z.of_nat (length buf) ->
  exists old buf',
    bitRead bits buf c = Some (old, cursor_at (bitpos c + bits)) /\
    bitWrite bits value buf c = Some (buf', cursor_at (bitpos c + bits)) /\
    bitRead bits buf' c = Some (Z.lor old value, cursor_at (bitpos c + bits)) /\
    length buf' = length buf /\
    forall q, 0 <= q -> q < bitpos c \/ bitpos c + bits <= q ->
      getbit buf' q = getbit buf q.
Proof.
  intros Hn Hv Hint Hc Hb Hfit.
  destruct (bitRead_testbit bits buf c Hn Hc Hb Hfit) as (old & Hold & _ & Hob).
  destruct (bitWrite_loop_spec (Z.to_nat bits) bits value buf c)
    as (buf' & Hw & Hlen & Hby & Hhi & Hlo); auto.
  destruct (bitRead_testbit bits buf' c Hn Hc Hby) as (new & Hnew & _ & Hnb).
  { rewrite Hlen. exact Hfit. }
  assert (Hp : 0 <= bitpos c) by (destruct Hc; unfold bitpos; lia).
  exists old, buf'. split; [exact Hold|]. split; [exact Hw|]. split.
  - rewrite Hnew. do 2 f_equal.
    apply Z.bits_inj'. intros j Hj. rewrite Z.lor_spec.
    rewrite Hnb, Hob by lia.
    destruct (Z.ltb_spec j bits) as [Hjl|Hjh]; cbn [andb].
    + rewrite Hhi by lia.
      destruct (Z.ltb_spec (bitpos c + bits - 1 - j) (bitpos c + bits)); [|lia].
      cbn [andb].
      replace (bitpos c + bits - 1 - (bitpos c + bits - 1 - j)) with j by lia.
      reflexivity.
    + rewrite (testbit_above value bits j) by lia. reflexivity.
  - split; [exact Hlen|]. intros q Hq [Hlow|Hhigh].
    + apply Hlo; lia.
    + rewrite Hhi by lia.
      destruct (Z.ltb_spec q (bitpos c + bits)); [lia|].
      cbn [andb]. apply orb_false_r.
Qed.

Lemma bitWrite_ors_witness :
  exists old buf',
    bitRead 12 [0; 5; 94; 0] (mkCursor 1 5) = Some (old, cursor_at (13 + 12)) /\
    bitWrite 12 2748 [0; 5; 94; 0] (mkCursor 1 5)
      = Some (buf', cursor_at (13 + 12)) /\
    bitRead 12 buf' (mkCursor 1 5)
      = Some (Z.lor old 2748, cursor_at (13 + 12)) /\
    length buf' = 4%nat /\
    forall q, 0 <= q -> q < 13 \/ 13 + 12 <= q ->
      getbit buf' q = getbit [0; 5; 94; 0] q.
Proof.
  apply (bitWrite_ors 12 2748 [0; 5; 94; 0] (mkCursor 1 5)).
  - lia.
  - lia.
  - lia.
  - unfold valid_cursor; simpl; lia.
  - repeat constructor; unfold is_byte; lia.
  - simpl; lia.
Defined.

(** * The header *)

(** X5: [read_char_freq] undoes [write_char_freq].  The table written at
    [ptr] takes 1024 bytes and leaves the rest of the buffer alone; read
    back from there it is the table written, with [max_freq] its largest
    entry, [uniqueChars] the number of its nonzero entries, and the sum of
    its entries added to [totalSize] modulo 2^32. *)
Theorem char_freq_roundtrip (st st' : huffman_codec) (buf : list Z)
    (ptr total : Z) :
  length (char_frequency st) = 256%nat ->
  length (char_frequency st') = 256%nat ->
  Forall (fun w => 0 <= w < 4294967296) (char_frequency st) ->
  bytes buf -> 0 <= ptr -> ptr + 1024 <= Z.of_nat (length buf) ->
  0 <= total < 4294967296 ->
  exists buf',
    write_char_freq st buf ptr = Some (buf', ptr + 1024) /\
    length buf' = length buf /\
    (forall j, 0 <= j -> j < ptr \/ ptr + 1024 <= j ->
       get 0 buf' j = get 0 buf j) /\
    read_char_freq buf' ptr total st'
    = Some ({| sorted_leaf_nodes := sorted_leaf_nodes st';
               head := head st';
               char_frequency := char_frequency st;
               max_freq := run_max 0 (char_frequency st);
               codes := codes st' |},
            ptr + 1024,
            wrap32 (total + sum_list (char_frequency st)),
            nonzero_count (char_frequency st)).
Proof.
  intros Hl Hl' Hr Hb Hp Hfit Ht.
  destruct (write_words_spec (char_frequency st) buf ptr)
    as (buf' & Hw & Hlen & Hby & Hwords & Hrest); auto; try (rewrite Hl; lia).
  rewrite Hl in Hw, Hrest. change (4 * Z.of_nat 256) with 1024 in Hw, Hrest.
  exists buf'. split; [exact Hw|]. split; [exact Hlen|]. split; [exact Hrest|].
  unfold read_char_freq.
  pose proof (read_loop_spec buf' (char_frequency st) 0 ptr (char_frequency st')
                total 0 0) as Hrd.
  rewrite Hl in Hrd. rewrite Hrd; auto; try lia.
  - change (4 * Z.of_nat 256) with 1024.
    assert (Hnz : 0 + nonzero_count (char_frequency st)
                  = nonzero_count (char_frequency st)) by lia.
    rewrite Hnz, fill_all by congruence. reflexivity.
  - intros j Hj. apply Hwords. rewrite Hl. exact Hj.
Qed.

Lemma char_freq_roundtrip_witness :
  let st := count_chars [97; 98; 99; 99] (new_codec []) in
  exists buf',
    write_char_freq st (repeat 0 1030) 2 = Some (buf', 2 + 1024) /\
    length buf' = length (repeat 0 1030) /\
    (forall j, 0 <= j -> j < 2 \/ 2 + 1024 <= j ->
       get 0 buf' j = get 0 (repeat 0 1030) j) /\
    read_char_freq buf' 2 7 (new_codec [])
    = Some ({| sorted_leaf_nodes := [];
               head := None;
               char_frequency := char_frequency st;
               max_freq := run_max 0 (char_frequency st);
               codes := [] |},
            2 + 1024,
            wrap32 (7 + sum_list (char_frequency st)),
            nonzero_count (char_frequency st)).
Proof.
  intros st.
  apply (char_freq_roundtrip st (new_codec []) (repeat 0 1030) 2 7).
  - reflexivity.
  - reflexivity.
  - apply Forall_forall. intros w Hw.
    assert (Hall : forallb (fun w => (0 <=? w) && (w <? 4294967296))
                     (char_frequency st) = true) by (vm_compute; reflexivity).
    rewrite forallb_forall in Hall. specialize (Hall w Hw).
    apply andb_prop in Hall. destruct Hall. lia.
  - apply bytes_repeat_zero.
  - lia.
  - rewrite repeat_length. lia.
  - lia.
Defined.

Lemma read_loop_short buf : forall n i ptr cf ts mf u,
  (0 < n)%nat -> 0 <= ptr -> Z.of_nat (length buf) < ptr + 4 * Z.of_nat n ->
  read_loop n i buf ptr cf ts mf u = None.
Proof.
  induction n as [|n IH]; intros i ptr cf ts mf u Hn Hp Hshort; [lia|].
  cbn [read_loop]. unfold load32.
  destruct (load buf ptr) as [b0|] eqn:E0; [|reflexivity].
  destruct (load buf (ptr + 1)) as [b1|] eqn:E1; [|reflexivity].
  destruct (load buf (ptr + 2)) as [b2|] eqn:E2; [|reflexivity].
  destruct (load buf (ptr + 3)) as [b3|] eqn:E3; [|reflexivity].
  unfold load in E3.
  destruct ((0 <=? ptr + 3) && (ptr + 3 <? Z.of_nat (length buf))) eqn:E;
    [|discriminate].
  apply andb_prop in E. destruct E as [_ E]. apply Z.ltb_lt in E.
  apply IH; lia.
Qed.

(** X6: [huffman_decode] never compares [bufinlen] with the size of the
    header: on a buffer shorter than 1024 bytes [read_char_freq] reads past
    its end, whatever the priority queue and the length passed in. *)
Theorem huffman_decode_short_header (Q : priority_queue) (codes0 : list code)
    (buf : list Z) (len0 : Z) :
  (length buf < 1024)%nat -> huffman_decode Q codes0 buf len0 = None.
Proof.
  intros Hshort. unfold huffman_decode, read_char_freq.
  rewrite read_loop_short; [reflexivity|lia|lia|lia].
Qed.

Lemma huffman_decode_short_header_witness :
  huffman_decode list_pq [] (repeat 0 1023) 0 = None.
Proof.
  apply (huffman_decode_short_header list_pq [] (repeat 0 1023) 0).
  rewrite repeat_length. lia.
Defined.

(** * The tree builder on a table without symbols *)

Lemma make_leaves_none cf l :
  (forall c, In c l -> get 0 cf c = 0) -> make_leaves cf l = [].
Proof.
  induction l as [|x l IH]; intros H; [reflexivity|].
  unfold make_leaves. cbn [flat_map].
  rewrite (H x) by (left; reflexivity). cbn [Z.gtb Z.compare app].
  apply IH. intros c Hc. apply H. right. exact Hc.
Qed.

Lemma sort_chars_all_zero (st : huffman_codec) :
  (forall c, 0 <= c < 256 -> get 0 (char_frequency st) c = 0) ->
  sorted_leaf_nodes (sort_chars st) = [Leaf 0 LAST_NODE].
Proof.
  intros Hz. unfold sort_chars. cbn [sorted_leaf_nodes].
  rewrite make_leaves_none; [reflexivity|].
  intros c Hc. apply Hz. apply byte_values_In.
  apply (Permutation_in c (Permutation_sym (sorted_chars_perm _ _)) Hc).
Qed.

Lemma huff_loop_sentinel_alone (Q : priority_queue) (pool : nat) :
  huff_loop Q pool [Leaf 0 LAST_NODE] (pq_new Q) = None.
Proof.
  rewrite huff_loop_unfold. unfold get_min_node.
  assert (He : pq_empty Q (pq_new Q) = true)
    by (apply pq_empty_spec, pq_new_spec).
  rewrite He. reflexivity.
Qed.

Lemma huff_tree_all_zero (Q : priority_queue) (st : huffman_codec) :
  (forall c, 0 <= c < 256 -> get 0 (char_frequency st) c = 0) ->
  huff_tree Q st = None.
Proof.
  intros Hz. unfold huff_tree.
  rewrite (sort_chars_all_zero st Hz), huff_loop_sentinel_alone. reflexivity.
Qed.

(** X7: when no byte value has a nonzero count, the leaf array holds the
    sentinel alone; [huff_tree] takes it as its first node and then looks at
    the count of the cell after it, which [sort_chars] never wrote. *)
Theorem huff_tree_no_symbols (Q : priority_queue) (st : huffman_codec) :
  (forall c, 0 <= c < 256 -> get 0 (char_frequency st) c = 0) ->
  sorted_leaf_nodes (sort_chars st) = [Leaf 0 LAST_NODE] /\
  huff_tree Q st = None.
Proof.
  intros Hz.
  pose proof (sort_chars_all_zero st Hz) as Hs.
  split; [exact Hs|].
  unfold huff_tree. rewrite Hs, huff_loop_sentinel_alone. reflexivity.
Qed.

Lemma huff_tree_no_symbols_witness :
  sorted_leaf_nodes (sort_chars (new_codec [])) = [Leaf 0 LAST_NODE] /\
  huff_tree list_pq (new_codec []) = None.
Proof.
  apply (huff_tree_no_symbols list_pq (new_codec [])).
  intros c Hc. change (char_frequency (new_codec [])) with (repeat 0 256).
  apply get_repeat. simpl; lia.
Defined.

(** X8: the empty input has no defined encoding, and a header of 256 zero
    counts has no defined decoding: both entry points build the tree before
    anything else. *)
Theorem empty_input_undefined (Q : priority_queue) (codes0 : list code) :
  huffman_encode Q codes0 [] = None /\
  forall buf len0,
    1024 <= Z.of_nat (length buf) -> 0 <= len0 < 4294967296 ->
    (forall c, 0 <= c < 256 -> word_at buf (4 * c) = 0) ->
    huffman_decode Q codes0 buf len0 = None.
Proof.
  split.
  - unfold huffman_encode.
    rewrite (huff_tree_all_zero Q (count_chars [] (new_codec codes0)));
      [reflexivity|].
    intros c Hc.
    change (char_frequency (count_chars [] (new_codec codes0))) with (repeat 0 256).
    apply get_repeat. simpl; lia.
  - intros buf len0 Hlen Hl0 Hz.
    unfold huffman_decode, read_char_freq.
    destruct (header_words_spec buf) as [Hhl Hhw].
    pose proof (read_loop_spec buf (header_words buf) 0 0 (repeat 0 256)
                  len0 0 0) as Hrd.
    rewrite Hhl in Hrd.
    change (char_frequency (new_codec codes0)) with (repeat 0 256).
    rewrite Hrd; auto; try lia.
    rewrite fill_all by (rewrite Hhl; reflexivity).
    rewrite (huff_tree_all_zero Q
      {| sorted_leaf_nodes := sorted_leaf_nodes (new_codec codes0);
         head := head (new_codec codes0);
         char_frequency := header_words buf;
         max_freq := run_max 0 (header_words buf);
         codes := codes (new_codec codes0) |}); [reflexivity|].
    cbn [char_frequency]. intros c Hc.
    rewrite <- header_words_get by exact Hc. apply Hz, Hc.
Qed.

(** * The radix sorter as a stable distribution *)

Lemma dcount_bucket f d l : dcount f d l = Z.of_nat (length (bucket f d l)).
Proof.
  induction l as [|x l IH]; cbn [dcount bucket filter length]; [reflexivity|].
  fold (bucket f d l). destruct (f x =? d); cbn [length]; lia.
Qed.

Lemma bucket_app f d l1 l2 :
  bucket f d (l1 ++ l2) = bucket f d l1 ++ bucket f d l2.
Proof. apply filter_app. Qed.

Lemma bucket_one f d c : bucket f d [c] = if f c =? d then [c] else [].
Proof. reflexivity. Qed.

Lemma dcount_snoc f d l c :
  dcount f d (l ++ [c]) = dcount f d l + (if f c =? d then 1 else 0).
Proof.
  induction l as [|x l IH]; cbn [app dcount]; [lia|]. rewrite IH. lia.
Qed.

Lemma scatter_exact cf div sc :
  (forall d, 0 <= d < 10 -> 0 <= get 0 sc d) ->
  psum sc 10 < 2147483648 ->
  forall s done offs out,
  length offs = 10%nat ->
  Z.of_nat (length out) = psum sc 10 ->
  (forall d, 0 <= d < 10 ->
     get 0 offs d = psum sc (Z.to_nat d) + dcount (digit cf div) d done) ->
  (forall d, 0 <= d < 10 ->
     dcount (digit cf div) d done + dcount (digit cf div) d s = get 0 sc d) ->
  (forall d j, 0 <= d < 10 ->
     (j < length (bucket (digit cf div) d done))%nat ->
     get 0 out (psum sc (Z.to_nat d) + Z.of_nat j)
     = nth j (bucket (digit cf div) d done) 0) ->
  length (scatter cf div s offs out) = length out /\
  forall d j, 0 <= d < 10 ->
    (j < length (bucket (digit cf div) d (done ++ s)))%nat ->
    get 0 (scatter cf div s offs out) (psum sc (Z.to_nat d) + Z.of_nat j)
    = nth j (bucket (digit cf div) d (done ++ s)) 0.
Proof.
  intros Hnn Hsmall.
  induction s as [|c rest IH]; intros done offs out Hol Hout Hoffs Hsc Hcells;
    cbn [scatter].
  - rewrite app_nil_r. split; [reflexivity|exact Hcells].
  - set (d0 := digit cf div c).
    assert (Hd0 : 0 <= d0 < 10) by apply digit_range.
    pose proof (Hoffs d0 Hd0) as Hp0. pose proof (Hsc d0 Hd0) as Hs0.
    cbn [dcount] in Hs0. fold d0 in Hs0. rewrite Z.eqb_refl in Hs0.
    pose proof (dcount_nonneg (digit cf div) d0 done) as Hdn.
    pose proof (dcount_nonneg (digit cf div) d0 rest) as Hrn.
    pose proof (psum_nonneg sc Hnn (Z.to_nat d0) ltac:(lia)) as Hb0.
    assert (Hnext : psum sc (S (Z.to_nat d0))
                    = psum sc (Z.to_nat d0) + get 0 sc d0).
    { cbn [psum]. replace (Z.of_nat (Z.to_nat d0)) with d0 by lia. reflexivity. }
    pose proof (psum_mono sc Hnn (S (Z.to_nat d0)) 10 ltac:(lia)) as Hm0.
    assert (Hin : 0 <= get 0 offs d0 < Z.of_nat (length out)) by lia.
    destruct (IH (done ++ [c])
                 (set offs d0 (wrap_int (get 0 offs d0 + 1)))
                 (set out (get 0 offs d0) c)) as [Hl Hres].
    + rewrite length_set. exact Hol.
    + rewrite length_set. exact Hout.
    + intros d Hd. rewrite dcount_snoc. fold d0.
      destruct (Z.eqb_spec d0 d) as [<-|Hne].
      * rewrite get_set_eq by lia. rewrite wrap_int_small by lia. lia.
      * rewrite get_set_ne by lia. rewrite (Hoffs d Hd). lia.
    + intros d Hd. specialize (Hsc d Hd). cbn [dcount] in Hsc. fold d0 in Hsc.
      rewrite dcount_snoc. fold d0.
      destruct (d0 =? d); lia.
    + intros d j Hd. rewrite bucket_app, bucket_one. fold d0.
      pose proof (dcount_bucket (digit cf div) d done) as Hdb.
      destruct (Z.eqb_spec d0 d) as [<-|Hne].
      * rewrite length_app. cbn [length]. intros Hj.
        destruct (Nat.eq_dec j (length (bucket (digit cf div) d0 done))) as [->|Hjn].
        -- rewrite nth_middle. rewrite <- Hdb, <- Hp0.
           apply get_set_eq. exact Hin.
        -- rewrite app_nth1 by lia. rewrite get_set_ne by lia.
           apply Hcells; [exact Hd|lia].
      * rewrite app_nil_r. intros Hj.
        pose proof (Hsc d Hd) as Hsd.
        pose proof (dcount_nonneg (digit cf div) d (c :: rest)).
        pose proof (psum_nonneg sc Hnn (Z.to_nat d) ltac:(lia)).
        assert (Hnd : psum sc (S (Z.to_nat d))
                      = psum sc (Z.to_nat d) + get 0 sc d).
        { cbn [psum]. replace (Z.of_nat (Z.to_nat d)) with d by lia. reflexivity. }
        rewrite get_set_ne; [apply Hcells; [exact Hd|exact Hj]|lia|lia|].
        destruct (Z.lt_ge_cases d d0).
        -- pose proof (psum_mono sc Hnn (S (Z.to_nat d)) (Z.to_nat d0) ltac:(lia)).
           lia.
        -- pose proof (psum_mono sc Hnn (S (Z.to_nat d0)) (Z.to_nat d) ltac:(lia)).
           lia.
    + split; [rewrite Hl; apply length_set|].
      intros d j Hd Hj. replace (done ++ c :: rest) with ((done ++ [c]) ++ rest)
        in * by (rewrite <- app_assoc; reflexivity).
      apply Hres; assumption.
Qed.

Lemma by_digit_prefix f l sc :
  (forall d, 0 <= d < 10 -> get 0 sc d = dcount f d l) ->
  forall k, (k <= 10)%nat ->
  let L := flat_map (fun d => bucket f d l) (map Z.of_nat (seq 0 k)) in
  Z.of_nat (length L) = psum sc k /\
  forall d j, (d < k)%nat ->
    (j < length (bucket f (Z.of_nat d) l))%nat ->
    get 0 L (psum sc d + Z.of_nat j) = nth j (bucket f (Z.of_nat d) l) 0.
Proof.
  intros Hsc.
  assert (Hnn : forall d, 0 <= d < 10 -> 0 <= get 0 sc d)
    by (intros d Hd; rewrite (Hsc d Hd); apply dcount_nonneg).
  induction k as [|k IH]; intros Hk L.
  - split; [reflexivity|]. intros d j Hd. lia.
  - destruct (IH ltac:(lia)) as [Hlen Hget].
    unfold L. rewrite seq_S, map_app, flat_map_app. cbn [Nat.add map flat_map].
    rewrite app_nil_r.
    set (L0 := flat_map (fun d => bucket f d l) (map Z.of_nat (seq 0 k))) in *.
    pose proof (Hsc (Z.of_nat k) ltac:(lia)) as Hk'.
    rewrite dcount_bucket in Hk'.
    split.
    + rewrite length_app, Nat2Z.inj_add, Hlen. cbn [psum]. lia.
    + intros d j Hd Hj.
      pose proof (psum_nonneg sc Hnn d ltac:(lia)) as Hp.
      destruct (Nat.eq_dec d k) as [->|Hne].
      * unfold get. rewrite app_nth2 by lia. f_equal. lia.
      * pose proof (Hsc (Z.of_nat d) ltac:(lia)) as Hd'.
        rewrite dcount_bucket in Hd'.
        pose proof (psum_mono sc Hnn (S d) k ltac:(lia)) as Hm.
        cbn [psum] in Hm.
        unfold get. rewrite app_nth1 by lia. apply Hget; lia.
Qed.

Lemma position_split sc :
  (forall d, 0 <= d < 10 -> 0 <= get 0 sc d) ->
  forall k pos, (k <= 10)%nat -> 0 <= pos < psum sc k ->
  exists d j, (d < k)%nat /\ pos = psum sc d + Z.of_nat j /\
              Z.of_nat j < get 0 sc (Z.of_nat d).
Proof.
  intros Hnn. induction k as [|k IH]; intros pos Hk Hpos; cbn [psum] in Hpos.
  - lia.
  - destruct (Z.lt_ge_cases pos (psum sc k)) as [Hlt|Hge].
    + destruct (IH pos ltac:(lia) ltac:(lia)) as (d & j & Hd & Hp & Hj).
      exists d, j. split; [lia|]. split; assumption.
    + exists k, (Z.to_nat (pos - psum sc k)). split; [lia|]. split; lia.
Qed.

Lemma sort_radix_by_digit (cf : list Z) (r : Z) (in_array out_array : list Z) :
  length out_array = length in_array ->
  Z.of_nat (length in_array) < 2147483648 ->
  sort_radix cf r in_array out_array = by_digit (digit cf (10 ^ r)) in_array.
Proof.
  intros Hlen Hsmall. unfold sort_radix.
  set (div := 10 ^ r).
  set (sc := count_symbols cf div in_array (repeat 0 10)).
  destruct (count_symbols_spec cf div in_array (repeat 0 10)) as [Hscl Hsc].
  { reflexivity. }
  { intros d Hd. rewrite get_repeat by lia.
    pose proof (dcount_le_length (digit cf div) d in_array). lia. }
  fold sc in Hscl, Hsc.
  assert (Hsc' : forall d, 0 <= d < 10 ->
                   get 0 sc d = dcount (digit cf div) d in_array).
  { intros d Hd. rewrite (Hsc d Hd), get_repeat by lia. lia. }
  assert (Hnn : forall d, 0 <= d < 10 -> 0 <= get 0 sc d).
  { intros d Hd. rewrite (Hsc' d Hd). apply dcount_nonneg. }
  pose proof (psum_ten (digit cf div) in_array (digit_range cf div) sc Hsc')
    as Hten.
  destruct (gen_offsets_spec sc Hnn ltac:(lia)) as [Hol Hog].
  destruct (scatter_exact cf div sc Hnn ltac:(lia) in_array []
              (gen_offsets sc) out_array) as [H1 H2].
  - exact Hol.
  - rewrite Hlen. symmetry. exact Hten.
  - intros d Hd. cbn [dcount].
    replace d with (Z.of_nat (Z.to_nat d)) at 1 by lia.
    rewrite Hog by lia. lia.
  - intros d Hd. cbn [dcount]. rewrite (Hsc' d Hd). lia.
  - intros d j Hd Hj. cbn in Hj. lia.
  - cbn [app] in H2.
    destruct (by_digit_prefix (digit cf div) in_array sc Hsc' 10 ltac:(lia))
      as [B1 B2].
    fold (by_digit (digit cf div) in_array) in B1, B2.
    apply (list_ext_get 0).
    + apply Nat2Z.inj. rewrite H1, B1, Hlen. symmetry. exact Hten.
    + intros pos Hpos. rewrite H1, Hlen, <- Hten in Hpos.
      destruct (position_split sc Hnn 10 pos ltac:(lia) Hpos)
        as (d & j & Hd & -> & Hj).
      rewrite (Hsc' (Z.of_nat d)), dcount_bucket in Hj by lia.
      rewrite B2 by lia.
      specialize (H2 (Z.of_nat d) j ltac:(lia) ltac:(lia)).
      rewrite Nat2Z.id in H2. exact H2.
Qed.



(** * The order [sort_chars] establishes *)

Lemma SSorted_app {A} (R : A -> A -> Prop) l1 l2 :
  StronglySorted R l1 -> StronglySorted R l2 ->
  (forall x y, In x l1 -> In y l2 -> R x y) ->
  StronglySorted R (l1 ++ l2).
Proof.
  induction l1 as [|a l1 IH]; intros H1 H2 H12; cbn [app]; [exact H2|].
  apply StronglySorted_inv in H1. destruct H1 as [H1 Ha].
  constructor.
  - apply IH; [exact H1|exact H2|]. intros x y Hx Hy. apply H12; [right|]; assumption.
  - apply Forall_app. split; [exact Ha|].
    apply Forall_forall. intros y Hy. apply H12; [left; reflexivity|exact Hy].
Qed.

Lemma SSorted_filter {A} (R : A -> A -> Prop) (p : A -> bool) l :
  StronglySorted R l -> StronglySorted R (filter p l).
Proof.
  induction l as [|a l IH]; intros H; cbn [filter]; [constructor|].
  apply StronglySorted_inv in H. destruct H as [H Ha].
  destruct (p a); [|apply IH, H].
  constructor; [apply IH, H|].
  apply Forall_forall. intros y Hy. apply filter_In in Hy.
  rewrite Forall_forall in Ha. apply Ha, Hy.
Qed.

Lemma SSorted_weaken {A} (R R' : A -> A -> Prop) l :
  StronglySorted R l ->
  (forall x y, In x l -> In y l -> R x y -> R' x y) ->
  StronglySorted R' l.
Proof.
  induction l as [|a l IH]; intros H HR; [constructor|].
  apply StronglySorted_inv in H. destruct H as [H Ha].
  constructor.
  - apply IH; [exact H|]. intros x y Hx Hy. apply HR; right; assumption.
  - rewrite Forall_forall in Ha. apply Forall_forall. intros y Hy.
    apply HR; [left; reflexivity|right; exact Hy|apply Ha, Hy].
Qed.

Lemma SSorted_flat_map {A} (R : A -> A -> Prop) (g : Z -> list A) ds :
  StronglySorted Z.lt ds ->
  (forall d, In d ds -> StronglySorted R (g d)) ->
  (forall d d' x y, In d ds -> In d' ds -> d < d' ->
     In x (g d) -> In y (g d') -> R x y) ->
  StronglySorted R (flat_map g ds).
Proof.
  induction ds as [|d ds IH]; intros Hds Hg Hcross; cbn [flat_map];
    [constructor|].
  apply StronglySorted_inv in Hds. destruct Hds as [Hds Hd].
  rewrite Forall_forall in Hd.
  apply SSorted_app.
  - apply Hg. left; reflexivity.
  - apply IH; [exact Hds| |].
    + intros e He. apply Hg. right; exact He.
    + intros e e' x y He He'. apply Hcross; right; assumption.
  - intros x y Hx Hy. apply in_flat_map in Hy. destruct Hy as (e & He & Hy).
    apply (Hcross d e); [left; reflexivity|right; exact He|apply Hd, He| |];
      assumption.
Qed.

Lemma SSorted_seq : forall n a,
  StronglySorted Z.lt (map Z.of_nat (seq a n)).
Proof.
  induction n as [|n IH]; intros a; cbn [seq map]; constructor; [apply IH|].
  apply Forall_forall. intros y Hy. apply in_map_iff in Hy.
  destruct Hy as (k & <- & Hk). apply in_seq in Hk. lia.
Qed.

Lemma digit_step cf m x :
  0 < m -> get 0 cf x mod (m * 10) = get 0 cf x mod m + m * digit cf m x.
Proof. intros Hm. unfold digit. apply Z.rem_mul_r; lia. Qed.

Lemma by_digit_sorted cf m l :
  0 < m -> StronglySorted (key_lt cf m) l ->
  StronglySorted (key_lt cf (m * 10)) (by_digit (digit cf m) l).
Proof.
  intros Hm Hl. unfold by_digit.
  apply SSorted_flat_map.
  - apply SSorted_seq.
  - intros d _. apply (SSorted_weaken (key_lt cf m)).
    + apply SSorted_filter, Hl.
    + intros x y Hx Hy. apply filter_In in Hx, Hy.
      destruct Hx as [_ Hx], Hy as [_ Hy]. apply Z.eqb_eq in Hx, Hy.
      unfold key_lt. rewrite !digit_step, Hx, Hy by exact Hm. lia.
  - intros d d' x y _ _ Hdd Hx Hy. apply filter_In in Hx, Hy.
    destruct Hx as [_ Hx], Hy as [_ Hy]. apply Z.eqb_eq in Hx, Hy.
    unfold key_lt. rewrite !digit_step, Hx, Hy by exact Hm.
    pose proof (Z.mod_pos_bound (get 0 cf x) m Hm).
    pose proof (Z.mod_pos_bound (get 0 cf y) m Hm).
    left. nia.
Qed.

Lemma length_by_digit f l :
  (forall x, 0 <= f x < 10) -> length (by_digit f l) = length l.
Proof.
  intros Hf.
  set (sc := map (fun d => dcount f d l) (map Z.of_nat (seq 0 10))).
  assert (Hsc : forall d, 0 <= d < 10 -> get 0 sc d = dcount f d l).
  { intros d Hd. unfold sc, get.
    rewrite (nth_indep _ 0 (dcount f 0 l))
      by (rewrite !length_map, length_seq; lia).
    rewrite (map_nth (fun d => dcount f d l)).
    rewrite (nth_indep _ 0 (Z.of_nat 0)) by (rewrite length_map, length_seq; lia).
    rewrite (map_nth Z.of_nat), seq_nth by lia. f_equal. lia. }
  destruct (by_digit_prefix f l sc Hsc 10 ltac:(lia)) as [B _].
  apply Nat2Z.inj. unfold by_digit. rewrite B. apply (psum_ten f l Hf sc Hsc).
Qed.

Lemma bucket_digits f l : forall ds,
  StronglySorted Z.lt ds ->
  StronglySorted (fun x y => f x <= f y) (flat_map (fun d => bucket f d l) ds).
Proof.
  intros ds Hds. apply SSorted_flat_map; [exact Hds| |].
  - intros d _. unfold bucket.
    induction l as [|x l IH]; cbn [filter]; [constructor|].
    destruct (Z.eqb_spec (f x) d) as [E|NE]; [|exact IH].
    constructor; [exact IH|]. apply Forall_forall. intros y Hy.
    apply filter_In in Hy. destruct Hy as [_ Hy]. apply Z.eqb_eq in Hy. lia.
  - intros d d' x y _ _ Hdd Hx Hy. apply filter_In in Hx, Hy.
    destruct Hx as [_ Hx], Hy as [_ Hy]. apply Z.eqb_eq in Hx, Hy. lia.
Qed.

Lemma by_digit_In f l x :
  (forall y, 0 <= f y < 10) -> In x (by_digit f l) <-> In x l.
Proof.
  intros Hf. unfold by_digit. rewrite in_flat_map. split.
  - intros (d & _ & Hx). apply filter_In in Hx. tauto.
  - intros Hx. exists (f x). split.
    + apply in_map_iff. exists (Z.to_nat (f x)). specialize (Hf x).
      split; [lia|]. apply in_seq. lia.
    + apply filter_In. split; [exact Hx|apply Z.eqb_refl].
Qed.

(** X9: one pass of [sort_radix] is a stable distribution by the selected
    decimal digit: the output lists the bytes of the input whose digit is
    0, then those whose digit is 1, and so on up to 9, each group in the
    order it has in the input.  The output is thus in ascending order of the
    digit, holds the elements of the input and nothing of its own previous
    content. *)
Theorem sort_radix_stable (cf : list Z) (r : Z) (in_array out_array : list Z) :
  length out_array = length in_array ->
  Z.of_nat (length in_array) < 2147483648 ->
  let out := sort_radix cf r in_array out_array in
  out = by_digit (digit cf (10 ^ r)) in_array /\
  length out = length in_array /\
  (forall x, In x out <-> In x in_array) /\
  StronglySorted (fun x y => digit cf (10 ^ r) x <= digit cf (10 ^ r) y) out.
Proof.
  intros Hlen Hsmall out.
  assert (E : out = by_digit (digit cf (10 ^ r)) in_array)
    by (apply sort_radix_by_digit; assumption).
  split; [exact E|]. rewrite E. split; [|split].
  - apply length_by_digit, digit_range.
  - intros x. apply by_digit_In, digit_range.
  - apply bucket_digits, SSorted_seq.
Qed.

Lemma sort_radix_stable_witness :
  let out := sort_radix [0; 31; 7; 120; 45] 0 [1; 2; 3; 4] [0; 0; 0; 0] in
  out = by_digit (digit [0; 31; 7; 120; 45] (10 ^ 0)) [1; 2; 3; 4] /\
  length out = length [1; 2; 3; 4] /\
  (forall x, In x out <-> In x [1; 2; 3; 4]) /\
  StronglySorted
    (fun x y => digit [0; 31; 7; 120; 45] (10 ^ 0) x
                <= digit [0; 31; 7; 120; 45] (10 ^ 0) y) out.
Proof.
  apply (sort_radix_stable [0; 31; 7; 120; 45] 0 [1; 2; 3; 4] [0; 0; 0; 0]).
  - reflexivity.
  - simpl; lia.
Defined.

Lemma sort_passes_sorted cf : forall n i input other,
  0 <= i -> length other = length input ->
  Z.of_nat (length input) < 2147483648 ->
  StronglySorted (key_lt cf (10 ^ i)) input ->
  StronglySorted (key_lt cf (10 ^ (i + Z.of_nat n)))
    (sort_passes cf n i input other).
Proof.
  induction n as [|n IH]; intros i input other Hi Hlen Hsmall Hs;
    cbn [sort_passes].
  - replace (i + Z.of_nat 0) with i by lia. exact Hs.
  - rewrite (sort_radix_by_digit cf i input other Hlen Hsmall).
    assert (Hl : length (by_digit (digit cf (10 ^ i)) input) = length input)
      by (apply length_by_digit, digit_range).
    replace (i + Z.of_nat (S n)) with (i + 1 + Z.of_nat n) by lia.
    apply IH; [lia|congruence|rewrite Hl; exact Hsmall|].
    rewrite Z.pow_add_r, Z.pow_1_r by lia.
    apply by_digit_sorted; [|exact Hs]. apply Z.pow_pos_nonneg; lia.
Qed.

Lemma ceil_log10_spec m :
  1 <= m < 4294967296 ->
  0 <= ceil_log10 m <= 10 /\ m <= 10 ^ ceil_log10 m /\
  (m = 10 ^ ceil_log10 m -> m = 1 \/ In m powers_of_ten).
Proof.
  intros Hm. unfold ceil_log10.
  destruct (Z.leb_spec m 0); [lia|].
  unfold ceil_log10_from, powers_of_ten.
  repeat match goal with
         | |- context [if ?a <=? ?b then _ else _] =>
             destruct (Z.leb_spec a b)
         end;
    cbn [Z.add Z.mul Pos.add Pos.mul Pos.succ Z.pow Z.pow_pos Pos.iter In] in *;
    try lia;
    (split; [lia|split; [lia|intros ->; cbn [In]; tauto]]).
Qed.

Lemma make_leaves_sorted cf (R : Z -> Z -> Prop) l :
  StronglySorted R l ->
  (forall x y, In x l -> In y l -> get 0 cf x > 0 -> get 0 cf y > 0 ->
     R x y -> leaf_lt (Leaf x (get 0 cf x)) (Leaf y (get 0 cf y))) ->
  StronglySorted leaf_lt (make_leaves cf l).
Proof.
  induction l as [|a l IH]; intros Hs HR; [constructor|].
  apply StronglySorted_inv in Hs. destruct Hs as [Hs Ha].
  rewrite Forall_forall in Ha.
  assert (IH' : StronglySorted leaf_lt (make_leaves cf l)).
  { apply IH; [exact Hs|]. intros x y Hx Hy. apply HR; right; assumption. }
  unfold make_leaves. cbn [flat_map]. fold (make_leaves cf l).
  destruct (Z.gtb_spec (get 0 cf a) 0) as [Hpos|Hz]; cbn [app]; [|exact IH'].
  constructor; [exact IH'|].
  apply Forall_forall. intros nd Hnd. unfold make_leaves in Hnd.
  apply in_flat_map in Hnd. destruct Hnd as (y & Hy & Hnd).
  destruct (Z.gtb_spec (get 0 cf y) 0) as [Hypos|Hyz]; [|destruct Hnd].
  destruct Hnd as [<-|[]].
  apply HR; [left; reflexivity|right; exact Hy|lia|lia|apply Ha, Hy].
Qed.

Lemma make_leaves_In cf l nd :
  In nd (make_leaves cf l) ->
  exists c, In c l /\ get 0 cf c > 0 /\ nd = Leaf c (get 0 cf c).
Proof.
  unfold make_leaves. intros H. apply in_flat_map in H.
  destruct H as (c & Hc & H).
  destruct (Z.gtb_spec (get 0 cf c) 0) as [Hpos|Hz]; [|destruct H].
  destruct H as [<-|[]]. exists c. repeat split; [exact Hc|lia].
Qed.

(** X10: when no count exceeds [max_freq] and [max_freq] is below the
    sentinel value and is none of 10, 100, ..., 10^9, the array
    [sort_chars] writes, sentinel included, is in ascending order of
    count, leaves of equal count in ascending order of their byte value. *)
Theorem sort_chars_sorted (st : huffman_codec) :
  (forall c, 0 <= c < 256 ->
     0 <= get 0 (char_frequency st) c <= max_freq st) ->
  max_freq st < LAST_NODE ->
  ~ In (max_freq st) powers_of_ten ->
  StronglySorted leaf_lt (sorted_leaf_nodes (sort_chars st)).
Proof.
  intros Hcf Hmf Hpow. unfold sort_chars. cbn [sorted_leaf_nodes].
  set (cf := char_frequency st) in *. set (mf := max_freq st) in *.
  unfold LAST_NODE, UINT_MAX in Hmf.
  assert (Hrange : forall c, In c (sorted_chars cf mf) -> 0 <= c < 256).
  { intros c Hc. apply byte_values_In.
    apply (Permutation_in c (Permutation_sym (sorted_chars_perm cf mf)) Hc). }
  apply SSorted_app.
  - destruct (Z.le_gt_cases mf 0) as [Hz|Hpos].
    { rewrite make_leaves_none; [constructor|].
      intros c Hc. specialize (Hcf c (Hrange c Hc)). lia. }
    destruct (ceil_log10_spec mf ltac:(lia)) as (Hk & Hle & Heq).
    apply (make_leaves_sorted cf (key_lt cf (10 ^ ceil_log10 mf))).
    + unfold sorted_chars.
      replace (ceil_log10 mf) with (0 + Z.of_nat (Z.to_nat (ceil_log10 mf)))
        at 1 by lia.
      apply sort_passes_sorted; [lia|reflexivity|simpl; lia|].
      apply (SSorted_weaken Z.lt); [apply SSorted_seq|].
      intros x y _ _ Hxy. unfold key_lt. rewrite !Z.mod_1_r. right. lia.
    + intros x y Hx Hy Hxp Hyp Hxy.
      pose proof (Hcf x (Hrange x Hx)) as Hxr.
      pose proof (Hcf y (Hrange y Hy)) as Hyr.
      unfold leaf_lt. cbn [count character].
      destruct (Z.eq_dec mf (10 ^ ceil_log10 mf)) as [E|NE].
      * destruct (Heq E) as [H1|Hin]; [|contradiction].
        unfold key_lt in Hxy. rewrite <- E, H1, !Z.mod_1_r in Hxy. lia.
      * unfold key_lt in Hxy. rewrite !Z.mod_small in Hxy by lia. exact Hxy.
  - repeat constructor.
  - intros a b Ha [<-|[]]. apply make_leaves_In in Ha.
    destruct Ha as (c & Hc & _ & ->).
    specialize (Hcf c (Hrange c Hc)).
    left. cbn [count]. unfold LAST_NODE, UINT_MAX. lia.
Qed.

Lemma sort_chars_sorted_witness :
  StronglySorted leaf_lt
    (sorted_leaf_nodes
       (sort_chars (count_chars [97; 98; 99; 99; 97; 99] (new_codec [])))).
Proof.
  apply (sort_chars_sorted (count_chars [97; 98; 99; 99; 97; 99] (new_codec []))).
  - intros c Hc.
    assert (Hall : forallb (fun w => (0 <=? w) && (w <=? 3))
                     (char_frequency
                        (count_chars [97; 98; 99; 99; 97; 99] (new_codec [])))
                   = true) by (vm_compute; reflexivity).
    rewrite forallb_forall in Hall.
    assert (Hi : In (get 0 (char_frequency
                  (count_chars [97; 98; 99; 99; 97; 99] (new_codec []))) c)
               (char_frequency
                  (count_chars [97; 98; 99; 99; 97; 99] (new_codec [])))).
    { apply get_In.
      change (Z.of_nat (length (char_frequency
                (count_chars [97; 98; 99; 99; 97; 99] (new_codec []))))) with 256.
      exact Hc. }
    specialize (Hall _ Hi). apply andb_prop in Hall. destruct Hall.
    change (max_freq (count_chars [97; 98; 99; 99; 97; 99] (new_codec [])))
      with 3. lia.
  - vm_compute. reflexivity.
  - vm_compute. intros H. repeat (destruct H as [H|H]; [discriminate|]). exact H.
Defined.

(** * The leaf array *)

Lemma make_leaves_characters cf l :
  map character (make_leaves cf l) = filter (fun c => get 0 cf c >? 0) l.
Proof.
  induction l as [|x t IH]; [reflexivity|].
  unfold make_leaves in *. cbn [flat_map filter].
  rewrite map_app, IH.
  destruct (get 0 cf x >? 0); reflexivity.
Qed.

(** X11: whatever the table and [max_freq], the array [sort_chars] writes
    holds one leaf for each byte value with a nonzero count, carrying that
    count, no byte value twice, then the sentinel; byte values with a zero
    count get no leaf. *)
Theorem sort_chars_leaves (st : huffman_codec) :
  exists leaves,
    sorted_leaf_nodes (sort_chars st) = leaves ++ [Leaf 0 LAST_NODE] /\
    (length leaves <= 256)%nat /\
    NoDup (map character leaves) /\
    (forall nd, In nd leaves <->
       exists c, 0 <= c < 256 /\ get 0 (char_frequency st) c > 0 /\
                 nd = Leaf c (get 0 (char_frequency st) c)) /\
    char_frequency (sort_chars st) = char_frequency st /\
    max_freq (sort_chars st) = max_freq st.
Proof.
  set (cf := char_frequency st). set (mf := max_freq st).
  exists (make_leaves cf (sorted_chars cf mf)).
  pose proof (sorted_chars_perm cf mf) as Hp.
  destruct (sorted_leaves_spec cf mf) as (Hnd & _ & Hlen).
  split; [reflexivity|]. split; [exact Hlen|]. split.
  - rewrite make_leaves_characters. rewrite make_leaves_chars in Hnd. exact Hnd.
  - split; [|split; reflexivity].
    intros nd. split.
    + intros H. apply make_leaves_In in H. destruct H as (c & Hc & Hpos & ->).
      exists c. split; [|split; [exact Hpos|reflexivity]].
      apply byte_values_In. apply (Permutation_in c (Permutation_sym Hp) Hc).
    + intros (c & Hc & Hpos & ->). unfold make_leaves. apply in_flat_map.
      exists c. split.
      * apply (Permutation_in c Hp). apply byte_values_In. exact Hc.
      * destruct (Z.gtb_spec (get 0 cf c) 0); [left; reflexivity|lia].
Qed.

(** * Counts in the tree *)

Section TreeInvariants.

Variable Q : priority_queue.

Lemma get_min_node_perm leaves q x l1 q1 :
  get_min_node Q leaves q = Some (x, l1, q1) ->
  Permutation (leaves ++ pq_elems Q q) (x :: l1 ++ pq_elems Q q1).
Proof.
  unfold get_min_node. destruct leaves as [|lf rest]; [discriminate|].
  destruct (pq_empty Q q) eqn:He.
  - intros E. injection E as <- <- <-. apply Permutation_refl.
  - assert (Hne : pq_elems Q q <> []).
    { intros Hnil. apply pq_empty_spec in Hnil. congruence. }
    destruct (pq_nonempty_top Q q Hne) as (_ & top & Ht & Hp & _).
    rewrite Ht. destruct (count lf <? count top); intros E;
      injection E as <- <- <-.
    + apply Permutation_refl.
    + rewrite Hp. apply Permutation_sym, Permutation_middle.
Qed.

Lemma huff_loop_inv (P : node -> Prop) :
  (forall l r, P l -> P r -> P (build_node l r)) ->
  forall pool leaves q t,
  Forall P (leaves ++ pq_elems Q q) ->
  huff_loop Q pool leaves q = Some t -> P t.
Proof.
  intros Hbuild. induction pool as [|pool IH]; intros leaves q t Hall;
    rewrite huff_loop_unfold;
    destruct (get_min_node Q leaves q) as [[[x l1] q1]|] eqn:E1;
    try discriminate;
    apply get_min_node_perm in E1;
    pose proof (Permutation_Forall E1 Hall) as H1;
    apply Forall_cons_iff in H1; destruct H1 as [Hx H1];
    destruct l1 as [|nxt l1']; try discriminate;
    destruct ((count nxt =? LAST_NODE) && pq_empty Q q1);
    try (intros E; injection E as <-; exact Hx);
    destruct (get_min_node Q (nxt :: l1') q1) as [[[y l2] q2]|] eqn:E2;
    try discriminate.
  apply get_min_node_perm in E2.
  pose proof (Permutation_Forall E2 H1) as H2.
  apply Forall_cons_iff in H2. destruct H2 as [Hy H2].
  apply IH.
  assert (Hp : Permutation (build_node x y :: l2 ++ pq_elems Q q2)
                 (l2 ++ pq_elems Q (pq_push Q (build_node x y) q2))).
  { rewrite pq_push_spec. apply Permutation_middle. }
  apply (Permutation_Forall Hp). constructor; [apply Hbuild; assumption|exact H2].
Qed.

End TreeInvariants.

Lemma counted_weight t :
  counted t -> wrap32 (count t) = wrap32 (weight t).
Proof.
  induction t as [c n|n l IHl r IHr]; cbn [counted count weight];
    [reflexivity|].
  intros (-> & Hl & Hr). unfold wrap32 in *.
  rewrite Z.mod_mod by lia.
  rewrite (Z.add_mod (count l)), (Z.add_mod (weight l)) by lia.
  rewrite (IHl Hl), (IHr Hr). reflexivity.
Qed.

Lemma sum_list_app l1 l2 : sum_list (l1 ++ l2) = sum_list l1 + sum_list l2.
Proof.
  unfold sum_list. induction l1 as [|a l1 IH]; cbn [app fold_right]; lia.
Qed.

Lemma weight_leaf_nodes t :
  weight t = sum_list (map count (leaf_nodes t)).
Proof.
  induction t as [c n|n l IHl r IHr]; cbn [weight leaf_nodes map].
  - unfold sum_list. cbn [fold_right count]. lia.
  - rewrite map_app, sum_list_app. lia.
Qed.

Section TreeParts.

Variable Q : priority_queue.
Variable A : Type.
Variable g : node -> list A.
Hypothesis g_build : forall x y, g (build_node x y) = g x ++ g y.

(** What the tree is made of: whatever [g] collects from the nodes that
    are pending, it collects from the finished tree. *)
Lemma huff_loop_parts : forall pool r q,
  unread_ok r -> queued_ok Q q -> r ++ pq_elems Q q <> [] ->
  (length (r ++ pq_elems Q q) <= S pool)%nat ->
  exists t,
    huff_loop Q pool (r ++ [sentinel]) q = Some t /\
    Permutation (flat_map g (r ++ pq_elems Q q)) (g t).
Proof.
  induction pool as [|pool IH]; intros r q Hr Hq Hne Hlen;
    rewrite huff_loop_unfold;
    destruct (get_min_node_ok Q r q Hr Hq Hne)
      as (x & r1 & q1 & Hg & Hp & Hr1 & Hq1);
    rewrite Hg;
    pose proof (Permutation_length Hp) as Hl; cbn [length] in Hl.
  - assert (Hz : r1 ++ pq_elems Q q1 = []).
    { destruct (r1 ++ pq_elems Q q1); [reflexivity|cbn [length] in Hl; lia]. }
    apply app_eq_nil in Hz. destruct Hz as [-> Hz]. cbn [app].
    apply pq_empty_spec in Hz as He. unfold sentinel at 1. cbn [count].
    rewrite Z.eqb_refl, He. cbn [andb].
    exists x. split; [reflexivity|].
    rewrite (Permutation_flat_map g Hp), Hz. cbn [app flat_map].
    rewrite app_nil_r. apply Permutation_refl.
  - assert (Hcase : r1 ++ pq_elems Q q1 = [] \/ r1 ++ pq_elems Q q1 <> [])
      by (destruct (r1 ++ pq_elems Q q1); [left; reflexivity|right; discriminate]).
    destruct Hcase as [Hz|Hnz].
    + apply app_eq_nil in Hz. destruct Hz as [-> Hz]. cbn [app].
      apply pq_empty_spec in Hz as He. unfold sentinel at 1. cbn [count].
      rewrite Z.eqb_refl, He. cbn [andb].
      exists x. split; [reflexivity|].
      rewrite (Permutation_flat_map g Hp), Hz. cbn [app flat_map].
      rewrite app_nil_r. apply Permutation_refl.
    + assert (Helse : match r1 ++ [sentinel] with
                      | [] => true
                      | nxt :: _ => (count nxt =? LAST_NODE) && pq_empty Q q1
                      end = false).
      { destruct r1 as [|y r1']; cbn [app].
        - destruct (pq_empty Q q1) eqn:He; [|apply andb_false_r].
          apply pq_empty_spec in He. cbn [app] in Hnz. contradiction.
        - inversion Hr1 as [|? ? Hy _]; subst.
          destruct (Z.eqb_spec (count y) LAST_NODE); [contradiction|reflexivity]. }
      destruct (get_min_node_ok Q r1 q1 Hr1 Hq1 Hnz)
        as (x2 & r2 & q2 & Hg2 & Hp2 & Hr2 & Hq2).
      destruct (r1 ++ [sentinel]) as [|nxt rest] eqn:El.
      { destruct r1; discriminate. }
      rewrite Helse, Hg2.
      set (b := build_node x x2).
      assert (Hpb : Permutation (r2 ++ pq_elems Q (pq_push Q b q2))
                      (b :: r2 ++ pq_elems Q q2)).
      { rewrite pq_push_spec. apply Permutation_sym, Permutation_middle. }
      destruct (IH r2 (pq_push Q b q2)) as (t & Ht & Hpt).
      * exact Hr2.
      * unfold queued_ok. rewrite pq_push_spec. constructor; [|exact Hq2].
        unfold b, build_node. cbn [count].
        generalize (wrap32_range (count x + count x2)).
        unfold LAST_NODE, UINT_MAX. lia.
      * intros Hnil. rewrite Hnil in Hpb. apply Permutation_nil in Hpb.
        discriminate.
      * rewrite (Permutation_length Hpb). cbn [length].
        pose proof (Permutation_length Hp2) as Hl2. cbn [length] in Hl2. lia.
      * exists t. split; [exact Ht|].
        rewrite <- Hpt. rewrite (Permutation_flat_map g Hp).
        rewrite (Permutation_flat_map g Hpb). cbn [flat_map].
        rewrite (Permutation_flat_map g Hp2). cbn [flat_map].
        unfold b. rewrite g_build, <- app_assoc.
        apply Permutation_refl.
Qed.

End TreeParts.

Lemma sum_list_perm l1 l2 : Permutation l1 l2 -> sum_list l1 = sum_list l2.
Proof.
  unfold sum_list. induction 1; cbn [fold_right]; lia.
Qed.

Lemma sum_list_make_leaves cf l :
  (forall c, In c l -> 0 <= get 0 cf c) ->
  sum_list (map count (make_leaves cf l)) = sum_list (map (get 0 cf) l).
Proof.
  induction l as [|x l IH]; intros Hnn; [reflexivity|].
  unfold make_leaves in *. cbn [flat_map map]. rewrite map_app, sum_list_app.
  rewrite IH by (intros c Hc; apply Hnn; right; exact Hc).
  specialize (Hnn x ltac:(left; reflexivity)).
  unfold sum_list at 3. cbn [fold_right]. fold (sum_list (map (get 0 cf) l)).
  destruct (Z.gtb_spec (get 0 cf x) 0); unfold sum_list at 1; cbn [map fold_right count];
    lia.
Qed.

(** X12: for a table of 256 counts below the sentinel value, one of them
    nonzero, [huff_tree] returns a tree whose leaf nodes are, up to their
    order, the leaves [sort_chars] made; each internal node carries the
    32-bit sum of the counts of its two children, and the count of the root
    is the sum of the 256 counts modulo 2^32. *)
Theorem huff_tree_counts (Q : priority_queue) (st : huffman_codec) :
  length (char_frequency st) = 256%nat ->
  (forall c, 0 <= c < 256 -> 0 <= get 0 (char_frequency st) c < LAST_NODE) ->
  (exists c, 0 <= c < 256 /\ get 0 (char_frequency st) c > 0) ->
  exists t st',
    huff_tree Q st = Some st' /\ head st' = Some t /\
    Permutation
      (make_leaves (char_frequency st)
         (sorted_chars (char_frequency st) (max_freq st)))
      (leaf_nodes t) /\
    counted t /\
    count t = wrap32 (sum_list (char_frequency st)).
Proof.
  intros Hlen Hrange (c0 & Hc0 & Hpos).
  set (cf := char_frequency st) in *. set (mf := max_freq st).
  set (r := make_leaves cf (sorted_chars cf mf)).
  pose proof (sorted_chars_perm cf mf) as Hp.
  assert (Hin : forall c, In c (sorted_chars cf mf) -> 0 <= c < 256).
  { intros c Hc. apply byte_values_In.
    apply (Permutation_in c (Permutation_sym Hp) Hc). }
  assert (Hr : unread_ok r).
  { apply make_leaves_unread. intros c Hc. specialize (Hrange c (Hin c Hc)). lia. }
  assert (Hne : r ++ pq_elems Q (pq_new Q) <> []).
  { rewrite pq_new_spec, app_nil_r.
    apply (make_leaves_nonempty cf _ c0); [|exact Hpos].
    apply (Permutation_in c0 Hp). apply byte_values_In. exact Hc0. }
  assert (Hq : queued_ok Q (pq_new Q))
    by (unfold queued_ok; rewrite pq_new_spec; constructor).
  assert (Hsz : (length (r ++ pq_elems Q (pq_new Q)) <= 513)%nat).
  { rewrite pq_new_spec, app_nil_r.
    destruct (sorted_leaves_spec cf mf) as (_ & _ & Hl). fold r in Hl. lia. }
  destruct (huff_loop_parts Q node leaf_nodes (fun x y => eq_refl)
              512 r (pq_new Q) Hr Hq Hne Hsz) as (t & Ht & Hpt).
  rewrite pq_new_spec, app_nil_r in Hpt.
  assert (Hleafs : flat_map leaf_nodes r = r).
  { unfold r, make_leaves. generalize (sorted_chars cf mf) as l.
    induction l as [|x l IH]; [reflexivity|]. cbn [flat_map].
    rewrite flat_map_app, IH.
    destruct (get 0 cf x >? 0); reflexivity. }
  rewrite Hleafs in Hpt.
  assert (Hcounted : counted t).
  { apply (huff_loop_inv Q counted) with (pool := 512%nat)
      (leaves := r ++ [sentinel]) (q := pq_new Q); [| |exact Ht].
    - intros l0 r0 Hl0 Hr0. cbn [build_node counted]. auto.
    - rewrite pq_new_spec, app_nil_r. apply Forall_app. split.
      + apply Forall_forall. intros nd Hnd. apply make_leaves_In in Hnd.
        destruct Hnd as (c & _ & _ & ->). exact I.
      + repeat constructor. }
  exists t. eexists. split.
  { unfold huff_tree. cbn [sort_chars sorted_leaf_nodes]. fold cf mf r.
    unfold sentinel in Ht. rewrite Ht. reflexivity. }
  cbn [head]. split; [reflexivity|]. split; [exact Hpt|].
  split; [exact Hcounted|].
  assert (Hrt : 0 <= count t < 4294967296).
  { destruct t as [c n|n l0 r0].
    - assert (Hl : In (Leaf c n) r).
      { apply (Permutation_in _ (Permutation_sym Hpt)). left; reflexivity. }
      apply make_leaves_In in Hl. destruct Hl as (c' & Hc' & _ & E).
      injection E as -> ->. specialize (Hrange c' (Hin c' Hc')).
      cbn [count]. unfold LAST_NODE, UINT_MAX in Hrange. lia.
    - destruct Hcounted as (-> & _). cbn [count]. apply wrap32_range. }
  rewrite <- (wrap32_small (count t)) by exact Hrt.
  rewrite (counted_weight t Hcounted), weight_leaf_nodes.
  rewrite <- (sum_list_perm _ _ (Permutation_map count Hpt)).
  unfold r. rewrite sum_list_make_leaves
    by (intros c Hc; specialize (Hrange c (Hin c Hc)); lia).
  rewrite (sum_list_perm _ _ (Permutation_map (get 0 cf) (Permutation_sym Hp))).
  rewrite <- table_as_map by exact Hlen. reflexivity.
Qed.

Lemma huff_tree_counts_witness :
  exists t st',
    huff_tree list_pq (count_chars [97; 98; 99; 99] (new_codec [])) = Some st' /\
    head st' = Some t /\
    Permutation
      (make_leaves (char_frequency (count_chars [97; 98; 99; 99] (new_codec [])))
         (sorted_chars
            (char_frequency (count_chars [97; 98; 99; 99] (new_codec [])))
            (max_freq (count_chars [97; 98; 99; 99] (new_codec [])))))
      (leaf_nodes t) /\
    counted t /\
    count t
    = wrap32 (sum_list (char_frequency
                          (count_chars [97; 98; 99; 99] (new_codec [])))).
Proof.
  apply (huff_tree_counts list_pq (count_chars [97; 98; 99; 99] (new_codec []))).
  - reflexivity.
  - intros c Hc.
    destruct (count_chars_fresh [97; 98; 99; 99] (new_codec [])) as (Hcf & _).
    + repeat constructor; unfold is_byte; lia.
    + reflexivity.
    + simpl; lia.
    + intros c' Hc'. change (char_frequency (new_codec [])) with (repeat 0 256).
      apply get_repeat. simpl; lia.
    + rewrite (Hcf c Hc).
      pose proof (occ_nonneg c [97; 98; 99; 99]).
      pose proof (occ_le_length c [97; 98; 99; 99]).
      unfold LAST_NODE, UINT_MAX. simpl length in *. lia.
  - exists 97. split; [lia|]. vm_compute. reflexivity.
Defined.

(** * The codes table *)

(** X13: for an input with at least two distinct byte values, every byte
    value that occurs gets a code of 1 to 255 bits, and the entries of
    [codes] of the byte values that do not occur are never written: they
    keep what the memory of the codec held. *)
Theorem gen_codes_entries (Q : priority_queue) (codes0 : list code)
    (b : list Z) :
  bytes b -> Z.of_nat (length b) < 4294967295 ->
  (exists x y, In x b /\ In y b /\ x <> y) ->
  length codes0 = 256%nat ->
  exists st,
    encoder_state Q codes0 b = Some st /\
    length (codes st) = 256%nat /\
    (forall c, 0 <= c < 256 -> occ c b > 0 ->
       1 <= code_length (get dcode (codes st) c) <= 255) /\
    (forall c, 0 <= c < 256 -> occ c b = 0 ->
       get dcode (codes st) c = get dcode codes0 c).
Proof.
  intros Hb Hlen (x0 & y0 & Hx0 & Hy0 & Hxy) Hc0.
  assert (Hne : b <> []) by (intros ->; destruct Hx0).
  destruct (encoder_state_ok Q codes0 b Hb Hne Hlen Hc0)
    as (t & st & _ & _ & _ & _ & _ & Hst & _ & Hnd & Hin & Hcl & Hcodes).
  eexists. split; [exact Hst|]. cbn [codes]. split; [exact Hcl|].
  assert (Hr : forall c, In c (leaves_of t) -> 0 <= c < 256)
    by (intros c Hc; apply Hin in Hc; tauto).
  destruct (gen_codes_from_spec t (mkCode 0 0) codes0 Hnd Hr Hc0)
    as (_ & _ & Hkeep).
  unfold bytes in Hb. rewrite Forall_forall in Hb.
  destruct (tree_internal_of_two t x0 y0) as (k & l & r & Et); auto.
  { apply Hin. split; [apply Hb, Hx0|apply In_occ_pos, Hx0]. }
  { apply Hin. split; [apply Hb, Hy0|apply In_occ_pos, Hy0]. }
  split.
  - intros c Hc Hocc.
    destruct (leaves_In_path t c) as (p & Hp); [apply Hin; auto|].
    rewrite (Hcodes c p Hp).
    pose proof (path_length_bound t c p Hp) as Hpl.
    pose proof (leaves_length_bound t Hnd Hr) as Hll.
    rewrite extend_length by (cbn [code_length]; lia).
    cbn [code_length].
    destruct p as [|bit p'].
    + apply paths_nil in Hp. destruct Hp as (k' & Ek). congruence.
    + cbn [length] in *. lia.
  - intros c Hc Hocc. apply Hkeep; [lia|].
    intros Hcl'. apply Hin in Hcl'. lia.
Qed.

Lemma gen_codes_entries_witness :
  exists st,
    encoder_state list_pq (repeat (mkCode 7 7) 256) [97; 98; 99; 99] = Some st /\
    length (codes st) = 256%nat /\
    (forall c, 0 <= c < 256 -> occ c [97; 98; 99; 99] > 0 ->
       1 <= code_length (get dcode (codes st) c) <= 255) /\
    (forall c, 0 <= c < 256 -> occ c [97; 98; 99; 99] = 0 ->
       get dcode (codes st) c = get dcode (repeat (mkCode 7 7) 256) c).
Proof.
  apply (gen_codes_entries list_pq (repeat (mkCode 7 7) 256) [97; 98; 99; 99]).
  - repeat constructor; unfold is_byte; lia.
  - simpl; lia.
  - exists 97, 98. simpl. repeat split; auto. lia.
  - reflexivity.
Defined.

(** * What the decoder looks at *)

Lemma encoded_stream (Q : priority_queue) (codes0 : list code) (b : list Z) :
  bytes b -> Z.of_nat (length b) <= 134217728 ->
  (exists x y, In x b /\ In y b /\ x <> y) ->
  length codes0 = 256%nat ->
  (forall st, encoder_state Q codes0 b = Some st ->
     forall c, 0 <= c < 256 -> occ c b > 0 ->
       code_length (get dcode (codes st) c) <= 31) ->
  exists t enc chunks,
    huffman_encode Q codes0 b = Some (enc, Z.of_nat (length enc)) /\
    bytes enc /\ 1024 <= Z.of_nat (length enc) /\
    (forall c, 0 <= c < 256 -> word_at enc (4 * c) = occ c b) /\
    huff_loop Q 512
      (make_leaves (map (fun c => occ c b) (map Z.of_nat (seq 0 256)))
         (sorted_chars (map (fun c => occ c b) (map Z.of_nat (seq 0 256)))
            (run_max 0 (map (fun c => occ c b) (map Z.of_nat (seq 0 256)))))
       ++ [Leaf 0 LAST_NODE])
      (pq_new Q) = Some t /\
    Forall2 (chunk_for t) b chunks /\
    8 * 1024 + Z.of_nat (length (concat chunks)) <= 8 * Z.of_nat (length enc) /\
    (forall j, (j < length (concat chunks))%nat ->
       getbit enc (8 * 1024 + Z.of_nat j) = nth j (concat chunks) false).
Proof.
  intros Hb Hlen Htwo Hc0 Hshort.
  destruct (huffman_encode_ok Q codes0 b Hb Hlen Htwo Hc0 Hshort)
    as (t & st & enc & chunks & Ht & Hhead & Hocc & Hcfl & Hmax & Henc & Hbe
        & Hn1 & Hn2 & Hwords & HF & Hfit & Hbits).
  exists t, enc, chunks. repeat (split; [assumption|]).
  split; [|repeat (split; [assumption|]); assumption].
  set (ws := map (fun c => occ c b) (map Z.of_nat (seq 0 256))).
  assert (Hlws : length ws = 256%nat)
    by (unfold ws; rewrite !length_map, length_seq; reflexivity).
  assert (Hws : forall c, 0 <= c < 256 -> get 0 ws c = occ c b)
    by (intros c Hc; unfold ws; apply get_map_byte_values; exact Hc).
  assert (Hcfws : char_frequency st = ws).
  { apply table_ext; auto. intros c Hc. rewrite (Hocc c Hc), (Hws c Hc). reflexivity. }
  assert (Hmf : run_max 0 ws = max_freq st).
  { apply (is_max_unique ws).
    - apply is_max_run_max; [exact Hlws|]. intros c Hc. rewrite (Hws c Hc).
      apply occ_nonneg.
    - rewrite <- Hcfws. exact Hmax. }
  pose proof (huff_tree_head Q _ _ t Ht Hhead) as Hloop.
  destruct (encoder_state_ok Q codes0 b Hb) as (t' & st' & Ht' & _ & Hcf' & Hmf' & _);
    auto; try lia.
  { intros ->. destruct Htwo as (x & _ & [] & _). }
  rewrite Ht in Ht'. injection Ht' as <-.
  rewrite <- Hcf', <- Hmf', Hcfws in Hloop. rewrite Hmf. exact Hloop.
Qed.

Lemma getbit_app buf tail q :
  0 <= q < 8 * Z.of_nat (length buf) -> getbit (buf ++ tail) q = getbit buf q.
Proof.
  intros Hq. unfold getbit, get. rewrite app_nth1; [reflexivity|].
  assert (q / 8 < Z.of_nat (length buf)) by (apply Z.div_lt_upper_bound; lia).
  assert (0 <= q / 8) by (apply Z.div_pos; lia). lia.
Qed.

Lemma word_at_app buf tail i :
  0 <= i -> i + 4 <= Z.of_nat (length buf) ->
  word_at (buf ++ tail) i = word_at buf i.
Proof.
  intros Hi Hl. apply word_at_ext; [exact Hi|].
  intros j Hj. unfold get. apply app_nth1. lia.
Qed.

(** X14: [huffman_decode] stops by count and never consults [bufinlen]:
    any bytes that follow the buffer [huffman_encode] produced are ignored,
    and the result is the one obtained from the buffer alone. *)
Theorem huffman_decode_ignores_tail (Q : priority_queue)
    (codes0 codes1 : list code) (b tail : list Z) (len0 : Z) :
  bytes b -> Z.of_nat (length b) <= 134217728 ->
  (exists x y, In x b /\ In y b /\ x <> y) ->
  length codes0 = 256%nat ->
  (forall st, encoder_state Q codes0 b = Some st ->
     forall c, 0 <= c < 256 -> occ c b > 0 ->
       code_length (get dcode (codes st) c) <= 31) ->
  bytes tail ->
  0 <= len0 -> len0 + Z.of_nat (length b) + 1 < 4294967296 ->
  huffman_decode Q codes1 (encoded Q codes0 b ++ tail) len0
  = huffman_decode Q codes1 (encoded Q codes0 b) len0 /\
  huffman_decode Q codes1 (encoded Q codes0 b ++ tail) len0
  = Some (map Some b ++ repeat None (Z.to_nat len0) ++ [Some 0],
          len0 + Z.of_nat (length b) + 1).
Proof.
  intros Hb Hlen Htwo Hc0 Hshort Htail Hl0 Hl1.
  destruct (encoded_stream Q codes0 b Hb Hlen Htwo Hc0 Hshort)
    as (t & enc & chunks & Henc & Hbe & Hn1 & Hwords & Hloop & HF & Hfit & Hbits).
  unfold encoded. rewrite Henc.
  assert (E1 : huffman_decode Q codes1 enc len0
               = Some (map Some b ++ repeat None (Z.to_nat len0) ++ [Some 0],
                       len0 + Z.of_nat (length b) + 1)).
  { apply (huffman_decode_stream Q codes1 enc b chunks t len0); auto. }
  assert (E2 : huffman_decode Q codes1 (enc ++ tail) len0
               = Some (map Some b ++ repeat None (Z.to_nat len0) ++ [Some 0],
                       len0 + Z.of_nat (length b) + 1)).
  { apply (huffman_decode_stream Q codes1 (enc ++ tail) b chunks t len0); auto.
    - apply Forall_app. split; assumption.
    - rewrite length_app. lia.
    - intros c Hc. rewrite word_at_app by lia. apply Hwords, Hc.
    - rewrite length_app. lia.
    - intros j Hj. rewrite getbit_app by lia. apply Hbits, Hj. }
  split; [rewrite E1; exact E2|exact E2].
Qed.

Lemma huffman_decode_ignores_tail_witness :
  huffman_decode list_pq []
    (encoded list_pq (repeat dcode 256) [97; 98; 99; 99] ++ [255; 0; 255]) 0
  = huffman_decode list_pq []
      (encoded list_pq (repeat dcode 256) [97; 98; 99; 99]) 0 /\
  huffman_decode list_pq []
    (encoded list_pq (repeat dcode 256) [97; 98; 99; 99] ++ [255; 0; 255]) 0
  = Some (map Some [97; 98; 99; 99] ++ repeat None (Z.to_nat 0) ++ [Some 0],
          0 + Z.of_nat (length [97; 98; 99; 99]) + 1).
Proof.
  apply (huffman_decode_ignores_tail list_pq (repeat dcode 256) []
           [97; 98; 99; 99] [255; 0; 255] 0).
  - repeat constructor; unfold is_byte; lia.
  - simpl; lia.
  - exists 97, 98. simpl. repeat split; auto. lia.
  - reflexivity.
  - intros st H c _ _. vm_compute in H. injection H as <-.
    apply codes_short_check; [lia|]. vm_compute. reflexivity.
  - repeat constructor; unfold is_byte; lia.
  - lia.
  - simpl; lia.
Defined.

(** * The uninitialised [codes] array *)

Lemma fold_left_ext_in {A B} (f g : A -> B -> A) (l : list B) :
  (forall a x, In x l -> f a x = g a x) ->
  forall a, fold_left f l a = fold_left g l a.
Proof.
  induction l as [|x l IH]; intros H a; cbn [fold_left]; [reflexivity|].
  rewrite (H a x) by (left; reflexivity).
  apply IH. intros a' y Hy. apply H. right. exact Hy.
Qed.

Lemma calc_out_buff_size_ext (c1 c2 : huffman_codec) :
  char_frequency c1 = char_frequency c2 ->
  (forall i, 0 <= i < 256 -> get 0 (char_frequency c1) i <> 0 ->
     get dcode (codes c1) i = get dcode (codes c2) i) ->
  calc_out_buff_size c1 = calc_out_buff_size c2.
Proof.
  intros Hcf Hcodes. unfold calc_out_buff_size.
  rewrite (fold_left_ext_in
    (fun acc i => wrap64 (acc + wrap32 (get 0 (char_frequency c1) i
                                        * code_length (get dcode (codes c1) i))))
    (fun acc i => wrap64 (acc + wrap32 (get 0 (char_frequency c2) i
                                        * code_length (get dcode (codes c2) i)))));
    [reflexivity|]. intros acc i Hi. apply byte_values_In in Hi.
  rewrite <- Hcf.
  destruct (Z.eq_dec (get 0 (char_frequency c1) i) 0) as [E|NE].
  - rewrite E. reflexivity.
  - rewrite (Hcodes i Hi NE). reflexivity.
Qed.

Lemma encode_loop_ext (cs cs' : list code) : forall b buf cur,
  (forall x, In x b -> get dcode cs x = get dcode cs' x) ->
  encode_loop cs b buf cur = encode_loop cs' b buf cur.
Proof.
  induction b as [|c b IH]; intros buf cur H; cbn [encode_loop]; [reflexivity|].
  rewrite (H c) by (left; reflexivity).
  destruct (bitWrite _ _ buf cur) as [[buf' cur']|]; [|reflexivity].
  apply IH. intros x Hx. apply H. right. exact Hx.
Qed.

(** X15: what the [codes] array holds when the codec is constructed (it has
    no initialiser) never reaches the output: [huffman_encode] returns the
    same buffer and the same size, or fails alike, for any two initial
    contents. *)
Theorem huffman_encode_ignores_codes_memory (Q : priority_queue)
    (codes0 codes0' : list code) (b : list Z) :
  bytes b -> b <> [] -> Z.of_nat (length b) < 4294967295 ->
  length codes0 = 256%nat -> length codes0' = 256%nat ->
  huffman_encode Q codes0 b = huffman_encode Q codes0' b.
Proof.
  intros Hb Hne Hlen Hc0 Hc0'.
  destruct (encoder_state_ok Q codes0 b Hb Hne Hlen Hc0)
    as (t & st & Ht & Hhead & Hcf & Hmf & Hcs & _ & Hocc & Hnd & Hin & _ & Hcodes).
  destruct (encoder_state_ok Q codes0' b Hb Hne Hlen Hc0')
    as (t' & st' & Ht' & Hhead' & Hcf' & Hmf' & Hcs' & _ & _ & _ & _ & _ & Hcodes').
  pose proof (huff_tree_head Q _ _ t Ht Hhead) as Hloop.
  pose proof (huff_tree_head Q _ _ t' Ht' Hhead') as Hloop'.
  destruct (count_chars_fields b (new_codec codes0)) as (F1 & F2 & _).
  destruct (count_chars_fields b (new_codec codes0')) as (F1' & F2' & _).
  change (char_frequency (new_codec codes0)) with (repeat 0 256) in F1, F2.
  change (char_frequency (new_codec codes0')) with (repeat 0 256) in F1', F2'.
  rewrite F1, F2 in Hloop. rewrite F1', F2', Hloop in Hloop'.
  injection Hloop' as <-.
  assert (Hcfeq : char_frequency st = char_frequency st')
    by (rewrite Hcf, Hcf', F1, F1'; reflexivity).
  unfold huffman_encode. rewrite Ht, Ht'. unfold gen_codes.
  rewrite Hhead, Hhead', Hcs, Hcs'.
  set (c1 := {| sorted_leaf_nodes := sorted_leaf_nodes st; head := Some t;
                char_frequency := char_frequency st; max_freq := max_freq st;
                codes := gen_codes_from t (mkCode 0 0) codes0 |}).
  set (c2 := {| sorted_leaf_nodes := sorted_leaf_nodes st'; head := Some t;
                char_frequency := char_frequency st'; max_freq := max_freq st';
                codes := gen_codes_from t (mkCode 0 0) codes0' |}).
  assert (Hleaf : forall c, In c (leaves_of t) ->
            get dcode (codes c1) c = get dcode (codes c2) c).
  { intros c Hc. destruct (leaves_In_path t c Hc) as (p & Hp).
    unfold c1, c2. cbn [codes]. rewrite (Hcodes c p Hp), (Hcodes' c p Hp).
    reflexivity. }
  rewrite (calc_out_buff_size_ext c1 c2).
  - unfold write_char_freq. unfold c1 at 1. cbn [char_frequency].
    unfold c2 at 2. cbn [char_frequency]. rewrite Hcfeq.
    destruct (write_words _ _ 0) as [[buf ptr]|]; [|reflexivity].
    unfold encode. rewrite (encode_loop_ext (codes c1) (codes c2)); [reflexivity|].
    intros x Hx. apply Hleaf. apply Hin. unfold bytes in Hb.
    rewrite Forall_forall in Hb. split; [apply Hb, Hx|apply In_occ_pos, Hx].
  - exact Hcfeq.
  - intros i Hi Hnz. apply Hleaf, Hin. split; [exact Hi|].
    unfold c1 in Hnz. cbn [char_frequency] in Hnz. rewrite (Hocc i Hi) in Hnz.
    pose proof (occ_nonneg i b). lia.
Qed.

Lemma huffman_encode_ignores_codes_memory_witness :
  huffman_encode list_pq (repeat dcode 256) [97; 98; 99; 99]
  = huffman_encode list_pq (repeat (mkCode 7 7) 256) [97; 98; 99; 99].
Proof.
  apply (huffman_encode_ignores_codes_memory list_pq (repeat dcode 256)
           (repeat (mkCode 7 7) 256) [97; 98; 99; 99]).
  - repeat constructor; unfold is_byte; lia.
  - discriminate.
  - simpl; lia.
  - reflexivity.
  - reflexivity.
Defined.

(** * The node [get_min_node] takes *)

(** X16: when the unread part of the leaf array is in ascending order of
    count, the node [get_min_node] returns has the least count of all
    pending nodes, unread leaves and queued internal nodes alike, and it is
    removed from where it was taken while the other pending nodes stay. *)
Theorem get_min_node_least (Q : priority_queue) (leaves : list node)
    (q : pq_t Q) (x : node) (l1 : list node) (q1 : pq_t Q) :
  StronglySorted (fun a b => count a <= count b) leaves ->
  get_min_node Q leaves q = Some (x, l1, q1) ->
  (forall y, In y (leaves ++ pq_elems Q q) -> count x <= count y) /\
  Permutation (leaves ++ pq_elems Q q) (x :: l1 ++ pq_elems Q q1).
Proof.
  intros Hs Hg. split; [|apply get_min_node_perm; exact Hg].
  unfold get_min_node in Hg. destruct leaves as [|lf rest]; [discriminate|].
  apply StronglySorted_inv in Hs. destruct Hs as [_ Hlf].
  rewrite Forall_forall in Hlf.
  destruct (pq_empty Q q) eqn:He.
  - injection Hg as <- <- <-. apply pq_empty_spec in He. rewrite He, app_nil_r.
    intros y [<-|Hy]; [lia|apply Hlf, Hy].
  - assert (Hne : pq_elems Q q <> []).
    { intros Hnil. apply pq_empty_spec in Hnil. congruence. }
    destruct (pq_nonempty_top Q q Hne) as (_ & top & Ht & _ & Hmin).
    rewrite Ht in Hg.
    destruct (Z.ltb_spec (count lf) (count top)) as [Hlt|Hge];
      injection Hg as <- <- <-; intros y Hy;
      change ((lf :: rest) ++ pq_elems Q q) with (lf :: rest ++ pq_elems Q q) in Hy;
      destruct Hy as [<-|Hy]; try lia;
      apply in_app_or in Hy; destruct Hy as [Hy|Hy];
      try (specialize (Hlf y Hy)); try (specialize (Hmin y Hy)); lia.
Qed.

Lemma get_min_node_least_witness :
  (forall y, In y ([Leaf 97 2; Leaf 98 5] ++ pq_elems list_pq [Internal 3 (Leaf 1 1) (Leaf 2 2)]) ->
     count (Leaf 97 2) <= count y) /\
  Permutation
    ([Leaf 97 2; Leaf 98 5] ++ pq_elems list_pq [Internal 3 (Leaf 1 1) (Leaf 2 2)])
    (Leaf 97 2 :: [Leaf 98 5]
       ++ pq_elems list_pq [Internal 3 (Leaf 1 1) (Leaf 2 2)]).
Proof.
  apply (get_min_node_least list_pq [Leaf 97 2; Leaf 98 5]
           [Internal 3 (Leaf 1 1) (Leaf 2 2)] (Leaf 97 2) [Leaf 98 5]
           [Internal 3 (Leaf 1 1) (Leaf 2 2)]).
  - repeat constructor; cbn [count]; lia.
  - reflexivity.
Defined.

(** * The pool of internal nodes *)

Lemma huff_loop_more_pool (Q : priority_queue) : forall pool leaves q t,
  huff_loop Q pool leaves q = Some t ->
  huff_loop Q (S pool) leaves q = Some t.
Proof.
  induction pool as [|pool IH]; intros leaves q t;
    rewrite (huff_loop_unfold Q (S _)), (huff_loop_unfold Q _ leaves);
    destruct (get_min_node Q leaves q) as [[[x l1] q1]|]; try discriminate;
    destruct l1 as [|nxt l1']; try discriminate;
    destruct ((count nxt =? LAST_NODE) && pq_empty Q q1); try (intros E; exact E);
    destruct (get_min_node Q (nxt :: l1') q1) as [[[y l2] q2]|]; try discriminate.
  apply IH.
Qed.

(** X17: the tree never needs more than 255 of the 512 cells of
    [internal_nodes]: for a table of counts all different from the sentinel
    value and not all zero, the loop of [huff_tree] run with a pool of 255
    cells ends with the same tree as with the full pool. *)
Theorem huff_tree_pool_bound (Q : priority_queue) (st : huffman_codec) :
  (forall c, 0 <= c < 256 -> get 0 (char_frequency st) c <> LAST_NODE) ->
  (exists c, 0 <= c < 256 /\ get 0 (char_frequency st) c > 0) ->
  exists t,
    huff_loop Q 255 (sorted_leaf_nodes (sort_chars st)) (pq_new Q) = Some t /\
    huff_loop Q 512 (sorted_leaf_nodes (sort_chars st)) (pq_new Q) = Some t.
Proof.
  intros Hlast (c0 & Hc0 & Hpos).
  set (cf := char_frequency st). set (mf := max_freq st).
  pose proof (sorted_chars_perm cf mf) as Hp.
  destruct (sorted_leaves_spec cf mf) as (_ & _ & Hl).
  destruct (huff_loop_ok Q 255 (make_leaves cf (sorted_chars cf mf)) (pq_new Q))
    as (t & Ht & _).
  - apply make_leaves_unread. intros c Hc. apply Hlast.
    apply byte_values_In. apply (Permutation_in c (Permutation_sym Hp) Hc).
  - unfold queued_ok. rewrite pq_new_spec. constructor.
  - rewrite pq_new_spec, app_nil_r.
    apply (make_leaves_nonempty cf _ c0); [|exact Hpos].
    apply (Permutation_in c0 Hp). apply byte_values_In. exact Hc0.
  - rewrite pq_new_spec, app_nil_r. lia.
  - exists t. unfold sort_chars. cbn [sorted_leaf_nodes]. fold cf mf.
    unfold sentinel in Ht. split; [exact Ht|].
    assert (Hmore : forall k, huff_loop Q (255 + k)
              (make_leaves cf (sorted_chars cf mf) ++ [Leaf 0 LAST_NODE])
              (pq_new Q) = Some t).
    { induction k as [|k IH].
      - rewrite Nat.add_0_r. exact Ht.
      - rewrite Nat.add_succ_r. apply huff_loop_more_pool, IH. }
    exact (Hmore 257%nat).
Qed.

Lemma huff_tree_pool_bound_witness :
  exists t,
    huff_loop list_pq 255
      (sorted_leaf_nodes
         (sort_chars (count_chars [97; 98; 99; 99] (new_codec []))))
      (pq_new list_pq) = Some t /\
    huff_loop list_pq 512
      (sorted_leaf_nodes
         (sort_chars (count_chars [97; 98; 99; 99] (new_codec []))))
      (pq_new list_pq) = Some t.
Proof.
  apply (huff_tree_pool_bound list_pq
           (count_chars [97; 98; 99; 99] (new_codec []))).
  - intros c Hc.
    destruct (count_chars_fresh [97; 98; 99; 99] (new_codec [])) as (Hcf & _).
    + repeat constructor; unfold is_byte; lia.
    + reflexivity.
    + simpl; lia.
    + intros c' Hc'. change (char_frequency (new_codec [])) with (repeat 0 256).
      apply get_repeat. simpl; lia.
    + rewrite (Hcf c Hc).
      pose proof (occ_le_length c [97; 98; 99; 99]).
      unfold LAST_NODE, UINT_MAX. simpl length in *. lia.
  - exists 97. split; [lia|]. vm_compute. reflexivity.
Defined.

(** * Inputs of a single byte value *)

Lemma bitRead_past buf c :
  valid_cursor c -> 8 * Z.of_nat (length buf) < bitpos c + 1 ->
  bitRead 1 buf c = None.
Proof.
  intros [Hi Hk] Hpast. unfold bitpos in Hpast.
  unfold bitRead. change (Z.to_nat 1) with 1%nat. cbn [bitRead_loop].
  change (1 >? 0) with true. cbv iota.
  unfold load. destruct (Z.ltb_spec (bytePtr c) (Z.of_nat (length buf))); [lia|].
  rewrite andb_false_r. reflexivity.
Qed.

Lemma leaf_decode_short c k buf :
  bytes buf -> 0 <= c < 256 ->
  forall fuel s,
  valid_cursor (inCursor s) -> length (remaining s) = 256%nat ->
  0 < uniqueChars s ->
  0 < get 0 (remaining s) c < 4294967296 ->
  8 * Z.of_nat (length buf) < bitpos (inCursor s) + get 0 (remaining s) c ->
  decode_loop fuel (Leaf c k) buf
    (mkDecode (inCursor s) (Leaf c k) (out s) (outPos s) (remaining s)
              (uniqueChars s)) = None.
Proof.
  intros Hb Hc. induction fuel as [|fuel IH]; intros s Hv Hl Hu Hm Hshort;
    cbn [decode_loop uniqueChars];
    (destruct (Z.gtb_spec (uniqueChars s) 0); [|lia]); [reflexivity|].
  unfold decode_step. cbn [inCursor currentNode out outPos remaining uniqueChars].
  destruct (Z.le_gt_cases (bitpos (inCursor s) + 1) (8 * Z.of_nat (length buf)))
    as [Hin|Hout]; [|rewrite bitRead_past by (auto; lia); reflexivity].
  rewrite bitRead_one by auto.
  destruct (store (out s) (outPos s) (Some c)) as [out'|]; [|reflexivity].
  set (m := get 0 (remaining s) c) in *.
  assert (Hm' : wrap32 (m - 1) = m - 1) by (apply wrap32_small; lia).
  rewrite Hm'. rewrite get_set_eq by lia.
  destruct (Z.eqb_spec (m - 1) 0) as [E|NE]; [lia|].
  assert (Hpos : 0 <= bitpos (inCursor s))
    by (destruct Hv; unfold bitpos; lia).
  destruct (bitpos_cursor_at (bitpos (inCursor s) + 1)) as [Hv1 Hp1]; [lia|].
  apply (IH (mkDecode (cursor_at (bitpos (inCursor s) + 1)) (Leaf c k) out'
                      (outPos s + 1) (set (remaining s) c (m - 1))
                      (uniqueChars s)));
    cbn [inCursor remaining uniqueChars].
  - exact Hv1.
  - rewrite length_set. exact Hl.
  - exact Hu.
  - rewrite get_set_eq by lia. lia.
  - rewrite get_set_eq by lia. rewrite Hp1. lia.
Qed.

Lemma single_symbol_decode_short (Q : priority_queue) (codes1 : list code)
    (c n : Z) (buf : list Z) :
  0 <= c < 256 -> 0 < n -> n + 1 < 4294967296 ->
  bytes buf -> 1024 <= Z.of_nat (length buf) ->
  header_words buf
    = map (fun i => if i =? c then n else 0) (map Z.of_nat (seq 0 256)) ->
  8 * Z.of_nat (length buf) < 8 * 1024 + n ->
  huffman_decode Q codes1 buf 0 = None.
Proof.
  intros Hc Hn0 Hn1 Hb Hlen Hhdr Hshort.
  set (ws := header_words buf).
  destruct (header_words_spec buf) as [Hhl Hhw]. fold ws in Hhl, Hhw.
  assert (Hws : forall i, 0 <= i < 256 -> get 0 ws i = if i =? c then n else 0).
  { intros i Hi. unfold ws. rewrite Hhdr.
    apply (get_map_byte_values (fun i => if i =? c then n else 0)). exact Hi. }
  assert (Hsum : sum_list ws = n).
  { unfold ws. rewrite Hhdr.
    rewrite (map_ext _ (fun i => occ i (repeat c (Z.to_nat n)))).
    - rewrite occ_sum, repeat_length; [lia|].
      apply Forall_forall. intros x Hx. apply repeat_spec in Hx. subst x. exact Hc.
    - intros i. rewrite occ_repeat, (Z.eqb_sym c i). destruct (i =? c); lia. }
  assert (Hnz : nonzero_count ws = 1).
  { unfold ws. rewrite Hhdr.
    assert (G : forall l, NoDup l -> In c l ->
              nonzero_count (map (fun i => if i =? c then n else 0) l) = 1).
    { induction l as [|x l IH]; intros Hnd Hin; [destruct Hin|].
      cbn [map]. rewrite nonzero_count_cons.
      apply NoDup_cons_iff in Hnd. destruct Hnd as [Hx Hnd'].
      destruct (Z.eqb_spec x c) as [->|Hne].
      - destruct (Z.gtb_spec n 0); [|lia].
        assert (Z0 : nonzero_count (map (fun i => if i =? c then n else 0) l) = 0).
        { clear IH Hnd' Hin. induction l as [|y l IHl]; [reflexivity|].
          cbn [map]. rewrite nonzero_count_cons.
          destruct (Z.eqb_spec y c) as [->|Hyc]; [exfalso; apply Hx; left; reflexivity|].
          rewrite IHl by (intros H'; apply Hx; right; exact H'). reflexivity. }
        lia.
      - destruct Hin as [->|Hin]; [congruence|].
        rewrite (IH Hnd' Hin). reflexivity. }
    apply G; [apply byte_values_NoDup|apply byte_values_In; exact Hc]. }
  assert (Hread : read_char_freq buf 0 0 (new_codec codes1) =
            Some ({| sorted_leaf_nodes := []; head := None; char_frequency := ws;
                     max_freq := run_max 0 ws; codes := codes1 |},
                  1024, n, 1)).
  { unfold read_char_freq.
    pose proof (read_loop_spec buf ws 0 0 (repeat 0 256) 0 0 0) as Hrd.
    rewrite Hhl in Hrd.
    change (char_frequency (new_codec codes1)) with (repeat 0 256).
    rewrite Hrd; auto; try lia.
    rewrite fill_all by (rewrite Hhl; reflexivity).
    rewrite Hsum, Hnz, wrap32_small by lia. reflexivity. }
  unfold huffman_decode. rewrite Hread.
  destruct (single_symbol_tree_gen Q ws (run_max 0 ws) c n Hc Hn0 Hn1 Hws)
    as (k & Hloop).
  unfold huff_tree, sort_chars.
  cbn [sorted_leaf_nodes char_frequency max_freq head codes].
  rewrite Hloop. unfold decode. cbn [head char_frequency].
  rewrite (leaf_decode_short c k buf Hb Hc _
             (mkDecode (mkCursor 1024 0) (Leaf c k)
                (repeat None (Z.to_nat (wrap32 (n + 1)))) 0 ws 1));
    cbn [inCursor remaining uniqueChars]; try reflexivity; try lia.
  - unfold valid_cursor. cbn [bytePtr curBit]. lia.
  - rewrite (Hws c Hc), Z.eqb_refl. lia.
  - rewrite (Hws c Hc), Z.eqb_refl. unfold bitpos. cbn [bytePtr curBit]. lia.
Qed.

(** X18: a header that names a single byte value [c], with count [n], makes
    [decode] read [n] bits after the header, one for each byte it emits,
    although the encoder packs none for such an input.  [huffman_decode]
    returns the [n] copies of [c] and the terminating zero exactly when the
    buffer holds [n] bits after its 1024-byte header, and reads past the
    end of the buffer otherwise. *)
Theorem single_symbol_decode_bits (Q : priority_queue) (codes1 : list code)
    (c n : Z) (buf : list Z) :
  0 <= c < 256 -> 0 < n -> n + 1 < 4294967296 ->
  bytes buf -> 1024 <= Z.of_nat (length buf) ->
  header_words buf
    = map (fun i => if i =? c then n else 0) (map Z.of_nat (seq 0 256)) ->
  (8 * 1024 + n <= 8 * Z.of_nat (length buf) ->
   huffman_decode Q codes1 buf 0
   = Some (map Some (repeat c (Z.to_nat n)) ++ [Some 0], n + 1)) /\
  (8 * Z.of_nat (length buf) < 8 * 1024 + n ->
   huffman_decode Q codes1 buf 0 = None).
Proof.
  intros Hc Hn0 Hn1 Hb Hlen Hhdr. split; intros H.
  - apply single_symbol_decode; assumption.
  - apply (single_symbol_decode_short Q codes1 c n); assumption.
Qed.

Lemma single_symbol_decode_bits_witness :
  (8 * 1024 + 3 <= 8 * Z.of_nat (length (encoded list_pq (repeat dcode 256) [7; 7; 7])) ->
   huffman_decode list_pq [] (encoded list_pq (repeat dcode 256) [7; 7; 7]) 0
   = Some (map Some (repeat 7 (Z.to_nat 3)) ++ [Some 0], 3 + 1)) /\
  (8 * Z.of_nat (length (encoded list_pq (repeat dcode 256) [7; 7; 7])) < 8 * 1024 + 3 ->
   huffman_decode list_pq [] (encoded list_pq (repeat dcode 256) [7; 7; 7]) 0
   = None).
Proof.
  apply (single_symbol_decode_bits list_pq [] 7 3
           (encoded list_pq (repeat dcode 256) [7; 7; 7])).
  - lia.
  - lia.
  - lia.
  - apply bytes_check. vm_compute. reflexivity.
  - vm_compute. discriminate.
  - vm_compute. reflexivity.
Defined.

Lemma encode_loop_no_bits (cs : list code) (c : Z) (buf : list Z)
    (cur : bit_cursor) :
  code_length (get dcode cs c) = 0 ->
  forall m, encode_loop cs (repeat c m) buf cur = Some (buf, cur).
Proof.
  intros H0. induction m as [|m IH]; cbn [repeat encode_loop]; [reflexivity|].
  rewrite H0. unfold bitWrite. rewrite bitWrite_loop_zero. exact IH.
Qed.

Lemma sum_list_zero (g : Z -> Z) l :
  (forall x, In x l -> g x = 0) -> sum_list (map g l) = 0.
Proof.
  unfold sum_list. induction l as [|x l IH]; intros H; cbn [map fold_right];
    [reflexivity|].
  rewrite (H x) by (left; reflexivity).
  rewrite IH by (intros y Hy; apply H; right; exact Hy). reflexivity.
Qed.

(** X19: for an input that repeats one byte value [c], [n] times,
    [huffman_encode] gives the byte the empty code and packs no bit: the
    buffer it returns is the 1024-byte header alone, with [n] at [c] and
    zero elsewhere.  [huffman_decode] of that buffer reads past its end. *)
Theorem single_symbol_encode (Q : priority_queue) (codes0 codes1 : list code)
    (c n : Z) :
  0 <= c < 256 -> 0 < n < 4294967295 -> length codes0 = 256%nat ->
  exists enc,
    huffman_encode Q codes0 (repeat c (Z.to_nat n)) = Some (enc, 1024) /\
    length enc = 1024%nat /\
    header_words enc
      = map (fun i => if i =? c then n else 0) (map Z.of_nat (seq 0 256)) /\
    huffman_decode Q codes1 enc 0 = None.
Proof.
  intros Hc Hn Hc0.
  set (b := repeat c (Z.to_nat n)).
  assert (Hb : bytes b).
  { apply Forall_forall. intros x Hx. apply repeat_spec in Hx. rewrite Hx. exact Hc. }
  assert (Hlb : Z.of_nat (length b) = n) by (unfold b; rewrite repeat_length; lia).
  assert (Hne : b <> []).
  { intros E. rewrite E in Hlb. cbn in Hlb. lia. }
  assert (Hoccb : forall i, occ i b = if i =? c then n else 0).
  { intros i. unfold b. rewrite occ_repeat, (Z.eqb_sym c i).
    destruct (i =? c); lia. }
  destruct (encoder_state_ok Q codes0 b Hb Hne ltac:(lia) Hc0)
    as (t & st & Ht & Hhead & Hcf & Hmf & Hcs & _ & Hocc & Hnd & Hin & _ & _).
  destruct (single_leaf_tree t c Hnd) as (k & Ek).
  { intros i Hi. apply Hin in Hi. destruct Hi as [Hi Hpos].
    rewrite Hoccb in Hpos. destruct (Z.eqb_spec i c); [assumption|lia]. }
  assert (Hcfl : length (char_frequency st) = 256%nat).
  { rewrite Hcf. destruct (count_chars_fields b (new_codec codes0)) as (-> & _).
    rewrite count_loop_length. reflexivity. }
  unfold huffman_encode. fold b. rewrite Ht. unfold gen_codes.
  rewrite Hhead, Hcs, Ek. cbn [gen_codes_from].
  set (st2 := {| sorted_leaf_nodes := sorted_leaf_nodes st;
                 head := Some (Leaf c k);
                 char_frequency := char_frequency st;
                 max_freq := max_freq st;
                 codes := set codes0 c (mkCode 0 0) |}).
  assert (Hprod : forall i, 0 <= i < 256 ->
            get 0 (char_frequency st2) i
            * code_length (get dcode (codes st2) i) = 0).
  { intros i Hi. unfold st2. cbn [char_frequency codes].
    rewrite (Hocc i Hi), Hoccb.
    destruct (Z.eqb_spec i c) as [->|Hic]; [|lia].
    rewrite get_set_eq by lia. cbn [code_length]. lia. }
  assert (Hsize : calc_out_buff_size st2 = 1024).
  { rewrite calc_out_buff_size_exact.
    - rewrite sum_list_zero; [reflexivity|].
      intros i Hi. apply Hprod. apply byte_values_In. exact Hi.
    - intros i Hi. rewrite (Hprod i Hi). lia.
    - cbv zeta. rewrite sum_list_zero; [cbn; lia|].
      intros i Hi. apply Hprod. apply byte_values_In. exact Hi. }
  rewrite Hsize. change (Z.to_nat 1024) with 1024%nat.
  destruct (write_words_spec (char_frequency st) (repeat 0 1024) 0)
    as (buf' & Hw & Hlen & Hby & Hwords & _); try lia.
  { rewrite Hcfl, repeat_length. lia. }
  { apply table_Forall; [exact Hcfl|]. intros i Hi. rewrite (Hocc i Hi).
    pose proof (occ_nonneg i b). pose proof (occ_le_length i b). lia. }
  { apply bytes_repeat_zero. }
  unfold write_char_freq, encode, st2. cbn [char_frequency codes].
  rewrite Hw. rewrite Hcfl.
  change (0 + 4 * Z.of_nat 256) with 1024. unfold b.
  rewrite encode_loop_no_bits
    by (rewrite get_set_eq by lia; reflexivity).
  rewrite repeat_length in Hlen.
  assert (Hhdr : header_words buf'
                 = map (fun i => if i =? c then n else 0)
                       (map Z.of_nat (seq 0 256))).
  { unfold header_words. apply map_ext_in. intros i Hi.
    apply byte_values_In in Hi.
    replace (4 * i) with (0 + 4 * Z.of_nat (Z.to_nat i)) by lia.
    rewrite Hwords by lia.
    change (nth (Z.to_nat i) (char_frequency st) 0)
      with (get 0 (char_frequency st) i).
    rewrite (Hocc i Hi). apply Hoccb. }
  exists buf'. split; [reflexivity|]. split; [exact Hlen|].
  split; [exact Hhdr|].
  apply (single_symbol_decode_short Q codes1 c n); auto; try lia.
Qed.

Lemma single_symbol_encode_witness :
  exists enc,
    huffman_encode list_pq (repeat dcode 256) (repeat 65 (Z.to_nat 1000))
      = Some (enc, 1024) /\
    length enc = 1024%nat /\
    header_words enc
      = map (fun i => if i =? 65 then 1000 else 0) (map Z.of_nat (seq 0 256)) /\
    huffman_decode list_pq [] enc 0 = None.
Proof.
  apply (single_symbol_encode list_pq (repeat dcode 256) [] 65 1000).
  - lia.
  - lia.
  - reflexivity.
Defined.

(** * The payload *)

Lemma encode_loop_rest cs : forall b buf cursor buf' cur',
  valid_cursor cursor -> bytes buf ->
  (forall x, In x b -> 0 <= code_length (get dcode cs x) <= 31) ->
  bitpos cursor + sum_list (map (fun x => code_length (get dcode cs x)) b)
    <= 8 * Z.of_nat (length buf) ->
  encode_loop cs b buf cursor = Some (buf', cur') ->
  forall q,
    bitpos cursor + sum_list (map (fun x => code_length (get dcode cs x)) b) <= q ->
    getbit buf' q = getbit buf q.
Proof.
  induction b as [|x b IH]; intros buf cursor buf' cur' Hc Hb Hcs Hfit Hrun q Hq;
    cbn [encode_loop] in Hrun.
  - injection Hrun as <- <-. reflexivity.
  - change (sum_list (map (fun x => code_length (get dcode cs x)) (x :: b)))
      with (code_length (get dcode cs x)
            + sum_list (map (fun x => code_length (get dcode cs x)) b)) in *.
    pose proof (code_lengths_nonneg cs b
                  ltac:(intros z Hz; apply Hcs; right; exact Hz)) as HT.
    set (T := sum_list (map (fun x => code_length (get dcode cs x)) b)) in *.
    destruct (Hcs x (or_introl eq_refl)) as [Hl0 Hl1].
    set (len := code_length (get dcode cs x)) in *.
    assert (Hpos : 0 <= bitpos cursor) by (destruct Hc; unfold bitpos; lia).
    destruct (bitWrite_loop_spec (Z.to_nat len) len
                (wrap_int (code_value (get dcode cs x))) buf cursor)
      as (buf1 & Hw & Hl & Hb1 & Hhi & _); auto; try lia.
    unfold bitWrite in Hrun. rewrite Hw in Hrun.
    destruct (bitpos_cursor_at (bitpos cursor + len)) as [Hv1 Hp1]; [lia|].
    rewrite (IH buf1 (cursor_at (bitpos cursor + len)) buf' cur' Hv1 Hb1);
      auto.
    + rewrite Hhi by lia.
      destruct (Z.ltb_spec q (bitpos cursor + len)); [lia|].
      cbn [andb]. apply orb_false_r.
    + intros z Hz. apply Hcs. right; exact Hz.
    + rewrite Hp1, Hl. fold T. lia.
    + rewrite Hp1. fold T. lia.
Qed.

(** X20: [encode] packs the codes of the input bytes one after the other,
    first bit first, from the byte [pbufout] on.  When every code that is
    used has at most 31 bits and a value below 2^length, and the buffer is
    zero from [pbufout] on and holds the bits, the bits written are the
    concatenation of the codes, what precedes [pbufout] is unchanged and
    every bit after the last code is still zero. *)
Theorem encode_bits (st : huffman_codec) (b buf : list Z) (pbufout : Z) :
  bytes buf -> 0 <= pbufout ->
  (forall x, In x b ->
     0 <= code_length (get dcode (codes st) x) <= 31 /\
     0 <= code_value (get dcode (codes st) x)
       < 2 ^ code_length (get dcode (codes st) x)) ->
  8 * pbufout
    + sum_list (map (fun x => code_length (get dcode (codes st) x)) b)
    <= 8 * Z.of_nat (length buf) ->
  (forall q, 8 * pbufout <= q -> getbit buf q = false) ->
  let payload := concat (map (fun x => code_bits (get dcode (codes st) x)) b) in
  exists buf',
    encode st b buf pbufout = Some buf' /\
    length buf' = length buf /\
    Z.of_nat (length payload)
      = sum_list (map (fun x => code_length (get dcode (codes st) x)) b) /\
    (forall q, 0 <= q < 8 * pbufout -> getbit buf' q = getbit buf q) /\
    (forall j, (j < length payload)%nat ->
       getbit buf' (8 * pbufout + Z.of_nat j) = nth j payload false) /\
    (forall q, 8 * pbufout + Z.of_nat (length payload) <= q ->
       getbit buf' q = false).
Proof.
  intros Hb Hp Hcs Hfit Hzero payload.
  assert (Hv : valid_cursor (mkCursor pbufout 0))
    by (unfold valid_cursor; cbn [bytePtr curBit]; lia).
  assert (Hbp : bitpos (mkCursor pbufout 0) = 8 * pbufout)
    by (unfold bitpos; cbn [bytePtr curBit]; lia).
  destruct (encode_loop_spec (codes st) b buf (mkCursor pbufout 0))
    as (buf' & Hrun & Hl & Hb' & Hlo & Hlen & Hbits); auto;
    try (rewrite Hbp; assumption).
  rewrite Hbp in *.
  exists buf'. unfold encode. rewrite Hrun.
  split; [reflexivity|]. split; [exact Hl|]. split; [exact Hlen|].
  split; [exact Hlo|]. split; [exact Hbits|].
  intros q Hq. fold payload in Hlen. rewrite Hlen in Hq.
  pose proof (code_lengths_nonneg (codes st) b
                ltac:(intros z Hz; apply Hcs; exact Hz)) as HT.
  rewrite (encode_loop_rest (codes st) b buf (mkCursor pbufout 0) buf'
             (cursor_at (8 * pbufout
                + sum_list (map (fun x => code_length (get dcode (codes st) x)) b)))
             Hv Hb).
  - apply Hzero. lia.
  - intros x Hx. apply Hcs, Hx.
  - rewrite Hbp. exact Hfit.
  - exact Hrun.
  - rewrite Hbp. exact Hq.
Qed.

Lemma encode_bits_witness :
  let st := {| sorted_leaf_nodes := []; head := None;
               char_frequency := []; max_freq := 0;
               codes := [mkCode 1 0; mkCode 2 2; mkCode 2 3] |} in
  let payload :=
    concat (map (fun x => code_bits (get dcode (codes st) x)) [2; 0; 1; 2]) in
  exists buf',
    encode st [2; 0; 1; 2] [255; 0; 0] 1 = Some buf' /\
    length buf' = length [255; 0; 0] /\
    Z.of_nat (length payload)
      = sum_list (map (fun x => code_length (get dcode (codes st) x))
                      [2; 0; 1; 2]) /\
    (forall q, 0 <= q < 8 * 1 -> getbit buf' q = getbit [255; 0; 0] q) /\
    (forall j, (j < length payload)%nat ->
       getbit buf' (8 * 1 + Z.of_nat j) = nth j payload false) /\
    (forall q, 8 * 1 + Z.of_nat (length payload) <= q ->
       getbit buf' q = false).
Proof.
  intros st.
  apply (encode_bits st [2; 0; 1; 2] [255; 0; 0] 1).
  - repeat constructor; unfold is_byte; lia.
  - lia.
  - intros x [<-|[<-|[<-|[<-|[]]]]]; vm_compute;
      repeat split; try reflexivity; intros H; discriminate H.
  - vm_compute. intros H; discriminate H.
  - intros q Hq. unfold getbit.
    assert (1 <= q / 8) by (apply Z.div_le_lower_bound; lia).
    unfold get.
    destruct (Z.to_nat (q / 8)) as [|[|[|k]]] eqn:E; [lia| | |];
      cbn [nth]; try apply Z.testbit_0_l.
    destruct k; apply Z.testbit_0_l.
Defined.

(** * The order of the leaves when [max_freq] is a power of ten *)

Lemma make_leaves_sorted_by cf (R : Z -> Z -> Prop) (R' : node -> node -> Prop) l :
  StronglySorted R l ->
  (forall x y, In x l -> In y l -> get 0 cf x > 0 -> get 0 cf y > 0 ->
     R x y -> R' (Leaf x (get 0 cf x)) (Leaf y (get 0 cf y))) ->
  StronglySorted R' (make_leaves cf l).
Proof.
  induction l as [|a l IH]; intros Hs HR; [constructor|].
  apply StronglySorted_inv in Hs. destruct Hs as [Hs Ha].
  rewrite Forall_forall in Ha.
  assert (IH' : StronglySorted R' (make_leaves cf l)).
  { apply IH; [exact Hs|]. intros x y Hx Hy. apply HR; right; assumption. }
  unfold make_leaves. cbn [flat_map]. fold (make_leaves cf l).
  destruct (Z.gtb_spec (get 0 cf a) 0) as [Hpos|Hz]; cbn [app]; [|exact IH'].
  constructor; [exact IH'|].
  apply Forall_forall. intros nd Hnd. apply make_leaves_In in Hnd.
  destruct Hnd as (y & Hy & Hypos & ->).
  apply HR; [left; reflexivity|right; exact Hy|lia|lia|apply Ha, Hy].
Qed.

Lemma ceil_log10_power m :
  In m powers_of_ten -> 1 <= ceil_log10 m /\ 10 ^ ceil_log10 m = m.
Proof.
  unfold powers_of_ten. intros H.
  repeat (destruct H as [<-|H]; [vm_compute; split; [discriminate|reflexivity]|]).
  destruct H.
Qed.

(** X21: when [max_freq] is one of 10, 100, ..., 10^9, [sort_chars] runs one
    pass too few and the leaves come out in ascending order of their count
    modulo [max_freq], equal remainders in ascending order of byte value: a
    byte value whose count reaches [max_freq] has the remainder zero and
    stands before every byte value that occurs less often. *)
Theorem sort_chars_order_at_power_of_ten (st : huffman_codec) :
  (forall c, 0 <= c < 256 ->
     0 <= get 0 (char_frequency st) c <= max_freq st) ->
  In (max_freq st) powers_of_ten ->
  StronglySorted (leaf_lt_mod (max_freq st))
    (removelast (sorted_leaf_nodes (sort_chars st))) /\
  forall a b, In a (removelast (sorted_leaf_nodes (sort_chars st))) ->
    In b (removelast (sorted_leaf_nodes (sort_chars st))) ->
    count a = max_freq st -> count b < max_freq st ->
    leaf_lt_mod (max_freq st) a b.
Proof.
  intros Hcf Hpow. unfold sort_chars. cbn [sorted_leaf_nodes].
  rewrite removelast_last.
  set (cf := char_frequency st) in *. set (mf := max_freq st) in *.
  destruct (ceil_log10_power mf Hpow) as [Hk Hmf].
  assert (Hrange : forall c, In c (sorted_chars cf mf) -> 0 <= c < 256).
  { intros c Hc. apply byte_values_In.
    apply (Permutation_in c (Permutation_sym (sorted_chars_perm cf mf)) Hc). }
  assert (Hmpos : 0 < mf).
  { rewrite <- Hmf. apply Z.pow_pos_nonneg; lia. }
  split.
  - apply (make_leaves_sorted_by cf (key_lt cf mf)).
    + unfold sorted_chars. rewrite <- Hmf at 1.
      replace (ceil_log10 mf) with (0 + Z.of_nat (Z.to_nat (ceil_log10 mf)))
        at 1 by lia.
      apply sort_passes_sorted; [lia|reflexivity|simpl; lia|].
      apply (SSorted_weaken Z.lt); [apply SSorted_seq|].
      intros x y _ _ Hxy. unfold key_lt. rewrite !Z.mod_1_r. right. lia.
    + intros x y _ _ _ _ Hxy. exact Hxy.
  - intros a b Ha Hb Hca Hcb. apply make_leaves_In in Hb.
    destruct Hb as (y & Hy & Hypos & ->). cbn [count] in Hcb.
    left. rewrite Hca, Z.mod_same by lia. cbn [count].
    rewrite Z.mod_small by lia. lia.
Qed.

Lemma sort_chars_order_at_power_of_ten_witness :
  let st := count_chars (repeat 97 10 ++ [98]) (new_codec []) in
  StronglySorted (leaf_lt_mod (max_freq st))
    (removelast (sorted_leaf_nodes (sort_chars st))) /\
  forall a b, In a (removelast (sorted_leaf_nodes (sort_chars st))) ->
    In b (removelast (sorted_leaf_nodes (sort_chars st))) ->
    count a = max_freq st -> count b < max_freq st ->
    leaf_lt_mod (max_freq st) a b.
Proof.
  intros st.
  apply (sort_chars_order_at_power_of_ten st).
  - intros c Hc.
    assert (Hall : forallb (fun w => (0 <=? w) && (w <=? 10))
                     (char_frequency st) = true) by (vm_compute; reflexivity).
    rewrite forallb_forall in Hall.
    assert (Hi : In (get 0 (char_frequency st) c) (char_frequency st)).
    { apply get_In.
      change (Z.of_nat (length (char_frequency st))) with 256. exact Hc. }
    specialize (Hall _ Hi). apply andb_prop in Hall. destruct Hall.
    change (max_freq st) with 10. lia.
  - left. reflexivity.
Defined.

(** * Codes and paths *)

(** X22: [gen_codes] assigns to every leaf its path from the root, 0 for a
    left branch and 1 for a right branch, first branch first: for a tree
    with distinct byte values at its leaves, the code of a leaf that is at
    most 32 levels deep has the depth of the leaf as its length and the
    path as its bits. *)
Theorem gen_codes_paths (st : huffman_codec) (t : node) :
  head st = Some t -> NoDup (leaves_of t) ->
  (forall c, In c (leaves_of t) -> 0 <= c < 256) ->
  length (codes st) = 256%nat ->
  exists st',
    gen_codes st = Some st' /\
    head st' = Some t /\ char_frequency st' = char_frequency st /\
    length (codes st') = 256%nat /\
    forall c p, In (c, p) (paths t) -> (length p <= 32)%nat ->
      code_length (get dcode (codes st') c) = Z.of_nat (length p) /\
      code_bits (get dcode (codes st') c) = p.
Proof.
  intros Hh Hnd Hr Hl.
  destruct (gen_codes_from_spec t (mkCode 0 0) (codes st) Hnd Hr Hl)
    as (Hlen & Hpath & _).
  unfold gen_codes. rewrite Hh. eexists. split; [reflexivity|].
  cbn [head char_frequency codes].
  split; [reflexivity|]. split; [reflexivity|]. split; [exact Hlen|].
  intros c p Hp Hp32. rewrite (Hpath c p Hp).
  destruct (extend_code_bits p Hp32) as (E1 & _ & E3).
  split; assumption.
Qed.

Lemma gen_codes_paths_witness :
  let t := Internal 4 (Leaf 99 2) (Internal 2 (Leaf 97 1) (Leaf 98 1)) in
  let st := {| sorted_leaf_nodes := []; head := Some t;
               char_frequency := []; max_freq := 0;
               codes := repeat dcode 256 |} in
  exists st',
    gen_codes st = Some st' /\
    head st' = Some t /\ char_frequency st' = char_frequency st /\
    length (codes st') = 256%nat /\
    forall c p, In (c, p) (paths t) -> (length p <= 32)%nat ->
      code_length (get dcode (codes st') c) = Z.of_nat (length p) /\
      code_bits (get dcode (codes st') c) = p.
Proof.
  intros t st.
  apply (gen_codes_paths st t).
  - reflexivity.
  - cbn [leaves_of app t]. repeat constructor; cbn [In]; lia.
  - cbn [leaves_of app t]. intros c [<-|[<-|[<-|[]]]]; lia.
  - reflexivity.
Defined.
